(** * aiohttp: multidict, payload writer and URL dispatcher

    A shallow embedding of [aiohttp/multidict.py], [aiohttp/http_message.py]
    and [aiohttp/web_urldispatcher.py], with the properties the
    specification states about them.

    Conventions of the embedding:
    - a Python [str] is a Rocq [string]; the development is exact on ASCII
      text (a non-ASCII character is the run of its UTF-8 bytes);
    - a Python [bytes] is a [list byte];
    - a method that mutates [self] is a function from the state before the
      call to the state after it, paired with what the call returns or
      raises: an exception leaves the state as the statements executed
      before the [raise] made it;
    - a [dict] used as a map is a [gmap]; a [set] is iterated in an order
      the code does not control, which is a parameter of the embedding. *)

From Stdlib Require Import ZArith QArith.
From Stdlib.Strings Require Import Ascii String Byte.
From stdpp Require Import base option list strings gmap.

#[local] Open Scope Z_scope.
#[local] Open Scope nat_scope.
#[local] Open Scope string_scope.
#[local] Open Scope list_scope.

(** What a call produces: a value, or a raised exception. *)
Inductive result (E A : Type) : Type :=
  | Ok (a : A)
  | Raise (e : E).
Arguments Ok {E A} a.
Arguments Raise {E A} e.

Definition is_ok {E A} (r : result E A) : bool :=
  match r with Ok _ => true | Raise _ => false end.

(* ================================================================== *)
(** ** aiohttp/multidict.py *)
(* ================================================================== *)

Module multidict.

Section MultiDict.
Context {K V : Type} `{EqDecision K}.

(** The exceptions the module can raise. [IndexError] is what
    [items[i]] and [del items[i]] raise out of range. *)
Inductive Exn : Type :=
  | KeyError (key : K)
  | AssertionError
  | IndexError.

(** [self._items]: the ordered list of (key, value) tuples. *)
Abbreviation Items := (list (K * V)).

(** A mutating method: state in, state out, and the outcome. *)
Definition M (A : Type) : Type := Items → Items * result Exn A.

Definition ret {A} (a : A) : M A := λ s, (s, Ok a).
Definition raise {A} (e : Exn) : M A := λ s, (s, Raise e).
Definition bind {A B} (m : M A) (f : A → M B) : M B :=
  λ s, match m s with
       | (s', Ok a) => f a s'
       | (s', Raise e) => (s', Raise e)
       end.
(** [try: m except KeyError: pass] *)
Definition except_KeyError_pass (m : M ()) : M () :=
  λ s, match m s with
       | (s', Raise (KeyError _)) => (s', Ok ())
       | r => r
       end.

(** [MultiDict.__init__] called with one list of pairs and no keyword
    argument: [_fill] extends the empty [_items] with the pairs. *)
Definition _fill (ipairs : list (K * V)) : M () :=
  λ items, (items ++ ipairs, Ok ()).

Definition MultiDict_init (pairs : list (K * V)) : Items :=
  (_fill pairs []).1.

(** [getall(key)] without a default: the values of the pairs whose key
    is [key], in order; [KeyError] when there is none. *)
Definition getall (key : K) (items : Items) : result Exn (list V) :=
  let res := (λ kv : K * V, kv.2) <$> filter (λ kv : K * V, kv.1 = key) items in
  match res with
  | [] => Raise (KeyError key)
  | _ => Ok res
  end.

(** [getall(key, default)] *)
Definition getall_default (key : K) (default : list V) (items : Items)
  : list V :=
  match getall key items with
  | Ok res => res
  | Raise _ => default
  end.

(** [__getitem__]: the value of the first pair with that key. *)
Fixpoint __getitem__ (key : K) (items : Items) : result Exn V :=
  match items with
  | [] => Raise (KeyError key)
  | (k, v) :: rest => if decide (k = key) then Ok v else __getitem__ key rest
  end.

Fixpoint __contains__ (key : K) (items : Items) : bool :=
  match items with
  | [] => false
  | (k, _) :: rest => if decide (k = key) then true else __contains__ key rest
  end.

(** *** MutableMultiDictMixin *)

Definition add (key : K) (value : V) : M () :=
  λ items, (items ++ [(key, value)], Ok ()).

(** [extend] called with one list of pairs: [add] on each in turn. *)
Fixpoint extend (pairs : list (K * V)) : M () :=
  match pairs with
  | [] => ret ()
  | (k, v) :: rest => bind (add k v) (λ _, extend rest)
  end.

(** The loop of [__delitem__]: [for i in range(len(items)-1, -1, -1)],
    the range being computed once, before the first deletion. [idx] is
    what is left of it. *)
Fixpoint delitem_loop (key : K) (idx : list nat) (found : bool)
  : M bool :=
  match idx with
  | [] => ret found
  | i :: idx' =>
      λ items,
        match items !! i with
        | None => (items, Raise IndexError)
        | Some (k, _) =>
            if decide (k = key)
            then delitem_loop key idx' true (delete i items)
            else delitem_loop key idx' found items
        end
  end.

Definition __delitem__ (key : K) : M () :=
  λ items,
    bind (delitem_loop key (rev (seq 0 (length items))) false)
         (λ found, if found : bool then ret () else raise (KeyError key))
         items.

Definition __setitem__ (key : K) (value : V) : M () :=
  bind (except_KeyError_pass (__delitem__ key))
       (λ _, λ items, (items ++ [(key, value)], Ok ())).

(** *** The views *)

(** [set(keys)] is iterated in an order of Python's choosing: [set_iter]
    is that order, each distinct key once. *)
Variable set_iter : list K → list K.

Record ItemsView : Type := mkItemsView {
  _getall : bool;
  _keys : list K;
  _mapping : list (K * V)
}.

(** The inner loop of [_ItemsView.__init__]: append the first pair of
    [items] whose key is [key], then [break]. *)
Fixpoint first_pair_loop (key : K) (items : Items)
    (items_to_use : list (K * V)) : list (K * V) :=
  match items with
  | [] => items_to_use
  | (k, v) :: rest =>
      if decide (k = key) then items_to_use ++ [(k, v)]
      else first_pair_loop key rest items_to_use
  end.

Definition _ItemsView_init (items : Items) (getall : bool)
  : result Exn ItemsView :=
  let keys := items.*1 in
  let keys := if getall then keys else set_iter keys in
  let items_to_use :=
    if getall then items
    else fold_left (λ acc key, first_pair_loop key items acc) keys [] in
  if decide (length items_to_use = length keys)
  then Ok (mkItemsView getall keys items_to_use)
  else Raise AssertionError.

(** [MultiDict.items(getall=...)] *)
Definition items (getall : bool) (self : Items) : result Exn ItemsView :=
  _ItemsView_init self getall.

(** [list(view)]: [__iter__] yields from [_mapping]. *)
Definition ItemsView_iter (view : ItemsView) : list (K * V) :=
  _mapping view.

(** [list(m.items(getall=...))], the exception included. *)
Definition items_list (getall : bool) (self : Items)
  : result Exn (list (K * V)) :=
  match items getall self with
  | Ok view => Ok (ItemsView_iter view)
  | Raise e => Raise e
  end.

(** In the words of the specification: [kv] is the first-inserted pair
    for its key when it sits at some position and no earlier position
    holds that key. *)
Definition first_inserted (pairs : list (K * V)) (kv : K * V) : Prop :=
  ∃ i, pairs !! i = Some kv ∧
       ∀ j kv', j < i → pairs !! j = Some kv' → kv'.1 ≠ kv.1.

(** *** The methods the claims do not reach *)

(** [len(m)] *)
Definition __len__ (self : Items) : nat := length self.

(** The [default] argument: the marker, a tuple of values, or some other
    object, which no tuple is equal to. *)
Inductive Default : Type :=
  | _marker
  | default_tuple (values : list V)
  | default_other.

(** [getall(key, default)]: the [default] is returned only when the key
    is absent and the default is not the marker. *)
Definition getall_or (key : K) (default : Default) (items : Items)
  : result Exn (list V + Default) :=
  match getall key items with
  | Ok res => Ok (inl res)
  | Raise e =>
      match default with
      | _marker => Raise e
      | _ => Ok (inr default)
      end
  end.

(** What [getone] raises: both are [KeyError], told apart by the message. *)
Inductive GetoneError : Type :=
  | Key_not_found (key : K)
  | Multiple_values_match (key : K) (values : list V).

(** [getone(key, default)]: [getall] is called with the marker, whatever
    [default] is; [v != default] compares the tuple of values with the
    default. *)
Definition getone `{EqDecision V} (key : K) (default : Default)
    (items : Items) : result GetoneError V :=
  match getall key items with
  | Raise _ => Raise (Key_not_found key)
  | Ok v =>
      let differs :=
        match default with
        | default_tuple d => bool_decide (v ≠ d)
        | _ => true
        end in
      if (Nat.ltb 1 (length v) && differs)%bool
      then Raise (Multiple_values_match key v)
      else match v with
           | v0 :: _ => Ok v0
           | [] => Raise (Key_not_found key)
           end
  end.

(** [_ValuesView] and [_KeysView] are built like [_ItemsView]; iterating
    the first yields the values of [_mapping], the second yields from
    [_keys]. *)
Definition values_list (getall : bool) (self : Items)
  : result Exn (list V) :=
  match _ItemsView_init self getall with
  | Ok view => Ok ((_mapping view).*2)
  | Raise e => Raise e
  end.

Definition keys_list (getall : bool) (self : Items) : result Exn (list K) :=
  match _ItemsView_init self getall with
  | Ok view => Ok (_keys view)
  | Raise e => Raise e
  end.

(** [key in m.keys(getall=...)] *)
Definition keys_contains (getall : bool) (key : K) (self : Items)
  : result Exn bool :=
  match _ItemsView_init self getall with
  | Ok view => Ok (bool_decide (key ∈ _keys view))
  | Raise e => Raise e
  end.

(** [copy()]: the class is called on [self.items(getall=True)], whose
    pairs [__init__] lists and hands to [_fill]. *)
Definition copy (self : Items) : result Exn Items :=
  match items_list true self with
  | Ok pairs => Ok (MultiDict_init pairs)
  | Raise e => Raise e
  end.

End MultiDict.

(** *** The case-insensitive classes *)

(** [str.upper()] on ASCII text. *)
Definition upper_char (c : ascii) : ascii :=
  let n := nat_of_ascii c in
  if (Nat.leb 97 n && Nat.leb n 122)%bool then ascii_of_nat (n - 32) else c.

Fixpoint upper (s : string) : string :=
  match s with
  | EmptyString => EmptyString
  | String c s' => String (upper_char c) (upper s')
  end.

Section CaseInsensitive.
Context {V : Type}.

(** [CaseInsensitiveMultiDict._fill] *)
Fixpoint ci_fill (ipairs : list (string * V)) : M (K := string) (V := V) () :=
  match ipairs with
  | [] => ret ()
  | (key, value) :: rest =>
      λ items, ci_fill rest (items ++ [(upper key, value)])
  end.

Definition CaseInsensitiveMultiDict_init (pairs : list (string * V))
  : list (string * V) :=
  (ci_fill pairs []).1.

Definition ci_getall (key : string) (items : list (string * V)) :=
  getall (upper key) items.

Definition ci___getitem__ (key : string) (items : list (string * V)) :=
  __getitem__ (upper key) items.

Definition ci___contains__ (key : string) (items : list (string * V)) :=
  __contains__ (upper key) items.

(** [CaseInsensitiveMutableMultiDict] *)
Definition ci_add (key : string) (value : V) : M (K := string) (V := V) () :=
  add (upper key) value.

Definition ci___setitem__ (key : string) (value : V)
  : M (K := string) (V := V) () :=
  __setitem__ (upper key) value.

Definition ci___delitem__ (key : string) : M (K := string) (V := V) () :=
  __delitem__ (upper key).

(** Keys are canonical when each is its own upper-case form. *)
Definition canonical (items : list (string * V)) : Prop :=
  Forall (λ kv : string * V, upper kv.1 = kv.1) items.

End CaseInsensitive.

End multidict.

(* ================================================================== *)
(** ** aiohttp/http_message.py: PayloadWriter *)
(* ================================================================== *)

Module http_message.

Abbreviation bytes := (list byte).

(** [b'\r\n'] *)
Definition CRLF : bytes := [x0d; x0a].

(** *** ['%x' % n] *)

Definition hex_digit (d : Z) : ascii :=
  match String.get (Z.to_nat d) "0123456789abcdef" with
  | Some c => c
  | None => "0"%char
  end.

Fixpoint hex_loop (fuel : nat) (n : Z) : string :=
  match fuel with
  | O => EmptyString
  | S fuel' =>
      if (n <? 16)%Z then String (hex_digit n) EmptyString
      else hex_loop fuel' (n / 16) +:+ String (hex_digit (n mod 16)) EmptyString
  end.

(** ['%x' % n]: lower-case digits, no prefix, no padding; the sign in
    front of a negative number. A number has at most one digit per bit. *)
Definition hex (n : Z) : string :=
  if (n <? 0)%Z then "-" +:+ hex_loop (S (Z.to_nat (Z.log2 (- n)))) (- n)
  else hex_loop (S (Z.to_nat (Z.log2 n))) n.

(** The value of a run of hexadecimal digits, most significant first. *)
Definition hex_digit_value (c : ascii) : option Z :=
  let n := Z.of_nat (nat_of_ascii c) in
  if ((48 <=? n) && (n <=? 57))%Z then Some (n - 48)%Z
  else if ((97 <=? n) && (n <=? 102))%Z then Some (n - 87)%Z
  else None.

Fixpoint hex_value_from (acc : Z) (s : string) : option Z :=
  match s with
  | EmptyString => Some acc
  | String c s' =>
      match hex_digit_value c with
      | Some d => hex_value_from (16 * acc + d)%Z s'
      | None => None
      end
  end.

Definition hex_value (s : string) : option Z :=
  match s with
  | EmptyString => None
  | _ => hex_value_from 0 s
  end.

(** [s.encode('ascii')] on ASCII text. *)
Definition encode_ascii (s : string) : bytes := list_byte_of_string s.

(** [len(chunk)] *)
Definition len (chunk : bytes) : Z := Z.of_nat (List.length chunk).

(** [chunk[:n]], a negative [n] counting from the end. *)
Definition slice_to (n : Z) (chunk : bytes) : bytes :=
  if (0 <=? n)%Z then take (Z.to_nat n) chunk
  else take (List.length chunk - Z.to_nat (- n)) chunk.

(** [b''.join(buffer)] *)
Definition join (buffer : list bytes) : bytes := concat buffer.

(** [('%x\r\n' % len(chunk)).encode('ascii') + chunk + b'\r\n'] *)
Definition chunk_frame (chunk : bytes) : bytes :=
  encode_ascii (hex (len chunk) +:+ String "013" (String "010" EmptyString))
  ++ chunk ++ CRLF.

(** [b'0\r\n\r\n'] *)
Definition LAST_CHUNK : bytes := [x30; x0d; x0a; x0d; x0a].

(** *** What the writer does to the objects around it *)

(** A transport and a future are known by their identity. *)
Definition Transport : Type := nat.
Definition Future : Type := nat.

Inductive Event : Type :=
  | TransportWrite (transport : Transport) (data : bytes)
  | StreamAcquire
  | StreamDrain
  | StreamRelease
  | StreamSetTcpNodelay (value : bool)
  | StreamSetTcpCork (value : bool).

(** The bytes a trace puts on the transports, in order. *)
Fixpoint wire (trace : list Event) : bytes :=
  match trace with
  | [] => []
  | TransportWrite _ data :: trace' => data ++ wire trace'
  | _ :: trace' => wire trace'
  end.

(** What a call of [write] returns: [noop()], or the coroutine
    [self.drain()], which has not run a step yet. *)
Inductive Awaitable : Type :=
  | noop
  | drain_coroutine.

(** A generator-based coroutine, run until it returns or until it is
    suspended on a future; a suspended coroutine continues from the state
    the writer has when it is woken up. *)
Inductive Coro (S A : Type) : Type :=
  | Return (a : A) (s : S)
  | Await (fut : Future) (s : S) (k : S → Coro S A).
Arguments Return {S A} a s.
Arguments Await {S A} fut s k.

Section PayloadWriter.
(** [zlib]: the compression object, made by [compressobj(wbits)], and
    its two methods, each giving the object after the call and the bytes
    it put out. *)
Context {zobj : Type}.
Variable compressobj : Z → zobj.
Variable compress : zobj → bytes → zobj * bytes.
Variable flush : zobj → zobj * bytes.

(** [zlib.MAX_WBITS] *)
Definition MAX_WBITS : Z := 15.

(** The attributes of the writer, then the part of the world it acts
    on: whether the stream is available, the calls made on the stream
    and on the transports, the futures that are done, and the identity
    [create_future] gives next. *)
Record PayloadWriter : Type := mkPayloadWriter {
  _transport : option Transport;
  length : option Z;
  chunked : bool;
  buffer_size : Z;
  output_size : Z;
  _eof : bool;
  _buffer : list bytes;
  _compress : option zobj;
  _drain_waiter : option Future;
  stream_available : bool;
  trace : list Event;
  futures_done : list Future;
  next_future : Future
}.

Definition set__transport (v : option Transport) (w : PayloadWriter) :=
  mkPayloadWriter v (length w) (chunked w) (buffer_size w) (output_size w)
    (_eof w) (_buffer w) (_compress w) (_drain_waiter w)
    (stream_available w) (trace w) (futures_done w) (next_future w).
Definition set_length (v : option Z) (w : PayloadWriter) :=
  mkPayloadWriter (_transport w) v (chunked w) (buffer_size w)
    (output_size w) (_eof w) (_buffer w) (_compress w) (_drain_waiter w)
    (stream_available w) (trace w) (futures_done w) (next_future w).
Definition set_chunked (v : bool) (w : PayloadWriter) :=
  mkPayloadWriter (_transport w) (length w) v (buffer_size w)
    (output_size w) (_eof w) (_buffer w) (_compress w) (_drain_waiter w)
    (stream_available w) (trace w) (futures_done w) (next_future w).
Definition set_buffer_size (v : Z) (w : PayloadWriter) :=
  mkPayloadWriter (_transport w) (length w) (chunked w) v (output_size w)
    (_eof w) (_buffer w) (_compress w) (_drain_waiter w)
    (stream_available w) (trace w) (futures_done w) (next_future w).
Definition set_output_size (v : Z) (w : PayloadWriter) :=
  mkPayloadWriter (_transport w) (length w) (chunked w) (buffer_size w) v
    (_eof w) (_buffer w) (_compress w) (_drain_waiter w)
    (stream_available w) (trace w) (futures_done w) (next_future w).
Definition set__eof (v : bool) (w : PayloadWriter) :=
  mkPayloadWriter (_transport w) (length w) (chunked w) (buffer_size w)
    (output_size w) v (_buffer w) (_compress w) (_drain_waiter w)
    (stream_available w) (trace w) (futures_done w) (next_future w).
Definition set__buffer (v : list bytes) (w : PayloadWriter) :=
  mkPayloadWriter (_transport w) (length w) (chunked w) (buffer_size w)
    (output_size w) (_eof w) v (_compress w) (_drain_waiter w)
    (stream_available w) (trace w) (futures_done w) (next_future w).
Definition set__compress (v : option zobj) (w : PayloadWriter) :=
  mkPayloadWriter (_transport w) (length w) (chunked w) (buffer_size w)
    (output_size w) (_eof w) (_buffer w) v (_drain_waiter w)
    (stream_available w) (trace w) (futures_done w) (next_future w).
Definition set__drain_waiter (v : option Future) (w : PayloadWriter) :=
  mkPayloadWriter (_transport w) (length w) (chunked w) (buffer_size w)
    (output_size w) (_eof w) (_buffer w) (_compress w) v
    (stream_available w) (trace w) (futures_done w) (next_future w).
Definition set_stream_available (v : bool) (w : PayloadWriter) :=
  mkPayloadWriter (_transport w) (length w) (chunked w) (buffer_size w)
    (output_size w) (_eof w) (_buffer w) (_compress w) (_drain_waiter w)
    v (trace w) (futures_done w) (next_future w).
Definition set_trace (v : list Event) (w : PayloadWriter) :=
  mkPayloadWriter (_transport w) (length w) (chunked w) (buffer_size w)
    (output_size w) (_eof w) (_buffer w) (_compress w) (_drain_waiter w)
    (stream_available w) v (futures_done w) (next_future w).
Definition set_futures_done (v : list Future) (w : PayloadWriter) :=
  mkPayloadWriter (_transport w) (length w) (chunked w) (buffer_size w)
    (output_size w) (_eof w) (_buffer w) (_compress w) (_drain_waiter w)
    (stream_available w) (trace w) v (next_future w).
Definition set_next_future (v : Future) (w : PayloadWriter) :=
  mkPayloadWriter (_transport w) (length w) (chunked w) (buffer_size w)
    (output_size w) (_eof w) (_buffer w) (_compress w) (_drain_waiter w)
    (stream_available w) (trace w) (futures_done w) v.

(** A call on the stream or on a transport. *)
Definition emit (e : Event) (w : PayloadWriter) : PayloadWriter :=
  set_trace (trace w ++ [e]) w.

(** [PayloadWriter(stream, loop, acquire)], the stream being available
    or not and having the transport [stream_transport]. *)
Definition __init__ (available : bool) (stream_transport : Transport)
    (acquire : bool) : PayloadWriter :=
  let w := mkPayloadWriter None None false 0 0 false [] None None
             available [] [] 0 in
  if stream_available w then
    set_stream_available false (set__transport (Some stream_transport) w)
  else if acquire then emit StreamAcquire w
  else w.

Definition set_transport (transport : Transport) (w : PayloadWriter)
  : PayloadWriter :=
  let w := set__transport (Some transport) w in
  let chunk := join (_buffer w) in
  let w :=
    match chunk with
    | [] => w
    | _ => set__buffer [] (emit (TransportWrite transport chunk) w)
    end in
  match _drain_waiter w with
  | None => w
  | Some waiter =>
      let w := set__drain_waiter None w in
      if decide (waiter ∈ futures_done w) then w
      else set_futures_done (waiter :: futures_done w) w
  end.

Definition set_tcp_nodelay (value : bool) (w : PayloadWriter) :=
  emit (StreamSetTcpNodelay value) w.

Definition set_tcp_cork (value : bool) (w : PayloadWriter) :=
  emit (StreamSetTcpCork value) w.

Definition enable_chunking (w : PayloadWriter) : PayloadWriter :=
  set_chunked true w.

Definition enable_compression (encoding : string) (w : PayloadWriter)
  : PayloadWriter :=
  let zlib_mode :=
    if decide (encoding = "gzip") then (16 + MAX_WBITS)%Z
    else (- MAX_WBITS)%Z in
  set__compress (Some (compressobj zlib_mode)) w.

Definition buffer_data (chunk : bytes) (w : PayloadWriter)
  : PayloadWriter :=
  match chunk with
  | [] => w
  | _ =>
      let size := len chunk in
      let w := set_buffer_size (buffer_size w + size) w in
      let w := set_output_size (output_size w + size) w in
      set__buffer (_buffer w ++ [chunk]) w
  end.

Definition _write (chunk : bytes) (w : PayloadWriter) : PayloadWriter :=
  let size := len chunk in
  let w := set_buffer_size (buffer_size w + size) w in
  let w := set_output_size (output_size w + size) w in
  match _transport w with
  | Some transport =>
      match _buffer w with
      | [] => emit (TransportWrite transport chunk) w
      | _ =>
          let w := set__buffer (_buffer w ++ [chunk]) w in
          let w := emit (TransportWrite transport (join (_buffer w))) w in
          set__buffer [] w
      end
  | None => set__buffer (_buffer w ++ [chunk]) w
  end.

(** [write(chunk, drain=..., LIMIT=...)] is three blocks in a row; the
    first two hand the chunk on to the next block, or end the call with
    [return noop()], which is [None] here. *)

(** [if self._compress is not None: ...] *)
Definition write_compress_block (chunk : bytes) (w : PayloadWriter)
  : PayloadWriter * option bytes :=
  match _compress w with
  | Some z =>
      let '(z', chunk) := compress z chunk in
      let w := set__compress (Some z') w in
      match chunk with
      | [] => (w, None)
      | _ => (w, Some chunk)
      end
  | None => (w, Some chunk)
  end.

(** [if self.length is not None: ...] *)
Definition write_length_block (chunk : bytes) (w : PayloadWriter)
  : PayloadWriter * option bytes :=
  match length w with
  | Some length_ =>
      let chunk_len := len chunk in
      if (length_ >=? chunk_len)%Z
      then (set_length (Some (length_ - chunk_len)%Z) w, Some chunk)
      else
        let chunk := slice_to length_ chunk in
        let w := set_length (Some 0%Z) w in
        match chunk with
        | [] => (w, None)
        | _ => (w, Some chunk)
        end
  | None => (w, Some chunk)
  end.

(** [if chunk: ...] and the last [return noop()] *)
Definition write_chunk_block (chunk : bytes) (drain : bool) (LIMIT : Z)
    (w : PayloadWriter) : PayloadWriter * Awaitable :=
  match chunk with
  | [] => (w, noop)
  | _ =>
      let chunk := if chunked w then chunk_frame chunk else chunk in
      let w := _write chunk w in
      if ((buffer_size w >? LIMIT)%Z && drain)%bool
      then (set_buffer_size 0 w, drain_coroutine)
      else (w, noop)
  end.

Definition write (chunk : bytes) (drain : bool) (LIMIT : Z)
    (w : PayloadWriter) : PayloadWriter * Awaitable :=
  match write_compress_block chunk w with
  | (w, None) => (w, noop)
  | (w, Some chunk) =>
      match write_length_block chunk w with
      | (w, None) => (w, noop)
      | (w, Some chunk) => write_chunk_block chunk drain LIMIT w
      end
  end.

(** The declared default of [LIMIT]. *)
Definition LIMIT_default : Z := 64 * 1024.

(** [drain(last)]: the stream's own [drain()] is a call that returns;
    without a transport the coroutine waits on [_drain_waiter]. *)
Definition drain (last : bool) (w : PayloadWriter)
  : Coro PayloadWriter () :=
  match _transport w with
  | Some transport =>
      let w :=
        match _buffer w with
        | [] => w
        | _ =>
            let w := emit (TransportWrite transport (join (_buffer w))) w in
            if last then w else set__buffer [] w
        end in
      Return () (emit StreamDrain w)
  | None =>
      let w :=
        match _drain_waiter w with
        | None =>
            set_next_future (S (next_future w))
              (set__drain_waiter (Some (next_future w)) w)
        | Some _ => w
        end in
      match _drain_waiter w with
      | Some waiter => Await waiter w (λ w', Return () w')
      | None => Return () w
      end
  end.

(** The chunk [write_eof] hands to [buffer_data]: the [if
    self._compress: ... else: ...] block. *)
Definition write_eof_chunk (chunk : bytes) (w : PayloadWriter)
  : PayloadWriter * bytes :=
  match _compress w with
  | Some z =>
      let '(z, chunk) :=
        match chunk with
        | [] => (z, chunk)
        | _ => compress z chunk
        end in
      let '(z, flushed) := flush z in
      let chunk := chunk ++ flushed in
      let chunk :=
        match chunk with
        | [] => chunk
        | _ => if chunked w then chunk_frame chunk ++ LAST_CHUNK
               else chunk
        end in
      (set__compress (Some z) w, chunk)
  | None =>
      if chunked w then
        match chunk with
        | [] => (w, LAST_CHUNK)
        | _ => (w, chunk_frame chunk ++ LAST_CHUNK)
        end
      else (w, chunk)
  end.

(** The statements of [write_eof] after [yield from self.drain(True)]. *)
Definition write_eof_finish (w : PayloadWriter) : PayloadWriter :=
  let w := set__eof true w in
  let w := set__transport None w in
  emit StreamRelease w.

(** [yield from c], then the statements [rest]. *)
Fixpoint and_then (c : Coro PayloadWriter ())
    (rest : PayloadWriter → PayloadWriter) : Coro PayloadWriter () :=
  match c with
  | Return _ w => Return () (rest w)
  | Await fut w k => Await fut w (λ w', and_then (k w') rest)
  end.

(** The state [write_eof] has made when it reaches
    [yield from self.drain(True)]: [if chunk: self.buffer_data(chunk)]
    on the chunk of the block above. *)
Definition before_drain (chunk : bytes) (w : PayloadWriter)
  : PayloadWriter :=
  let '(w, chunk) := write_eof_chunk chunk w in
  match chunk with [] => w | _ => buffer_data chunk w end.

Definition write_eof (chunk : bytes) (w : PayloadWriter)
  : Coro PayloadWriter () :=
  if _eof w then Return () w
  else and_then (drain true (before_drain chunk w)) write_eof_finish.

(** The event loop wakes a suspended coroutine up once the future it
    waits on is done. *)
Definition wake {A} (c : Coro PayloadWriter A) (w : PayloadWriter)
  : Coro PayloadWriter A :=
  match c with
  | Await fut _ k => if decide (fut ∈ futures_done w) then k w else c
  | Return _ _ => c
  end.

(** A coroutine runs to completion in [w'] when it returns there,
    being woken up, each time it is suspended, in some state in which
    the future it waits on is done. *)
Inductive completes {A} : Coro PayloadWriter A → PayloadWriter → Prop :=
  | completes_Return a w' : completes (Return a w') w'
  | completes_Await fut s k s' w' :
      fut ∈ futures_done s' →
      completes (k s') w' →
      completes (Await fut s k) w'.

(** The bytes the writer has put out so far, in order: those handed to
    a transport, then those still queued for one. *)
Definition emitted (w : PayloadWriter) : bytes :=
  wire (trace w) ++ join (_buffer w).

End PayloadWriter.

(** For stating what [write] puts out: the chunk as the length block
    leaves it under a budget, and as the chunk block puts it out. *)
Definition clamp_to (budget : option Z) (c : bytes) : bytes :=
  match budget with
  | Some L => if (L >=? len c)%Z then c else slice_to L c
  | None => c
  end.

Definition framed_if (chunking : bool) (c : bytes) : bytes :=
  match c with
  | [] => []
  | _ => if chunking then chunk_frame c else c
  end.

(** A compression object for running the writer on examples: it keeps no
    state and hands its input back as it is. *)
Definition stored_compress (z : ()) (chunk : bytes) : () * bytes := (z, chunk).
Definition stored_flush (z : ()) : () * bytes := (z, []).

End http_message.

(* ================================================================== *)
(** ** aiohttp/web_urldispatcher.py *)
(* ================================================================== *)

Module web_urldispatcher.

(** *** Strings *)

(** [s.startswith(p)] *)
Fixpoint startswith (p s : string) : bool :=
  match p, s with
  | EmptyString, _ => true
  | String a p', String b s' => if decide (a = b) then startswith p' s' else false
  | String _ _, EmptyString => false
  end.

(** [s[n:]] for [n >= 0] *)
Fixpoint drop_prefix (n : nat) (s : string) : string :=
  match n, s with
  | O, _ => s
  | S n', String _ s' => drop_prefix n' s'
  | S _, EmptyString => EmptyString
  end.

(** [s.endswith(c)] for a one-character [c] *)
Fixpoint endswith_char (c : ascii) (s : string) : bool :=
  match s with
  | EmptyString => false
  | String a EmptyString => bool_decide (a = c)
  | String _ s' => endswith_char c s'
  end.

(** [c in s] for a one-character [c] *)
Fixpoint contains_char (c : ascii) (s : string) : bool :=
  match s with
  | EmptyString => false
  | String a s' => if decide (a = c) then true else contains_char c s'
  end.

(** Modelled from the spec: [upstr] of [aiohttp.multidict], which the
    [multidict.py] of [src/] does not define; the spec has the
    case-insensitive names upper-cased, and [upstr(s)] is [s.upper()],
    here on ASCII text. *)
Definition upstr (s : string) : string := multidict.upper s.

(** *** Names of resources *)

(** [NAME_SPLIT_RE = re.compile('[.:-]')] and its [split]: the name is
    cut at every dot, colon and dash; two separators in a row, or one at
    an end, leave an empty part. *)
Definition is_name_separator (c : ascii) : bool :=
  bool_decide (c = "."%char ∨ c = ":"%char ∨ c = "-"%char).

Fixpoint NAME_SPLIT_RE_split_from (part : string) (s : string) : list string :=
  match s with
  | EmptyString => [part]
  | String c s' =>
      if is_name_separator c
      then part :: NAME_SPLIT_RE_split_from EmptyString s'
      else NAME_SPLIT_RE_split_from (part +:+ String c EmptyString) s'
  end.

Definition NAME_SPLIT_RE_split (name : string) : list string :=
  NAME_SPLIT_RE_split_from EmptyString name.

(** [str.isidentifier()] on ASCII text: a letter or an underscore, then
    letters, digits and underscores. *)
Definition is_id_start (c : ascii) : bool :=
  let n := nat_of_ascii c in
  (Nat.leb 65 n && Nat.leb n 90) || (Nat.leb 97 n && Nat.leb n 122)
  || Nat.eqb n 95.

Definition is_id_continue (c : ascii) : bool :=
  let n := nat_of_ascii c in
  is_id_start c || (Nat.leb 48 n && Nat.leb n 57).

Fixpoint all_id_continue (s : string) : bool :=
  match s with
  | EmptyString => true
  | String c s' => is_id_continue c && all_id_continue s'
  end.

Definition isidentifier (s : string) : bool :=
  match s with
  | EmptyString => false
  | String c s' => is_id_start c && all_id_continue s'
  end.

(** [keyword.kwlist] of Python 3.5. *)
Definition kwlist : list string :=
  ["False"; "None"; "True"; "and"; "as"; "assert"; "break"; "class";
   "continue"; "def"; "del"; "elif"; "else"; "except"; "finally"; "for";
   "from"; "global"; "if"; "import"; "in"; "is"; "lambda"; "nonlocal";
   "not"; "or"; "pass"; "raise"; "return"; "try"; "while"; "with"; "yield"].

Definition iskeyword (s : string) : bool := bool_decide (s ∈ kwlist).

(** The test of the loop in [_reg_resource], on every part. *)
Definition name_parts_ok (name : string) : bool :=
  forallb (λ part, isidentifier part && negb (iskeyword part))
          (NAME_SPLIT_RE_split name).

(** *** Exceptions *)

Inductive ValueErrorMessage : Type :=
  | Incorrect_route_name (name : string)
  | Duplicate_name (name : string)
  | Path_should_be_started_with_slash
  | Invalid_path (path part : string)
  | Bad_pattern (pattern error : string)
  | Not_allowed_HTTP_method (method : string)
  | No_directory_exists_at (directory : string).

Inductive Exn : Type :=
  | ValueError (message : ValueErrorMessage)
  | AssertionError
  | AttributeError (attribute : string)
  | NameError (name : string)
  | TypeError
  | KeyError (key : string)
  | HTTPNotFound
  | HTTPNotModified
  | OSError (errno : nat)
  | CancelledError.

(** Modelled from the spec: the method names of [aiohttp.hdrs], which is
    not under [src/]; [METH_ANY] is the ANY wildcard of the spec. *)
Definition METH_ANY : string := "*".
Definition METH_GET : string := "GET".

(** [UrlDispatcher.METHODS] *)
Definition METHODS : list string :=
  [METH_ANY; "POST"; METH_GET; "PUT"; "DELETE"; "PATCH"; "HEAD"; "OPTIONS"].

Section Dispatcher.
(** The handlers are functions of the application. *)
Context {Handler : Type}.

(** The [re] module, as far as this file uses it: a compiled pattern,
    [re.compile] on the assembled pattern (the error message when it does
    not compile), [pattern.match(path).groupdict()], [re.escape], and the
    four class-level patterns of [UrlDispatcher] through the one method
    each is used with. [unquote] and [urlencode] are those of
    [urllib.parse]. *)
Context {Pattern : Type}.
Variable re_compile : string → result string Pattern.
Variable Pattern_match : Pattern → string → option (list (string * string)).
Variable re_escape : string → string.
Variable ROUTE_RE_search : string → bool.
Variable ROUTE_RE_split : string → list string.
Variable DYN_match : string → option string.
Variable DYN_WITH_RE_match : string → option (string * string).
Variable unquote : string → string.
Variable urlencode : list (string * string) → string.

(** [UrlDispatcher.GOOD] *)
Definition GOOD : string := "[^{}/]+".

(** *** Resources *)

Inductive Resource : Type :=
  | PlainResource (name : option string) (path : string)
  | DynamicResource (name : option string) (pattern : Pattern)
      (formatter : string).

Definition Resource_name (r : Resource) : option string :=
  match r with
  | PlainResource name _ => name
  | DynamicResource name _ _ => name
  end.

(** [Resource._append_query] *)
Definition _append_query (url : string)
    (query : option (list (string * string))) : string :=
  match query with
  | Some q => url +:+ "?" +:+ urlencode q
  | None => url
  end.

(** [resource.match(path)]: the dictionary as the list of its items, or
    [None]. *)
Definition Resource_match (r : Resource) (path : string)
  : option (list (string * string)) :=
  match r with
  | PlainResource _ _path => if decide (_path = path) then Some [] else None
  | DynamicResource _ pattern _ =>
      match Pattern_match pattern path with
      | None => None
      | Some groupdict =>
          Some ((λ kv : string * string, (kv.1, unquote kv.2)) <$> groupdict)
      end
  end.

(** [PlainResource.url(query=...)] *)
Definition PlainResource_url (path : string)
    (query : option (list (string * string))) : string :=
  _append_query path query.

(** What is handed where a resource is expected: a resource, or the name
    (a string or [None]) that [StaticRoute] hands to [Route.__init__]. *)
Inductive Object : Type :=
  | a_resource (r : Resource)
  | a_name (name : option string).

(** *** Routes *)

Record Route : Type := mkRoute {
  Route_method : string;
  Route_handler : option Handler;
  Route_resource : Object
}.

(** What [resolve] returns. *)
Inductive MatchInfo : Type :=
  | UrlMappingMatchInfo (match_dict : list (string * string)) (route : Route)
  | _MethodNotAllowedMatchInfo (method : string)
      (allowed_methods : list string)
  | _NotFoundMatchInfo.

(** *** The dispatcher *)

Record UrlDispatcher : Type := mkUrlDispatcher {
  _resources : list Resource;
  _named_resources : gmap string Resource
}.

(** [UrlDispatcher()] *)
Definition UrlDispatcher_init : UrlDispatcher := mkUrlDispatcher [] ∅.

(** A method of the dispatcher: the dispatcher before, the dispatcher
    after, and what the call returns or raises. *)
Definition M (A : Type) : Type := UrlDispatcher → UrlDispatcher * result Exn A.

Definition ret {A} (a : A) : M A := λ d, (d, Ok a).
Definition raise {A} (e : Exn) : M A := λ d, (d, Raise e).
Definition bind {A B} (m : M A) (f : A → M B) : M B :=
  λ d, match m d with
       | (d', Ok a) => f a d'
       | (d', Raise e) => (d', Raise e)
       end.

(** [_reg_resource(resource)], assertions being on. *)
Definition _reg_resource (resource : Object) : M () :=
  λ d,
    match resource with
    | a_name _ => (d, Raise AssertionError)
    | a_resource r =>
        match Resource_name r with
        | Some name =>
            if negb (name_parts_ok name)
            then (d, Raise (ValueError (Incorrect_route_name name)))
            else if decide (is_Some (_named_resources d !! name))
            then (d, Raise (ValueError (Duplicate_name name)))
            else
              let d := mkUrlDispatcher (_resources d)
                         (<[name := r]> (_named_resources d)) in
              (mkUrlDispatcher (_resources d ++ [r]) (_named_resources d),
               Ok ())
        | None =>
            (mkUrlDispatcher (_resources d ++ [r]) (_named_resources d),
             Ok ())
        end
    end.

(** [register_route(route)] *)
Definition register_route (route : Route) : M () :=
  _reg_resource (Route_resource route).

(** The names [resolve] reads without binding them are looked up in the
    module: [route] is one, and the module binds no such name (the
    [route] attributes of the two system match infos are class
    attributes, out of the scope of a method of another class). *)
Definition module_scope : gmap string Route := ∅.

(** The [for ... else] of [resolve], in a scope that may bind [route]. *)
Fixpoint resolve_loop (scope : gmap string Route) (resources : list Resource)
    (path method : string) (allowed_methods : list string)
  : result Exn MatchInfo :=
  match resources with
  | [] =>
      match allowed_methods with
      | [] => Ok _NotFoundMatchInfo
      | _ => Ok (_MethodNotAllowedMatchInfo method allowed_methods)
      end
  | resource :: resources' =>
      match Resource_match resource path with
      | None => resolve_loop scope resources' path method allowed_methods
      | Some match_dict =>
          match scope !! "route" with
          | None => Raise (NameError "route")
          | Some route =>
              let route_method := Route_method route in
              if decide (route_method = method ∨ route_method = METH_ANY)
              then Ok (UrlMappingMatchInfo match_dict route)
              else resolve_loop scope resources' path method
                     (if decide (route_method ∈ allowed_methods)
                      then allowed_methods
                      else allowed_methods ++ [route_method])
          end
      end
  end.

(** [resolve(request)], the request being its raw path and its method. *)
Definition resolve (raw_path method : string) (d : UrlDispatcher)
  : result Exn MatchInfo :=
  resolve_loop module_scope (_resources d) raw_path method [].

(** [len(router)], [name in router], [router[name]] *)
Definition __len__ (d : UrlDispatcher) : nat := size (_named_resources d).
Definition __contains__ (name : string) (d : UrlDispatcher) : bool :=
  bool_decide (is_Some (_named_resources d !! name)).
Definition __getitem__ (name : string) (d : UrlDispatcher)
  : result Exn Resource :=
  match _named_resources d !! name with
  | Some r => Ok r
  | None => Raise (KeyError name)
  end.

(** The attributes of [UrlDispatcher] that take a resource and register
    it: the class defines [_reg_resource]; it defines no
    [register_resource], and neither of its bases does. *)
Definition getattr_registrar (attribute : string)
  : result Exn (Object → M ()) :=
  if decide (attribute = "_reg_resource") then Ok _reg_resource
  else Raise (AttributeError attribute).

(** The loop of [add_resource] over the parts of the path. *)
Fixpoint add_resource_parts (path : string) (parts : list string)
    (pattern formatter : string) : result Exn (string * string) :=
  match parts with
  | [] => Ok (pattern, formatter)
  | part :: parts' =>
      match DYN_match part with
      | Some var =>
          add_resource_parts path parts'
            (pattern +:+ "(?P<" +:+ var +:+ ">" +:+ GOOD +:+ ")")
            (formatter +:+ "{" +:+ var +:+ "}")
      | None =>
          match DYN_WITH_RE_match part with
          | Some (var, re) =>
              add_resource_parts path parts'
                (pattern +:+ "(?P<" +:+ var +:+ ">" +:+ re +:+ ")")
                (formatter +:+ "{" +:+ var +:+ "}")
          | None =>
              if contains_char "{" part || contains_char "}" part
              then Raise (ValueError (Invalid_path path part))
              else add_resource_parts path parts'
                     (pattern +:+ re_escape part) (formatter +:+ part)
          end
      end
  end.

(** [add_resource(path, name=...)] *)
Definition add_resource (path : string) (name : option string)
  : M Resource :=
  if negb (startswith "/" path)
  then raise (ValueError Path_should_be_started_with_slash)
  else if negb (contains_char "{" path || contains_char "}" path
                || ROUTE_RE_search path)
  then
    let resource := PlainResource name path in
    match getattr_registrar "_reg_resource" with
    | Ok register => bind (register (a_resource resource))
                          (λ _, ret resource)
    | Raise e => raise e
    end
  else
    match add_resource_parts path (ROUTE_RE_split path)
            EmptyString EmptyString with
    | Raise e => raise e
    | Ok (pattern, formatter) =>
        match re_compile ("^" +:+ pattern +:+ "$") with
        | Raise exc => raise (ValueError (Bad_pattern pattern exc))
        | Ok compiled =>
            let resource := DynamicResource name compiled formatter in
            match getattr_registrar "register_resource" with
            | Ok register => bind (register (a_resource resource))
                                  (λ _, ret resource)
            | Raise e => raise e
            end
        end
    end.

(** [add_route(method, path, handler, name=...)]; the handler is callable
    and stands for the coroutine that is made of it when it is not one. *)
Definition add_route (method path : string) (handler : Handler)
    (name : option string) : M Route :=
  let method := upstr method in
  if negb (bool_decide (method ∈ METHODS))
  then raise (ValueError (Not_allowed_HTTP_method method))
  else bind (add_resource path name)
            (λ resource,
               ret (mkRoute method (Some handler) (a_resource resource))).

(** The name table is consistent with the list when every resource it
    holds is in the list and carries the name it is filed under. *)
Definition consistent (d : UrlDispatcher) : Prop :=
  ∀ name r, _named_resources d !! name = Some r →
            r ∈ _resources d ∧ Resource_name r = Some name.

End Dispatcher.

(** *** Static files *)

Abbreviation bytes := (list byte).

(** [os.sep], on a POSIX system. *)
Definition os_sep : string := "/".

(** [os.stat(path)] as far as [handle] reads it; times are in seconds. *)
Record stat_result : Type := mk_stat_result {
  st_mtime : Q;
  st_size : nat
}.

(** [bool(x)] for [x] a string or [None]. *)
Definition truthy (x : option string) : bool :=
  match x with
  | Some (String _ _) => true
  | _ => false
  end.

(** The two implementations of [_sendfile]. *)
Inductive Sendfile : Type :=
  | sendfile_system
  | sendfile_fallback.

(** One call of [os.sendfile(out_fd, in_fd, offset, count)]: the number of
    bytes it sent, [BlockingIOError] or [InterruptedError], or any other
    exception. *)
Inductive sendfile_outcome : Type :=
  | sendfile_sent (n : nat)
  | sendfile_blocked
  | sendfile_raised (errno : nat).

(** What the body of a response is sent with: the calls on the response,
    on the event loop, on the operating system and on the future of
    [_sendfile_system], in the order they are made. *)
Inductive BodyEvent : Type :=
  | resp_write (chunk : bytes)
  | resp_drain
  | loop_remove_writer
  | loop_add_writer (offset count : nat)
  | os_sendfile (offset count : nat) (outcome : sendfile_outcome)
  | fut_set_result
  | fut_set_exception (errno : nat).

(** The calls [handle] makes on the response and on the file. *)
Inductive ResponseEvent : Type :=
  | response_factory
  | set_content_type (ct : string)
  | set_header (name value : string)
  | set_last_modified (mtime : Q)
  | set_content_length (n : nat)
  | set_tcp_cork (value : bool)
  | set_tcp_nodelay (value : bool)
  | resp_prepare
  | open_rb (filepath : string)
  | close_file (filepath : string)
  | body (e : BodyEvent).

(** The future [_sendfile_system] waits for. *)
Inductive FutureState : Type :=
  | fut_pending
  | fut_done
  | fut_failed (errno : nat).

(** A coroutine run as far as the event loop takes it: finished, with what
    it returns or raises, or still waiting. *)
Inductive Run : Type :=
  | finished (r : result Exn ())
  | suspended.

(** What [yield from] gives on a coroutine of the response: the coroutine
    returns, it raises (an error of the connection, or the
    [CancelledError] of a task cancelled while it waits), or the wait is
    not over when the run is looked at. *)
Inductive Awaited : Type :=
  | await_returns
  | await_raises (e : Exn)
  | await_pending.

(** The request, as far as [StaticRoute] reads it. *)
Record Request : Type := mkRequest {
  match_info : list (string * string);
  if_modified_since : option Q;
  sslcontext : bool
}.

Definition CONTENT_ENCODING : string := "CONTENT-ENCODING".

(** [d[key]] on the items of a dict. *)
Fixpoint dict_getitem (key : string) (d : list (string * string))
  : result Exn string :=
  match d with
  | [] => Raise (KeyError key)
  | (k, v) :: d' => if decide (k = key) then Ok v else dict_getitem key d'
  end.

(** The loop [while filename.startswith('/'): filename = filename[1:]]. *)
Fixpoint strip_leading_slashes (filename : string) : string :=
  match filename with
  | String c filename' =>
      if decide (c = "/"%char) then strip_leading_slashes filename'
      else filename
  | EmptyString => filename
  end.

Record StaticRoute : Type := mkStaticRoute {
  _name : option string;
  _prefix : string;
  _prefix_len : nat;
  _directory : string;
  _chunk_size : nat;
  _sendfile_attribute : option Sendfile
}.

(** [StaticRoute.match(path)] *)
Definition StaticRoute_match (self : StaticRoute) (path : string)
  : option (list (string * string)) :=
  if negb (startswith (_prefix self) path) then None
  else Some [("filename", drop_prefix (_prefix_len self) path)].

(** [_sendfile_cb(fut, out_fd, in_fd, offset, count, loop, registered)],
    [outcome] being what [os.sendfile] does when called: the calls made,
    and the arguments of the callback it registers, if it registers
    one. *)
Definition _sendfile_cb (outcome : sendfile_outcome)
    (offset count : nat) (registered : bool)
  : list BodyEvent * option (nat * nat) :=
  let removed := if registered then [loop_remove_writer] else [] in
  let called := removed ++ [os_sendfile offset count outcome] in
  let continue (n : nat) :=
    if Nat.ltb n count
    then (called ++ [loop_add_writer (offset + n) (count - n)],
          Some (offset + n, count - n))
    else (called ++ [fut_set_result], None) in
  match outcome with
  | sendfile_sent n => continue (if Nat.eqb n 0 then count else n)
  | sendfile_blocked => continue 0
  | sendfile_raised exc => (called ++ [fut_set_exception exc], None)
  end.

(** The state of the future after the calls made so far. *)
Definition future_after (events : list BodyEvent) : FutureState :=
  foldl (λ state e,
           match e with
           | fut_set_result => fut_done
           | fut_set_exception exc => fut_failed exc
           | _ => state
           end) fut_pending events.

(** The first call of [_sendfile_cb], made by [_sendfile_system], and the
    calls the event loop makes of the callback it finds registered, one
    for each time the socket becomes writable: [socket] is what
    [os.sendfile] does at the first call and [later] at the following
    ones. *)
Fixpoint sendfile_calls (socket : sendfile_outcome)
    (later : list sendfile_outcome) (offset count : nat) (registered : bool)
  : list BodyEvent :=
  let '(events, writer) := _sendfile_cb socket offset count registered in
  match writer, later with
  | Some (offset', count'), socket' :: later' =>
      events ++ sendfile_calls socket' later' offset' count' true
  | _, _ => events
  end.

(** [resp.write(chunk)] and [yield from resp.drain()], [rest] being what
    the coroutine does once the drain has returned. *)
Definition write_and_drain (chunk : bytes) (drain : Awaited)
    (rest : list BodyEvent * Run) : list BodyEvent * Run :=
  match drain with
  | await_returns => (resp_write chunk :: resp_drain :: rest.1, rest.2)
  | await_raises e => ([resp_write chunk; resp_drain], finished (Raise e))
  | await_pending => ([resp_write chunk; resp_drain], suspended)
  end.

(** The loop of [_sendfile_fallback]: [fobj] is what is left of the file
    to read, [chunk] what the last [read] gave, [drained n] what the
    [n]-th drain of the response gives when awaited. Each turn takes
    [chunk_size], which is positive when [chunk] is not empty, off
    [count]; the turns are therefore at most [count], which [turns]
    starts from. *)
Fixpoint _sendfile_fallback_loop (turns : nat) (chunk_size : nat)
    (drained : nat → Awaited) (n : nat)
    (fobj chunk : bytes) (count : nat) : list BodyEvent * Run :=
  let last :=
    match chunk with
    | [] => ([], finished (Ok ()))
    | _ => write_and_drain (take count chunk) (drained n)
             ([], finished (Ok ()))
    end in
  match turns with
  | O => last
  | S turns' =>
      match chunk with
      | [] => last
      | _ =>
          if Nat.ltb chunk_size count
          then write_and_drain chunk (drained n)
                 (_sendfile_fallback_loop turns' chunk_size drained (S n)
                    (drop chunk_size fobj) (take chunk_size fobj)
                    (count - chunk_size))
          else last
      end
  end.

(** [_sendfile_fallback(req, resp, fobj, count)], [fobj] being the bytes
    of the file from its current position and [n] the number of drains
    awaited before. *)
Definition _sendfile_fallback (chunk_size : nat) (drained : nat → Awaited)
    (n : nat) (fobj : bytes) (count : nat) : list BodyEvent * Run :=
  _sendfile_fallback_loop count chunk_size drained n
    (drop chunk_size fobj) (take chunk_size fobj) count.

(** [_sendfile_system(req, resp, fobj, count)]. [thrown] is what is thrown
    into the coroutine while it waits for a future that is still pending:
    the [CancelledError] of a cancelled task, or nothing. *)
Definition _sendfile_system (chunk_size : nat) (drained : nat → Awaited)
    (thrown : option Exn) (req : Request)
    (fobj : bytes) (count : nat)
    (socket : sendfile_outcome) (later : list sendfile_outcome)
  : list BodyEvent * Run :=
  if sslcontext req
  then _sendfile_fallback chunk_size drained 0 fobj count
  else
    match drained 0 with
    | await_raises e => ([resp_drain], finished (Raise e))
    | await_pending => ([resp_drain], suspended)
    | await_returns =>
        let events :=
          resp_drain :: sendfile_calls socket later 0 count false in
        (events,
         match future_after events with
         | fut_pending =>
             match thrown with
             | Some e => finished (Raise e)
             | None => suspended
             end
         | fut_done => finished (Ok ())
         | fut_failed exc => finished (Raise (OSError exc))
         end)
    end.

(** The bytes written to the response, in order. *)
Fixpoint written (events : list BodyEvent) : bytes :=
  match events with
  | [] => []
  | resp_write chunk :: events' => chunk ++ written events'
  | _ :: events' => written events'
  end.

(** Whether a writer is registered with the event loop after the calls. *)
Definition writer_registered (events : list BodyEvent) : bool :=
  foldl (λ registered e,
           match e with
           | loop_add_writer _ _ => true
           | loop_remove_writer => false
           | _ => registered
           end) false events.

(** The calls that only set an attribute or a header of the response. *)
Definition is_attribute_event (e : ResponseEvent) : bool :=
  match e with
  | response_factory | set_content_type _ | set_header _ _
  | set_last_modified _ | set_content_length _ => true
  | _ => false
  end.

(** The calls that open the file, send the body and close the file. *)
Definition is_file_event (e : ResponseEvent) : bool :=
  match e with
  | open_rb _ | close_file _ | body _ => true
  | _ => false
  end.

(** The calls that send the body, among those of [handle]. *)
Definition body_events (events : list ResponseEvent) : list BodyEvent :=
  omap (λ e, match e with body b => Some b | _ => None end) events.

Section StaticFiles.
Context {Handler Pattern : Type}.

(** The operating system and the [mimetypes] module: [os.path.abspath],
    [os.path.join], [os.path.isdir], [os.path.exists], [os.path.isfile],
    [os.stat], [os.environ.get], whether [os] has [sendfile],
    [mimetypes.guess_type], and [open(path, 'rb')], which gives the bytes
    of the file or raises. The response is the [StreamResponse] of
    [web_reqrep]: its setters and [write] return; its coroutines
    [prepare] and [drain] are awaited, and what the wait gives is an
    argument of [handle]. *)
Variable abspath : string → string.
Variable path_join : string → string → string.
Variable isdir : string → bool.
Variable exists_ : string → bool.
Variable isfile : string → bool.
Variable stat : string → stat_result.
Variable environ_get : string → option string.
Variable hasattr_os_sendfile : bool.
Variable guess_type : string → option string * option string.
Variable open_ : string → result Exn bytes.
Variable urlencode : list (string * string) → string.

(** The coroutine [self.handle], as a handler of the application. *)
Variable bound_handle : StaticRoute → Handler.

(** [StaticRoute(name, prefix, directory, chunk_size=...)], assertions
    being on and the expect handler the default one. *)
Definition StaticRoute_init (name : option string) (prefix directory : string)
    (chunk_size : nat) : result Exn StaticRoute :=
  if negb (startswith "/" prefix) then Raise AssertionError
  else if negb (endswith_char "/" prefix) then Raise AssertionError
  else
    let directory := abspath directory +:+ os_sep in
    if negb (isdir directory)
    then Raise (ValueError (No_directory_exists_at directory))
    else Ok (mkStaticRoute name prefix (String.length prefix) directory
               chunk_size
               (if truthy (environ_get "AIOHTTP_NOSENDFILE")
                then Some sendfile_fallback else None)).

(** The route a [StaticRoute] is: [Route.__init__] is called with the
    method [GET], the handler [self.handle], and [name] where the
    resource goes. *)
Definition StaticRoute_as_Route (self : StaticRoute) : @Route Handler Pattern :=
  mkRoute METH_GET (Some (bound_handle self)) (a_name (_name self)).

(** [self._sendfile]: the attribute of the instance when [__init__] set
    one, that of the class otherwise. *)
Definition StaticRoute__sendfile (self : StaticRoute) : Sendfile :=
  match _sendfile_attribute self with
  | Some f => f
  | None => if hasattr_os_sendfile then sendfile_system else sendfile_fallback
  end.

(** [StaticRoute.url(filename=..., query=...)] *)
Definition StaticRoute_url (self : StaticRoute) (filename : string)
    (query : option (list (string * string))) : string :=
  _append_query urlencode (_prefix self +:+ strip_leading_slashes filename)
    query.

(** The [with open(filepath, 'rb') as f] block of [handle] and the call
    of [self._sendfile] in it. *)
Definition handle_send (self : StaticRoute) (request : Request)
    (filepath : string) (file_size : nat)
    (drained : nat → Awaited) (thrown : option Exn)
    (socket : sendfile_outcome) (later : list sendfile_outcome)
  : list ResponseEvent * Run :=
  match open_ filepath with
  | Raise e => ([open_rb filepath], finished (Raise e))
  | Ok f =>
      let '(events, run) :=
        match StaticRoute__sendfile self with
        | sendfile_system =>
            _sendfile_system (_chunk_size self) drained thrown request f
              file_size socket later
        | sendfile_fallback =>
            _sendfile_fallback (_chunk_size self) drained 0 f file_size
        end in
      (open_rb filepath :: (body <$> events)
         ++ match run with
            | finished _ => [close_file filepath]
            | suspended => []
            end,
       run)
  end.

(** [handle(request)]: the calls made on the response and on the file,
    and how far the coroutine gets. [prepared] is what
    [yield from resp.prepare(request)] gives, [drained n] what the [n]-th
    [yield from resp.drain()] gives, [socket] and [later] what
    [os.sendfile] does, and [thrown] what is thrown into the coroutine
    while it waits for the future of [_sendfile_system]. *)
Definition handle (self : StaticRoute) (request : Request)
    (prepared : Awaited) (drained : nat → Awaited) (thrown : option Exn)
    (socket : sendfile_outcome) (later : list sendfile_outcome)
  : list ResponseEvent * Run :=
  match dict_getitem "filename" (match_info request) with
  | Raise e => ([], finished (Raise e))
  | Ok filename =>
      let filepath := abspath (path_join (_directory self) filename) in
      if negb (startswith (_directory self) filepath)
      then ([], finished (Raise HTTPNotFound))
      else if negb (exists_ filepath) || negb (isfile filepath)
      then ([], finished (Raise HTTPNotFound))
      else
        let st := stat filepath in
        let modsince := if_modified_since request in
        if match modsince with
           | Some timestamp => Qle_bool (st_mtime st) timestamp
           | None => false
           end
        then ([], finished (Raise HTTPNotModified))
        else
          let '(ct, encoding) := guess_type filepath in
          let ct := if truthy ct then default EmptyString ct
                    else "application/octet-stream" in
          let file_size := st_size st in
          let before :=
            [response_factory; set_content_type ct]
            ++ (if truthy encoding
                then [set_header CONTENT_ENCODING (default EmptyString encoding)]
                else [])
            ++ [set_last_modified (st_mtime st);
                set_content_length file_size;
                set_tcp_cork true] in
          let '(events, run) :=
            match prepared with
            | await_raises e => ([resp_prepare], finished (Raise e))
            | await_pending => ([resp_prepare], suspended)
            | await_returns =>
                let '(events, run) :=
                  handle_send self request filepath file_size drained thrown
                    socket later in
                (resp_prepare :: events, run)
            end in
          (before ++ events
             ++ match run with
                | finished _ => [set_tcp_nodelay true]
                | suspended => []
                end,
           run)
  end.

(** [add_static(prefix, path, name=..., chunk_size=...)] *)
Definition add_static (prefix path : string) (name : option string)
    (chunk_size : nat) : @M Pattern StaticRoute :=
  if negb (startswith "/" prefix) then raise AssertionError
  else
    let prefix := if negb (endswith_char "/" prefix)
                  then prefix +:+ "/" else prefix in
    match StaticRoute_init name prefix path chunk_size with
    | Raise e => raise e
    | Ok route =>
        bind (register_route (StaticRoute_as_Route route))
             (λ _, ret route)
    end.

End StaticFiles.

(** A stand-in for the [re] module on the examples that compile no
    pattern: nothing matches, nothing compiles. *)
Definition no_compile (pattern : string) : result string () :=
  Raise "unsupported".
Definition no_match (pattern : ()) (path : string)
  : option (list (string * string)) := None.
Definition no_search (path : string) : bool := false.
Definition one_part (path : string) : list string := [path].
Definition no_var (part : string) : option string := None.
Definition no_var_re (part : string) : option (string * string) := None.
Definition as_is (s : string) : string := s.

(** The [re] module on the template [/users/{id}]: [ROUTE_RE] finds the
    variable and splits the path around it, [DYN] gives its name, and the
    assembled pattern compiles; a compiled pattern is kept as its text. *)
Definition users_search (path : string) : bool :=
  bool_decide (path = "/users/{id}").
Definition users_split (path : string) : list string :=
  if decide (path = "/users/{id}") then ["/users/"; "{id}"; EmptyString]
  else [path].
Definition users_var (part : string) : option string :=
  if decide (part = "{id}") then Some "id" else None.
Definition users_compile (pattern : string) : result string string :=
  Ok pattern.

(** A small file system for the examples: the directory [/srv/www/] with
    the one file [/srv/www/index.html], of seven bytes and modification
    time 100; paths are joined by concatenation and are absolute
    already. *)
Definition www_join (directory filename : string) : string :=
  directory +:+ filename.
Definition www_isdir (path : string) : bool :=
  bool_decide (path = "/srv/www/").
Definition www_isfile (path : string) : bool :=
  bool_decide (path = "/srv/www/index.html").
Definition www_index : bytes :=
  [x3c; x70; x3e; x68; x69; x21; x0a].
Definition www_stat (path : string) : stat_result :=
  mk_stat_result 100 7.
Definition www_open (path : string) : result Exn bytes :=
  if www_isfile path then Ok www_index else Raise (OSError 2).
Definition www_environ (name : string) : option string := None.
Definition www_guess_type (path : string) : option string * option string :=
  (Some "text/html", None).
Definition www_urlencode (query : list (string * string)) : string :=
  EmptyString.
(** A file system where every path exists and is a file, and where
    [abspath] resolves the one path of the examples that climbs out of
    [/srv/www/]. *)
Definition etc_abspath (path : string) : string :=
  if decide (path = "/srv/www/../../etc/passwd") then "/etc/passwd"
  else path.
Definition etc_exists (path : string) : bool := true.
Definition www_route : StaticRoute :=
  mkStaticRoute None "/static/" 8 "/srv/www/" 4 None.
Definition www_request (filename : string) (modsince : option Q) : Request :=
  mkRequest [("filename", filename)] modsince false.
(** Every drain returns; the second drain finds the connection lost. *)
Definition www_drained (n : nat) : Awaited := await_returns.
Definition www_drained_once (n : nat) : Awaited :=
  if Nat.eqb n 1 then await_raises (OSError 104) else await_returns.

End web_urldispatcher.

(* ================================================================== *)
(** * Properties *)
(* ================================================================== *)

(** ** multidict *)

Section MultiDictFacts.
Import multidict.
Context {K V : Type} `{EqDecision K}.
Implicit Types (items pairs : list (K * V)) (key k : K) (v : V).

Abbreviation other_than key := (λ kv : K * V, kv.1 ≠ key).

Lemma extend_appends pairs items :
  extend pairs items = (items ++ pairs, Ok ()).
Proof.
  revert items. induction pairs as [|[k v] pairs IH]; intros items; simpl.
  - by rewrite app_nil_r.
  - unfold bind, add. rewrite IH. by rewrite <- app_assoc.
Qed.

Lemma MultiDict_init_items pairs : MultiDict_init pairs = pairs.
Proof. reflexivity. Qed.

Lemma contains_app key items1 items2 :
  __contains__ key (items1 ++ items2)
  = __contains__ key items1 || __contains__ key items2.
Proof.
  induction items1 as [|[k v] items1 IH]; simpl; [done|].
  by destruct (decide (k = key)).
Qed.

Lemma contains_elem_of key items :
  __contains__ key items = true ↔ key ∈ items.*1.
Proof.
  induction items as [|[k v] items IH]; simpl.
  - split; [done | by intros ?%elem_of_nil].
  - destruct (decide (k = key)) as [->|Hne].
    + split; [intros _; left | done].
    + rewrite IH. split; [by right | ].
      intros [?|?]%elem_of_cons; [congruence | done].
Qed.

(** The downward loop never indexes out of range, and leaves the pairs
    with another key where they were. *)
Lemma delitem_loop_spec key pre suf found :
  delitem_loop key (rev (seq 0 (length pre))) found (pre ++ suf)
  = (filter (other_than key) pre ++ suf,
     Ok (found || __contains__ key pre)).
Proof.
  revert suf found.
  induction pre as [|[k v] pre IH] using rev_ind; intros suf found.
  - simpl. by rewrite orb_false_r.
  - rewrite length_app, Nat.add_1_r, seq_S, rev_unit. simpl.
    rewrite <- app_assoc. simpl.
    rewrite list_lookup_middle by done.
    rewrite filter_app, contains_app. simpl.
    destruct (decide (k = key)) as [->|Hne].
    + rewrite delete_middle, IH. simpl.
      rewrite filter_cons_False by (intros Hk; by apply Hk).
      by rewrite filter_nil, app_nil_r, !orb_true_r.
    + rewrite IH, filter_cons_True by done.
      by rewrite filter_nil, <- app_assoc, !orb_false_r.
Qed.

Lemma delitem_spec key items :
  __delitem__ key items
  = (filter (other_than key) items,
     if __contains__ key items then Ok () else Raise (KeyError key)).
Proof.
  unfold __delitem__, bind.
  rewrite <- (app_nil_r items) at 2.
  rewrite delitem_loop_spec, app_nil_r. simpl.
  by destruct (__contains__ key items).
Qed.

Lemma setitem_spec key v items :
  __setitem__ key v items
  = (filter (other_than key) items ++ [(key, v)], Ok ()).
Proof.
  unfold __setitem__, bind, except_KeyError_pass.
  rewrite delitem_spec. by destruct (__contains__ key items).
Qed.

Lemma filter_key_other key items :
  filter (λ kv : K * V, kv.1 = key) (filter (other_than key) items) = [].
Proof.
  induction items as [|[k v] items IH]; [done|].
  destruct (decide (k = key)) as [->|Hne].
  - by rewrite (filter_cons_False (other_than key)) by (intros Hk; by apply Hk).
  - rewrite (filter_cons_True (other_than key)) by done.
    by rewrite filter_cons_False.
Qed.

(** C10: [m[k] = v] succeeds on every map, whether [k] is present or
    not; afterwards [getall(k)] is exactly [(v,)], the pair [(k, v)] is
    the last one, and the pairs with another key are the same pairs in
    the same order as before. *)
Theorem setitem_replaces_by_key items k v :
  ∃ items',
    __setitem__ k v items = (items', Ok ()) ∧
    getall k items' = Ok [v] ∧
    last items' = Some (k, v) ∧
    filter (other_than k) items' = filter (other_than k) items ∧
    items' = filter (other_than k) items ++ [(k, v)].
Proof.
  exists (filter (other_than k) items ++ [(k, v)]).
  split; [apply setitem_spec|]. repeat split.
  - unfold getall. rewrite filter_app, filter_key_other. simpl.
    by rewrite filter_cons_True.
  - apply last_snoc.
  - rewrite filter_app, list_filter_filter.
    rewrite filter_cons_False by (intros Hk; by apply Hk).
    rewrite filter_nil, app_nil_r.
    apply list_filter_iff. tauto.
Qed.

(** *** The items view *)

Lemma first_pair_loop_acc key items acc :
  first_pair_loop key items acc = acc ++ first_pair_loop key items [].
Proof.
  induction items as [|[k v] items IH]; simpl.
  - by rewrite app_nil_r.
  - by destruct (decide (k = key)).
Qed.

Lemma first_pair_loop_found key items :
  key ∈ items.*1 →
  ∃ kv, first_pair_loop key items [] = [kv] ∧ kv.1 = key ∧
        first_inserted items kv.
Proof.
  induction items as [|[k v] items IH]; simpl.
  - by intros ?%elem_of_nil.
  - intros Hin. destruct (decide (k = key)) as [->|Hne].
    + exists (key, v). repeat split. exists 0. split; [done|]. lia.
    + apply elem_of_cons in Hin as [?|Hin]; [congruence|].
      destruct (IH Hin) as (kv & Hloop & Hkey & i & Hi & Hfirst).
      exists kv. repeat split; [done..|].
      exists (S i). split; [done|].
      intros [|j] kv' Hj Hlook; simpl in Hlook.
      * injection Hlook as <-. simpl. congruence.
      * apply (Hfirst j); [lia | done].
Qed.

Lemma fold_first_pair_loop items keys acc :
  (∀ k, k ∈ keys → k ∈ items.*1) →
  ∃ l, fold_left (λ acc key, first_pair_loop key items acc) keys acc
       = acc ++ l ∧
       l.*1 = keys ∧
       ∀ kv, kv ∈ l → first_inserted items kv.
Proof.
  revert acc. induction keys as [|key keys IH]; intros acc Hin; simpl.
  - exists []. rewrite app_nil_r. repeat split. by intros ? ?%elem_of_nil.
  - destruct (first_pair_loop_found key items) as (kv & Hloop & Hkey & Hfst).
    { apply Hin. left. }
    destruct (IH (first_pair_loop key items acc)) as (l & Hfold & Hkeys & Hl).
    { intros k ?. apply Hin. by right. }
    exists (kv :: l). rewrite Hfold, first_pair_loop_acc, Hloop.
    rewrite <- app_assoc. repeat split.
    + by rewrite fmap_cons, Hkey, Hkeys.
    + intros kv' [->|?]%elem_of_cons; auto.
Qed.

Section SetOrder.
Variable set_iter : list K → list K.
Hypothesis set_iter_NoDup : ∀ keys, NoDup (set_iter keys).
Hypothesis set_iter_elem_of : ∀ keys k, k ∈ set_iter keys ↔ k ∈ keys.

Lemma items_all_spec items :
  items_list set_iter true items = Ok items.
Proof.
  unfold items_list, multidict.items, _ItemsView_init.
  rewrite decide_True; [done|]. by rewrite length_fmap.
Qed.

Lemma items_unique_spec items :
  ∃ l, items_list set_iter false items = Ok l ∧
       l.*1 = set_iter items.*1 ∧
       ∀ kv, kv ∈ l → first_inserted items kv.
Proof.
  destruct (fold_first_pair_loop items (set_iter items.*1) [])
    as (l & Hfold & Hkeys & Hl).
  { intros k. apply set_iter_elem_of. }
  exists l. unfold items_list, multidict.items, _ItemsView_init.
  rewrite Hfold. simpl. rewrite decide_True; [done|].
  by rewrite <- Hkeys, length_fmap.
Qed.

(** C9: after a sequence of pairs is inserted into a map (handed to
    the constructor, or added one by one), [items(getall=True)] lists
    exactly those pairs in insertion order, duplicates included, and
    [items()] lists one pair per distinct key, each the first-inserted
    pair of its key. The assertion of the view never fails. *)
Theorem items_views_of_inserted_pairs pairs (m : list (K * V)) :
  m = MultiDict_init pairs ∨ m = (extend pairs (MultiDict_init [])).1 →
  items_list set_iter true m = Ok pairs ∧
  ∃ l, items_list set_iter false m = Ok l ∧
       NoDup l.*1 ∧
       (∀ k, k ∈ l.*1 ↔ k ∈ pairs.*1) ∧
       (∀ kv, kv ∈ l → first_inserted pairs kv).
Proof.
  intros Hm.
  assert (m = pairs) as ->.
  { destruct Hm as [->| ->]; [done|]. by rewrite extend_appends. }
  split; [apply items_all_spec|].
  destruct (items_unique_spec pairs) as (l & Hl & Hkeys & Hfirst).
  exists l. rewrite Hkeys. auto.
Qed.
End SetOrder.

End MultiDictFacts.

(** The theorem at three pairs, two of them under one key, with a set that
    iterates the key inserted second before the key inserted first. *)
Lemma items_views_of_inserted_pairs_witness :
  multidict.items_list (λ keys : list nat, remove_dups keys) true
    [(1, "a"); (2, "b"); (1, "c")]
  = Ok [(1, "a"); (2, "b"); (1, "c")] ∧
  ∃ l, multidict.items_list (λ keys : list nat, remove_dups keys) false
         [(1, "a"); (2, "b"); (1, "c")] = Ok l ∧
       NoDup l.*1 ∧
       (∀ k, k ∈ l.*1 ↔ k ∈ [(1, "a"); (2, "b"); (1, "c")].*1) ∧
       (∀ kv, kv ∈ l →
              multidict.first_inserted [(1, "a"); (2, "b"); (1, "c")] kv).
Proof.
  apply (items_views_of_inserted_pairs
           (λ keys : list nat, remove_dups keys)).
  - intros keys. apply NoDup_remove_dups.
  - intros keys k. apply elem_of_remove_dups.
  - left. reflexivity.
Defined.

Example items_unique_run :
  multidict.items_list (λ keys : list nat, remove_dups keys) false
    [(1, "a"); (2, "b"); (1, "c")]
  = Ok [(2, "b"); (1, "a")].
Proof. reflexivity. Qed.

Example setitem_run :
  multidict.__setitem__ 1 "z" [(1, "a"); (2, "b"); (1, "c")]
  = ([(2, "b"); (1, "z")], Ok ()).
Proof. reflexivity. Qed.

Example setitem_absent_run :
  multidict.__setitem__ 3 "z" [(1, "a"); (2, "b")]
  = ([(1, "a"); (2, "b"); (3, "z")], Ok ()).
Proof. reflexivity. Qed.

Example delitem_absent_run :
  multidict.__delitem__ 3 [(1, "a"); (2, "b")]
  = ([(1, "a"); (2, "b")], Raise (multidict.KeyError 3)).
Proof. reflexivity. Qed.

(** ** multidict: lookups, deletion, the case-insensitive classes *)

Section MultiDictLookups.
Import multidict.
Context {K V : Type} `{EqDecision K}.
Implicit Types (items : list (K * V)) (key k : K) (v : V).

Abbreviation values_under key items :=
  ((λ kv : K * V, kv.2) <$> filter (λ kv : K * V, kv.1 = key) items).

Lemma values_under_nil key items :
  values_under key items = [] ↔ __contains__ key items = false.
Proof.
  induction items as [|[k v] items IH]; simpl; [done|].
  destruct (decide (k = key)) as [->|Hne].
  - rewrite filter_cons_True by done. simpl. split; discriminate.
  - by rewrite filter_cons_False.
Qed.

Lemma values_under_head key items v0 vs :
  values_under key items = v0 :: vs → __getitem__ key items = Ok v0.
Proof.
  induction items as [|[k v] items IH]; simpl; [done|].
  destruct (decide (k = key)) as [->|Hne].
  - rewrite filter_cons_True by done. simpl. by intros [= ->].
  - by rewrite filter_cons_False.
Qed.

Lemma getitem_absent key items :
  __contains__ key items = false → __getitem__ key items = Raise (KeyError key).
Proof.
  induction items as [|[k v] items IH]; simpl; [done|].
  by destruct (decide (k = key)).
Qed.

(** The three lookups agree on every map: either the key is absent,
    [key in m] is false and both [m.getall(key)] and [m[key]] raise
    [KeyError]; or [getall] gives a non-empty tuple, in insertion order,
    whose first value is [m[key]], and [key in m] is true. *)
Theorem lookups_agree key items :
  match getall key items with
  | Ok vs =>
      vs = values_under key items ∧
      ∃ v0 rest, vs = v0 :: rest ∧
                 __getitem__ key items = Ok v0 ∧
                 __contains__ key items = true
  | Raise e =>
      e = KeyError key ∧
      __getitem__ key items = Raise (KeyError key) ∧
      __contains__ key items = false ∧
      ∀ default, getall_default key default items = default
  end.
Proof.
  unfold getall_default, getall.
  destruct (values_under key items) as [|v0 vs] eqn:Hvals.
  - apply values_under_nil in Hvals.
    repeat split; [by apply getitem_absent | done].
  - split; [done|]. exists v0, vs. repeat split.
    + by apply values_under_head in Hvals.
    + destruct (__contains__ key items) eqn:Hc; [done|].
      apply values_under_nil in Hc. congruence.
Qed.

(** [getone] gives the value when exactly one pair has the key; it raises
    [KeyError] when none has, a default being given or not; with several
    values it raises too, unless the default is the very tuple of those
    values, and then it gives the first. *)
Theorem getone_cases `{EqDecision V} key default items :
  getone key default items
  = match values_under key items with
    | [] => Raise (Key_not_found key)
    | [v] => Ok v
    | v :: rest =>
        match default with
        | default_tuple d =>
            if decide (d = v :: rest) then Ok v
            else Raise (Multiple_values_match key (v :: rest))
        | _ => Raise (Multiple_values_match key (v :: rest))
        end
    end.
Proof.
  unfold getone, getall.
  destruct (values_under key items) as [|v [|v' rest]]; [done| |].
  - by destruct default.
  - destruct default as [|d|]; simpl; [done| |done].
    destruct (decide (d = v :: v' :: rest)) as [->|Hne].
    + by rewrite bool_decide_false by (intros Hd; by apply Hd).
    + rewrite bool_decide_true; [done|]. congruence.
Qed.

(** [del m[key]] takes every pair with the key out and keeps the others
    in their order; it raises [KeyError] exactly when the key is absent,
    and then the map is what it was; it never indexes out of range. *)
Theorem delitem_removes_key key items :
  ∃ items' r,
    __delitem__ key items = (items', r) ∧
    items' = filter (λ kv : K * V, kv.1 ≠ key) items ∧
    __contains__ key items' = false ∧
    (r = Ok () ↔ key ∈ items.*1) ∧
    (r = Raise (KeyError key) ↔ key ∉ items.*1) ∧
    (key ∉ items.*1 → items' = items).
Proof.
  rewrite delitem_spec. eexists _, _. split; [done|].
  split; [done|]. split; [|split; [|split]].
  - destruct (__contains__ key (filter _ items)) eqn:Hc; [|done].
    apply contains_elem_of in Hc.
    apply list_elem_of_fmap in Hc as ([k v] & -> & Hin).
    apply list_elem_of_filter in Hin as [Hne _]. done.
  - rewrite <- contains_elem_of. by destruct (__contains__ key items).
  - rewrite <- contains_elem_of. destruct (__contains__ key items); split;
      try done.
  - rewrite <- contains_elem_of. intros Hnot.
    induction items as [|[k v] items IH]; [done|]. simpl in Hnot.
    destruct (decide (k = key)) as [->|Hne]; [done|].
    rewrite filter_cons_True by done. f_equal. by apply IH.
Qed.

(** [add] keeps what was there: afterwards [getall(key)] is the values
    the key had, then the new one; another key's values are the same;
    the map is one pair longer. *)
Theorem add_then_getall key v items :
  let items' := (add key v items).1 in
  getall key items' = Ok (values_under key items ++ [v]) ∧
  (∀ k, k ≠ key → getall k items' = getall k items) ∧
  __len__ items' = S (__len__ items).
Proof.
  simpl. unfold getall, __len__. repeat split.
  - rewrite filter_app, fmap_app, filter_cons_True by done. simpl.
    by destruct (values_under key items).
  - intros k Hne. rewrite filter_app, filter_cons_False by (simpl; congruence).
    by rewrite filter_nil, app_nil_r.
  - rewrite length_app. simpl. lia.
Qed.

End MultiDictLookups.

Section MultiDictViews.
Import multidict.
Context {K V : Type} `{EqDecision K}.
Variable set_iter : list K → list K.
Hypothesis set_iter_NoDup : ∀ keys, NoDup (set_iter keys).
Hypothesis set_iter_elem_of : ∀ keys k, k ∈ set_iter keys ↔ k ∈ keys.

(** The keys and values views: with [getall=True] they list the keys and
    the values of every pair in insertion order; [keys()] lists each key
    of the map once, [key in m.keys()] is [key in m], and [values()] has
    one value per distinct key, the first inserted under it. *)
Theorem keys_and_values_views (items : list (K * V)) :
  keys_list set_iter true items = Ok items.*1 ∧
  values_list set_iter true items = Ok items.*2 ∧
  ∃ ks vs,
    keys_list set_iter false items = Ok ks ∧
    values_list set_iter false items = Ok vs ∧
    NoDup ks ∧
    (∀ k, k ∈ ks ↔ __contains__ k items = true) ∧
    (∀ k, keys_contains set_iter false k items
          = Ok (__contains__ k items)) ∧
    length vs = length ks ∧
    ∀ i k v, ks !! i = Some k → vs !! i = Some v →
             __getitem__ k items = Ok v.
Proof.
  unfold keys_list, values_list, keys_contains.
  pose proof (items_all_spec set_iter items) as Hall.
  destruct (items_unique_spec set_iter set_iter_elem_of items)
    as (l & Hl & Hkeys & Hfirst).
  unfold items_list, multidict.items, ItemsView_iter in Hall, Hl.
  destruct (_ItemsView_init set_iter items true) as [view|] eqn:Hview;
    [|done].
  injection Hall as Hall.
  assert (_keys view = items.*1) as Hk.
  { unfold _ItemsView_init in Hview.
    destruct (decide _) in Hview; [|done]. by injection Hview as <-. }
  rewrite Hall, Hk. split; [done|]. split; [done|].
  destruct (_ItemsView_init set_iter items false) as [view'|] eqn:Hview';
    [|done].
  injection Hl as Hl.
  assert (_keys view' = set_iter items.*1) as Hk'.
  { unfold _ItemsView_init in Hview'.
    destruct (decide _) in Hview'; [|done]. by injection Hview' as <-. }
  exists (_keys view'), (_mapping view').*2. rewrite Hl, Hk'.
  repeat split; try done.
  - intros Hin. apply (proj1 (set_iter_elem_of _ _)) in Hin.
    by apply contains_elem_of.
  - intros Hin. apply (proj1 (contains_elem_of _ _)) in Hin.
    by apply set_iter_elem_of.
  - intros k. f_equal. destruct (__contains__ k items) eqn:Hc.
    + apply bool_decide_eq_true.
      apply (proj1 (contains_elem_of _ _)) in Hc. by apply set_iter_elem_of.
    + apply bool_decide_eq_false. intros Hin.
      apply (proj1 (set_iter_elem_of _ _)) in Hin.
      apply (proj2 (contains_elem_of _ _)) in Hin. congruence.
  - by rewrite <- Hkeys, !length_fmap.
  - intros i k v Hi Hv. rewrite <- Hkeys in Hi.
    rewrite list_lookup_fmap in Hi. rewrite list_lookup_fmap in Hv.
    destruct (l !! i) as [[k' v']|] eqn:Hli; [|done].
    simpl in Hi, Hv. injection Hi as ->. injection Hv as ->.
    destruct (Hfirst (k, v)) as (j & Hj & Hbefore).
    { by eapply list_elem_of_lookup_2. }
    clear -Hj Hbefore. revert j Hj Hbefore.
    induction items as [|[k0 v0] items IH]; intros j Hj Hbefore; [done|].
    simpl. destruct j as [|j]; simpl in Hj.
    + injection Hj as -> ->. by rewrite decide_True.
    + rewrite decide_False.
      * apply (IH j Hj). intros j' kv' Hlt Hlook.
        apply (Hbefore (S j') kv'); [lia | done].
      * intros ->. by apply (Hbefore 0 (k, v0)); [lia | done | ].
Qed.

End MultiDictViews.

(** The views at three pairs, two of them under one key. *)
Lemma keys_and_values_views_witness :
  multidict.keys_list (λ keys : list nat, remove_dups keys) true
    [(1, "a"); (2, "b"); (1, "c")] = Ok [(1, "a"); (2, "b"); (1, "c")].*1.
Proof.
  apply (keys_and_values_views (λ keys : list nat, remove_dups keys)).
  - intros keys. apply NoDup_remove_dups.
  - intros keys k. apply elem_of_remove_dups.
Defined.

Section CaseInsensitiveFacts.
Import multidict.
Context {V : Type}.
Implicit Types (items : list (string * V)) (key k : string) (v : V).

Lemma upper_char_idemp c : upper_char (upper_char c) = upper_char c.
Proof.
  destruct c as [[] [] [] [] [] [] [] []]; vm_compute; reflexivity.
Qed.

Lemma upper_idemp key : upper (upper key) = upper key.
Proof.
  induction key as [|c key IH]; simpl; [done|].
  by rewrite upper_char_idemp, IH.
Qed.

Lemma canonical_filter (P : string * V → Prop) `{∀ kv, Decision (P kv)} items :
  canonical items → canonical (filter P items).
Proof.
  unfold canonical. rewrite !Forall_forall. intros Hall kv Hin.
  apply list_elem_of_filter in Hin as [_ Hin]. by apply Hall.
Qed.

Lemma ci_fill_spec pairs items :
  ci_fill pairs items
  = (items ++ ((λ kv : string * V, (upper kv.1, kv.2)) <$> pairs), Ok ()).
Proof.
  revert items. induction pairs as [|[k v] pairs IH]; intros items; simpl.
  - by rewrite app_nil_r.
  - by rewrite IH, <- app_assoc.
Qed.

(** Insertion and lookup fold case alike: a value added under one
    spelling of a key is the last value [getall] gives under any other
    spelling, behind the values the key had, and [in] finds the key. *)
Theorem ci_add_then_lookup k k' v items :
  upper k = upper k' →
  let items' := (ci_add k v items).1 in
  ci_getall k' items'
  = Ok (((λ kv : string * V, kv.2)
           <$> filter (λ kv : string * V, kv.1 = upper k) items) ++ [v]) ∧
  ci___contains__ k' items' = true.
Proof.
  intros Hk. unfold ci_add, ci_getall, ci___contains__. rewrite <- Hk.
  unfold add. simpl. split.
  - unfold getall. rewrite filter_app, fmap_app, filter_cons_True by done.
    simpl. by destruct (_ <$> filter _ items).
  - rewrite contains_app. simpl. rewrite decide_True by done.
    apply orb_true_r.
Qed.

(** The case-insensitive map stores upper-case keys only: the constructor
    makes such a map, and [add], [m[k] = v] and [del m[k]] keep it so. *)
Theorem ci_keys_stay_canonical :
  (∀ pairs : list (string * V),
     canonical (CaseInsensitiveMultiDict_init pairs)) ∧
  (∀ k v items,
     canonical items →
     canonical (ci_add k v items).1 ∧
     canonical (ci___setitem__ k v items).1 ∧
     canonical (ci___delitem__ k items).1).
Proof.
  split.
  - intros pairs. unfold canonical, CaseInsensitiveMultiDict_init.
    rewrite ci_fill_spec. simpl. apply Forall_fmap, Forall_forall.
    intros [k v] _. simpl. apply upper_idemp.
  - intros k v items Hitems.
    unfold ci_add, ci___setitem__, ci___delitem__.
    rewrite setitem_spec, delitem_spec. simpl. repeat split.
    + apply Forall_app. split; [done|].
      apply Forall_singleton. apply upper_idemp.
    + apply Forall_app. split; [by apply canonical_filter|].
      apply Forall_singleton. apply upper_idemp.
    + by apply canonical_filter.
Qed.

End CaseInsensitiveFacts.

(** Folding case at the header name of the specification. *)
Lemma ci_add_then_lookup_witness :
  multidict.ci_getall "content-type"
    (multidict.ci_add "Content-Type" "a" []).1 = Ok ["a"] ∧
  multidict.ci___contains__ "content-type"
    (multidict.ci_add "Content-Type" "a" []).1 = true.
Proof.
  apply (ci_add_then_lookup "Content-Type" "content-type" "a" []).
  reflexivity.
Defined.

Lemma ci_keys_stay_canonical_witness :
  multidict.canonical (multidict.ci_add "Content-Type" "a" [("HOST", "b")]).1.
Proof.
  apply (proj2 ci_keys_stay_canonical "Content-Type" "a" [("HOST", "b")]).
  apply Forall_singleton. reflexivity.
Defined.

(** ** http_message *)

Section HexFacts.
Import http_message.
#[local] Open Scope Z_scope.

Lemma hex_digit_value_digit d :
  0 ≤ d < 16 → hex_digit_value (hex_digit d) = Some d.
Proof.
  intros Hd.
  assert (d = 0 ∨ d = 1 ∨ d = 2 ∨ d = 3 ∨ d = 4 ∨ d = 5 ∨ d = 6 ∨ d = 7 ∨
          d = 8 ∨ d = 9 ∨ d = 10 ∨ d = 11 ∨ d = 12 ∨ d = 13 ∨ d = 14 ∨
          d = 15) as Hcases by lia.
  repeat (destruct Hcases as [->|Hcases]; [reflexivity|]).
  by subst.
Qed.

Lemma hex_value_from_snoc s c acc :
  hex_value_from acc (s +:+ String c EmptyString)
  = match hex_value_from acc s with
    | Some a =>
        match hex_digit_value c with
        | Some d => Some (16 * a + d)
        | None => None
        end
    | None => None
    end.
Proof.
  revert acc. induction s as [|c' s IH]; intros acc; simpl.
  - by destruct (hex_digit_value c).
  - destruct (hex_digit_value c'); [apply IH | done].
Qed.

Lemma hex_loop_value fuel n :
  0 ≤ n < 16 ^ Z.of_nat (S fuel) →
  hex_loop (S fuel) n ≠ EmptyString ∧
  hex_value_from 0 (hex_loop (S fuel) n) = Some n.
Proof.
  revert n. induction fuel as [|fuel IH]; intros n Hn.
  - assert (n < 16) as Hlt by (simpl in Hn; lia).
    simpl. destruct (Z.ltb_spec n 16); [|lia].
    split; [done|]. simpl. rewrite hex_digit_value_digit by lia.
    f_equal; lia.
  - change (hex_loop (S (S fuel)) n)
      with (if n <? 16 then String (hex_digit n) EmptyString
            else hex_loop (S fuel) (n / 16)
                 +:+ String (hex_digit (n mod 16)) EmptyString).
    destruct (Z.ltb_spec n 16) as [Hlt|Hge].
    + split; [done|]. simpl. rewrite hex_digit_value_digit by lia.
      f_equal; lia.
    + destruct (IH (n / 16)) as [Hne Hval].
      { rewrite (Nat2Z.inj_succ (S fuel)), Z.pow_succ_r in Hn by lia.
        split; [apply Z.div_pos; lia | apply Z.div_lt_upper_bound; lia]. }
      split.
      * destruct (hex_loop (S fuel) (n / 16)); [done | discriminate].
      * rewrite hex_value_from_snoc, Hval.
        rewrite hex_digit_value_digit by (apply Z.mod_pos_bound; lia).
        f_equal. symmetry. apply Z.div_mod. lia.
Qed.

(** ['%x' % n] reads back as [n]: the digits are those of [n] in base
    sixteen, most significant first. *)
Lemma hex_value_hex n : 0 ≤ n → hex_value (hex n) = Some n.
Proof.
  intros Hn. unfold hex. destruct (Z.ltb_spec n 0) as [?|_]; [lia|].
  destruct (hex_loop_value (Z.to_nat (Z.log2 n)) n) as [Hne Hval].
  { split; [done|]. rewrite Nat2Z.inj_succ, Z2Nat.id by apply Z.log2_nonneg.
    destruct (decide (n = 0)) as [->|?]; [done|].
    apply Z.lt_le_trans with (2 ^ Z.succ (Z.log2 n)).
    - apply Z.log2_spec. lia.
    - apply Z.pow_le_mono_l. lia. }
  unfold hex_value.
  by destruct (hex_loop (S (Z.to_nat (Z.log2 n))) n).
Qed.

End HexFacts.

Example hex_run :
  http_message.hex 0 = "0" ∧ http_message.hex 2 = "2" ∧
  http_message.hex 255 = "ff" ∧ http_message.hex 65536 = "10000".
Proof. repeat split. Qed.

Section PayloadWriterFacts.
Import http_message.
Context {zobj : Type}.
Variable compress : zobj → bytes → zobj * bytes.
Variable flush : zobj → zobj * bytes.
Implicit Types (w : @PayloadWriter zobj) (b chunk : bytes).

Abbreviation write := (http_message.write compress).
Abbreviation write_eof := (http_message.write_eof compress flush).

Lemma wire_app t1 t2 : wire (t1 ++ t2) = wire t1 ++ wire t2.
Proof.
  induction t1 as [|e t1 IH]; [done|].
  destruct e; simpl; rewrite ?IH, <- ?app_assoc; done.
Qed.

Lemma join_snoc (buffer : list bytes) chunk :
  join (buffer ++ [chunk]) = join buffer ++ chunk.
Proof. unfold join. rewrite concat_app. simpl. by rewrite app_nil_r. Qed.

(** [_write] puts exactly [chunk] out, behind everything put out
    before, whether a transport is attached or not. *)
Lemma emitted__write chunk w :
  emitted (_write chunk w) = emitted w ++ chunk.
Proof.
  unfold emitted, _write. simpl.
  destruct (_transport w) as [t|]; simpl;
    destruct (_buffer w) as [|c0 buffer] eqn:Hbuf; simpl;
    rewrite ?Hbuf, ?wire_app; simpl; rewrite ?app_nil_r; try done.
  - change (c0 ++ concat (buffer ++ [chunk]))
      with (join ((c0 :: buffer) ++ [chunk])).
    rewrite join_snoc. simpl. by rewrite <- !app_assoc.
  - change (c0 ++ concat (buffer ++ [chunk]))
      with (join ((c0 :: buffer) ++ [chunk])).
    rewrite join_snoc. simpl. by rewrite <- !app_assoc.
Qed.

Lemma _write_fields chunk w :
  length (_write chunk w) = length w ∧
  chunked (_write chunk w) = chunked w ∧
  _eof (_write chunk w) = _eof w ∧
  _compress (_write chunk w) = _compress w ∧
  _transport (_write chunk w) = _transport w ∧
  _drain_waiter (_write chunk w) = _drain_waiter w.
Proof.
  unfold _write. simpl.
  destruct (_transport w) eqn:Ht; [destruct (_buffer w)|]; simpl;
    by repeat split.
Qed.

Lemma chunk_frame_nonempty chunk : chunk_frame chunk ≠ [].
Proof.
  unfold chunk_frame, CRLF. intros Hnil.
  apply app_eq_nil in Hnil as [_ Hnil].
  apply app_eq_nil in Hnil as [_ Hnil]. done.
Qed.

Lemma encode_ascii_app s1 s2 :
  encode_ascii (s1 +:+ s2) = encode_ascii s1 ++ encode_ascii s2.
Proof.
  unfold encode_ascii, list_byte_of_string.
  rewrite <- map_app. f_equal.
  induction s1 as [|c s1 IH]; simpl; [done | by rewrite IH].
Qed.

Lemma chunk_frame_spelled chunk :
  chunk_frame chunk = encode_ascii (hex (len chunk)) ++ CRLF ++ chunk ++ CRLF.
Proof. unfold chunk_frame. by rewrite encode_ascii_app, <- app_assoc. Qed.

Lemma write_compress_block_None chunk w :
  _compress w = None →
  write_compress_block compress chunk w = (w, Some chunk).
Proof. unfold write_compress_block. by intros ->. Qed.

(** The last block puts the chunk out, framed when chunking is on, and
    touches nothing else that the claims are about. *)
Lemma write_chunk_block_spec chunk drain LIMIT w :
  chunk ≠ [] →
  let w' := (write_chunk_block chunk drain LIMIT w).1 in
  emitted w' = emitted w
               ++ (if chunked w then chunk_frame chunk else chunk) ∧
  length w' = length w ∧ chunked w' = chunked w ∧ _eof w' = _eof w ∧
  _compress w' = _compress w ∧ _transport w' = _transport w.
Proof.
  intros Hne. unfold write_chunk_block.
  destruct chunk as [|c0 chunk]; [done|].
  set (frame := if chunked w then _ else _). cbv zeta.
  destruct (_write_fields frame w) as (Hl & Hc & He & Hcz & Ht & _).
  pose proof (emitted__write frame w) as Hem.
  destruct ((buffer_size (_write frame w) >? LIMIT)%Z && drain)%bool;
    unfold emitted in *; simpl; by repeat split.
Qed.

(** What [write] does without compression, when the budget, if there is
    one, covers the chunk. *)
Lemma write_within_budget b drain LIMIT w :
  _compress w = None →
  b ≠ [] →
  match length w with Some L => (len b ≤ L)%Z | None => True end →
  let w' := (write b drain LIMIT w).1 in
  emitted w' = emitted w ++ (if chunked w then chunk_frame b else b) ∧
  length w' = (λ L, L - len b)%Z <$> length w ∧
  chunked w' = chunked w ∧ _eof w' = _eof w ∧
  _compress w' = None ∧ _transport w' = _transport w.
Proof.
  intros Hz Hb Hbudget. unfold http_message.write.
  rewrite write_compress_block_None by done.
  unfold write_length_block.
  destruct (length w) as [L|] eqn:HL.
  - destruct (Z.geb_spec L (len b)) as [_|?]; [|lia].
    destruct (write_chunk_block_spec b drain LIMIT
                (set_length (Some (L - len b)%Z) w) Hb)
      as (Hem & Hl & Hc & He & Hcz & Ht).
    cbv zeta in *. rewrite Hem, Hl, Hc, He, Hcz, Ht. simpl.
    by repeat split.
  - destruct (write_chunk_block_spec b drain LIMIT w Hb)
      as (Hem & Hl & Hc & He & Hcz & Ht).
    cbv zeta in *. rewrite Hem, Hl, Hc, He, Hcz, Ht, HL. simpl.
    by repeat split.
Qed.

(** *** [drain] and [write_eof] *)

Lemma drain_attached last w t :
  _transport w = Some t →
  ∃ s : @PayloadWriter zobj, drain last w = Return () s ∧
       trace s = trace w
                 ++ match _buffer w with
                    | [] => []
                    | _ => [TransportWrite t (join (_buffer w))]
                    end
                 ++ [StreamDrain].
Proof.
  intros Ht. unfold drain. rewrite Ht. eexists. split; [reflexivity|].
  destruct (_buffer w); [done|]. destruct last; simpl;
    by rewrite <- app_assoc.
Qed.

Lemma drain_unattached last w :
  _transport w = None →
  ∃ fut (s : @PayloadWriter zobj), drain last w = Await fut s (λ w', Return () w') ∧
           _drain_waiter s = Some fut ∧ _buffer s = _buffer w ∧
           trace s = trace w.
Proof.
  intros Ht. unfold drain. rewrite Ht.
  destruct (_drain_waiter w) as [fut|] eqn:Hw; simpl.
  - rewrite Hw. by exists fut, w.
  - by eexists _, _.
Qed.

Lemma write_eof_chunk_fields chunk w :
  let w' := (write_eof_chunk compress flush chunk w).1 in
  _transport w' = _transport w ∧ _buffer w' = _buffer w ∧
  trace w' = trace w ∧ _eof w' = _eof w.
Proof.
  unfold write_eof_chunk. destruct (_compress w) as [z|].
  - destruct chunk; [|destruct (compress z _)]; destruct (flush _); done.
  - destruct (chunked w); [destruct chunk|]; done.
Qed.

Lemma buffer_data_fields chunk w :
  _transport (buffer_data chunk w) = _transport w ∧
  trace (buffer_data chunk w) = trace w ∧
  _buffer (buffer_data chunk w)
  = _buffer w ++ match chunk with [] => [] | _ => [chunk] end.
Proof. destruct chunk; simpl; by rewrite ?app_nil_r. Qed.

Abbreviation before_drain := (http_message.before_drain compress flush).

Lemma write_eof_unfold chunk w :
  _eof w = false →
  write_eof chunk w
  = and_then (drain true (before_drain chunk w)) write_eof_finish.
Proof. unfold http_message.write_eof. by intros ->. Qed.

Lemma before_drain_fields chunk w :
  _transport (before_drain chunk w) = _transport w ∧
  trace (before_drain chunk w) = trace w ∧
  _buffer (before_drain chunk w)
  = _buffer w
    ++ match (write_eof_chunk compress flush chunk w).2 with
       | [] => []
       | c => [c]
       end.
Proof.
  unfold http_message.before_drain.
  pose proof (write_eof_chunk_fields chunk w) as (Ht & Hb & Htr & _).
  destruct (write_eof_chunk compress flush chunk w) as [w1 c]. simpl in *.
  destruct c as [|c0 c]; [by rewrite app_nil_r|].
  destruct (buffer_data_fields (c0 :: c) w1) as (-> & -> & ->).
  by rewrite Ht, Hb, Htr.
Qed.

Lemma write_eof_finish_fields (s : @PayloadWriter zobj) :
  _eof (write_eof_finish s) = true ∧
  _transport (write_eof_finish s) = None ∧
  trace (write_eof_finish s) = trace s ++ [StreamRelease].
Proof. done. Qed.

Lemma write_eof_again chunk w :
  _eof w = true → write_eof chunk w = Return () w.
Proof. unfold http_message.write_eof. by intros ->. Qed.

Lemma write_eof_attached chunk w t :
  _eof w = false → _transport w = Some t →
  ∃ s : @PayloadWriter zobj, write_eof chunk w = Return () (write_eof_finish s) ∧
       trace s = trace w
                 ++ match _buffer (before_drain chunk w) with
                    | [] => []
                    | buffer => [TransportWrite t (join buffer)]
                    end
                 ++ [StreamDrain].
Proof.
  intros He Ht. rewrite write_eof_unfold by done.
  destruct (before_drain_fields chunk w) as (Ht' & Htr & _).
  destruct (drain_attached true (before_drain chunk w) t) as (s & -> & Hs).
  { congruence. }
  exists s. split; [done|]. rewrite Hs, Htr.
  by destruct (_buffer (before_drain chunk w)).
Qed.

Lemma write_eof_unattached chunk w :
  _eof w = false → _transport w = None →
  ∃ fut (s : @PayloadWriter zobj), write_eof chunk w
           = Await fut s (λ w', Return () (write_eof_finish w')) ∧
           _drain_waiter s = Some fut ∧
           _buffer s = _buffer (before_drain chunk w) ∧
           trace s = trace w.
Proof.
  intros He Ht. rewrite write_eof_unfold by done.
  destruct (before_drain_fields chunk w) as (Ht' & Htr & _).
  destruct (drain_unattached true (before_drain chunk w))
    as (fut & s & -> & Hw & Hb & Hs); [congruence|].
  exists fut, s. repeat split; [done..|]. by rewrite Hs.
Qed.

(** Attaching a transport flushes the queue and resolves the waiter. *)
Lemma set_transport_flushes t (s : @PayloadWriter zobj) fut :
  _drain_waiter s = Some fut →
  fut ∈ futures_done (set_transport t s) ∧
  wire (trace (set_transport t s)) = emitted s.
Proof.
  intros Hw. unfold set_transport, emitted. simpl.
  destruct (join (_buffer s)) as [|c0 c] eqn:Hj; simpl; rewrite Hw; simpl;
    destruct (decide (fut ∈ futures_done s)); simpl;
    rewrite ?wire_app; simpl; rewrite ?app_nil_r;
    (split; [first [done | by left] | done]).
Qed.

Lemma wake_after_set_transport chunk w t fut (s : @PayloadWriter zobj) :
  _drain_waiter s = Some fut →
  wake (Await fut s (λ w', Return () (write_eof_finish w')))
       (set_transport t s)
  = Return () (write_eof_finish (set_transport t s)).
Proof.
  intros Hw. unfold wake.
  destruct (set_transport_flushes t s fut Hw) as [Hdone _].
  by rewrite decide_True.
Qed.

(** Finalizing a chunked, uncompressed body with no trailing bytes puts
    [0 CRLF CRLF] on the wire behind everything written before: at once
    when a transport is attached, and as soon as one is attached
    otherwise. *)
Lemma finalize_chunked w :
  chunked w = true → _compress w = None → _eof w = false →
  (∀ t, _transport w = Some t →
        ∃ w2, write_eof [] w = Return () w2 ∧
              wire (trace w2) = emitted w ++ LAST_CHUNK) ∧
  (_transport w = None →
   ∃ fut s k, write_eof [] w = Await fut s k ∧
     ∀ t, ∃ w2, wake (Await fut s k) (set_transport t s) = Return () w2 ∧
                wire (trace w2) = emitted w ++ LAST_CHUNK).
Proof.
  intros Hc Hz He.
  assert (_buffer (before_drain [] w) = _buffer w ++ [LAST_CHUNK]) as Hbuf.
  { destruct (before_drain_fields [] w) as (_ & _ & ->).
    unfold write_eof_chunk. by rewrite Hz, Hc. }
  split.
  - intros t Ht.
    destruct (write_eof_attached [] w t He Ht) as (s & -> & Hs).
    eexists. split; [done|].
    destruct (write_eof_finish_fields s) as (_ & _ & ->).
    rewrite Hs, Hbuf.
    destruct (_buffer w ++ [LAST_CHUNK]) as [|c0 buffer] eqn:Hq.
    { by apply app_eq_nil in Hq as [_ ?]. }
    rewrite <- Hq, !wire_app, join_snoc. simpl.
    unfold emitted. by rewrite !app_nil_r, app_assoc.
  - intros Ht.
    destruct (write_eof_unattached [] w He Ht) as (fut & s & -> & Hw & Hb & Hs).
    eexists _, _, _. split; [done|]. intros t.
    rewrite (wake_after_set_transport [] w) by done.
    eexists. split; [done|].
    destruct (write_eof_finish_fields (set_transport t s)) as (_ & _ & ->).
    destruct (set_transport_flushes t s fut Hw) as [_ Hwire].
    rewrite wire_app, Hwire. unfold emitted.
    rewrite Hs, Hb, Hbuf, join_snoc. simpl.
    by rewrite !app_nil_r, app_assoc.
Qed.

(** C2: with chunking on and no compression, a write of a non-empty [b]
    puts out the hexadecimal length of [b], CRLF, [b], CRLF and nothing
    else; finalizing puts out [0 CRLF CRLF]; writing [b"hi"] to a fresh
    chunked writer and finalizing it puts exactly
    [32 0d 0a 68 69 0d 0a 30 0d 0a 0d 0a] on the wire. *)
Theorem chunked_write_then_finalize :
  (∀ b drain LIMIT w,
     chunked w = true → _compress w = None → _eof w = false →
     b ≠ [] →
     match length w with Some L => (len b ≤ L)%Z | None => True end →
     let w1 := (write b drain LIMIT w).1 in
     emitted w1
     = emitted w ++ encode_ascii (hex (len b)) ++ CRLF ++ b ++ CRLF ∧
     (∀ t, _transport w = Some t →
           ∃ w2, write_eof [] w1 = Return () w2 ∧
                 wire (trace w2) = emitted w1 ++ LAST_CHUNK) ∧
     (_transport w = None →
      ∃ fut s k, write_eof [] w1 = Await fut s k ∧
        ∀ t, ∃ w2,
          wake (Await fut s k) (set_transport t s) = Return () w2 ∧
          wire (trace w2) = emitted w1 ++ LAST_CHUNK)) ∧
  (∀ t acquire,
     ∃ w2, write_eof []
             (write [x68; x69] true LIMIT_default
                (enable_chunking (__init__ true t acquire))).1
           = Return () w2 ∧
           wire (trace w2)
           = [x32; x0d; x0a; x68; x69; x0d; x0a;
              x30; x0d; x0a; x0d; x0a]) ∧
  (∀ t,
     ∃ fut s k,
       write_eof []
         (write [x68; x69] true LIMIT_default
            (enable_chunking (__init__ false t true))).1
       = Await fut s k ∧
       ∃ w2, wake (Await fut s k) (set_transport t s) = Return () w2 ∧
             wire (trace w2)
             = [x32; x0d; x0a; x68; x69; x0d; x0a;
                x30; x0d; x0a; x0d; x0a]).
Proof.
  split; [|split].
  - intros b drain LIMIT w Hc Hz He Hb Hbudget.
    destruct (write_within_budget b drain LIMIT w Hz Hb Hbudget)
      as (Hem & _ & Hc1 & He1 & Hz1 & Ht1).
    cbv zeta. split.
    + by rewrite Hem, Hc, chunk_frame_spelled.
    + rewrite <- Ht1. apply finalize_chunked; congruence.
  - intros t acquire.
    set (w1 := (write [x68; x69] true LIMIT_default
                  (enable_chunking (__init__ true t acquire))).1).
    destruct (finalize_chunked w1) as [Hattached _];
      [vm_compute; reflexivity..|].
    destruct (Hattached t) as (w2 & Heq & Hwire); [vm_compute; reflexivity|].
    exists w2. split; [exact Heq|]. rewrite Hwire. vm_compute. reflexivity.
  - intros t.
    set (w1 := (write [x68; x69] true LIMIT_default
                  (enable_chunking (__init__ false t true))).1).
    destruct (finalize_chunked w1) as [_ Hqueued];
      [vm_compute; reflexivity..|].
    destruct Hqueued as (fut & s & k & Heq & Hwake); [vm_compute; reflexivity|].
    exists fut, s, k. split; [exact Heq|].
    destruct (Hwake t) as (w2 & Hw2 & Hwire).
    exists w2. split; [exact Hw2|]. rewrite Hwire. vm_compute. reflexivity.
Qed.

(** *** The length budget *)

Lemma set_length_same L w : length w = Some L → set_length (Some L) w = w.
Proof. destruct w. simpl. by intros ->. Qed.

(** Once the budget is zero a write changes nothing at all. *)
Lemma write_budget_spent b drain LIMIT w :
  _compress w = None → length w = Some 0%Z →
  write b drain LIMIT w = (w, noop).
Proof.
  intros Hz HL. unfold http_message.write.
  rewrite write_compress_block_None by done.
  unfold write_length_block. rewrite HL.
  destruct b as [|b0 b].
  - simpl. by rewrite set_length_same.
  - destruct (Z.geb_spec 0 (len (b0 :: b))) as [Hge|_].
    { unfold len in Hge. simpl in Hge. lia. }
    simpl. by rewrite set_length_same.
Qed.

(** C4: without compression, a write of more bytes than the budget [L]
    has left puts out the first [L] bytes only (in a chunk frame when
    chunking is on) and leaves the budget at zero; from then on every
    write returns without putting anything out or changing the writer;
    with a budget of 3, writing [b"hello"] puts out [b"hel"]. *)
Theorem budget_truncates_then_stops :
  (∀ L b drain LIMIT w,
     _compress w = None → length w = Some L → (0 ≤ L < len b)%Z →
     let w1 := (write b drain LIMIT w).1 in
     emitted w1
     = emitted w
       ++ (if chunked w
           then match take (Z.to_nat L) b with
                | [] => []
                | payload => chunk_frame payload
                end
           else take (Z.to_nat L) b) ∧
     length w1 = Some 0%Z ∧
     ∀ b' drain' LIMIT', write b' drain' LIMIT' w1 = (w1, noop)) ∧
  (∀ b drain LIMIT w,
     _compress w = None → length w = Some 0%Z →
     write b drain LIMIT w = (w, noop)) ∧
  (∀ t acquire,
     let w0 := set_length (Some 3%Z) (__init__ true t acquire) in
     ∃ w1, write [x68; x65; x6c; x6c; x6f] true LIMIT_default w0
           = (w1, noop) ∧
           trace w1 = [TransportWrite t [x68; x65; x6c]] ∧
           _buffer w1 = [] ∧
           ∀ b' drain' LIMIT', write b' drain' LIMIT' w1 = (w1, noop)).
Proof.
  split; [|split].
  - intros L b drain LIMIT w Hz HL [HL0 HLb].
    assert (let w1 := (write b drain LIMIT w).1 in
            emitted w1
            = emitted w
              ++ (if chunked w
                  then match take (Z.to_nat L) b with
                       | [] => []
                       | payload => chunk_frame payload
                       end
                  else take (Z.to_nat L) b) ∧
            length w1 = Some 0%Z ∧ _compress w1 = None) as Hw1.
    { unfold http_message.write.
      rewrite write_compress_block_None by done.
      unfold write_length_block. rewrite HL.
      destruct (Z.geb_spec L (len b)) as [?|_]; [lia|].
      unfold slice_to. destruct (Z.leb_spec 0 L) as [_|?]; [|lia].
      destruct (take (Z.to_nat L) b) as [|p0 p] eqn:Hp.
      - simpl. unfold emitted. simpl.
        destruct (chunked w); by rewrite app_nil_r.
      - destruct (write_chunk_block_spec (p0 :: p) drain LIMIT
                    (set_length (Some 0%Z) w))
          as (Hem & Hl & _ & _ & Hcz & _); [done|].
        cbv zeta in *. rewrite Hem, Hl, Hcz. simpl.
        by destruct (chunked w). }
    cbv zeta in *. destruct Hw1 as (Hem & Hl & Hcz).
    repeat split; [done..|].
    intros b' drain' LIMIT'. by apply write_budget_spent.
  - intros b drain LIMIT w. apply write_budget_spent.
  - intros t acquire w0.
    exists (write [x68; x65; x6c; x6c; x6f] true LIMIT_default w0).1.
    split; [vm_compute; reflexivity|].
    split; [vm_compute; reflexivity|].
    split; [vm_compute; reflexivity|].
    intros b' drain' LIMIT'.
    apply write_budget_spent; vm_compute; reflexivity.
Qed.

(** *** Finalization *)

Lemma completes_Return_inv {A} (a : A) w w' :
  completes (Return a w) w' → w' = w.
Proof. by inversion 1. Qed.

Lemma completes_Await_inv {A} fut (s : @PayloadWriter zobj)
    (k : PayloadWriter → Coro PayloadWriter A) w' :
  completes (Await fut s k) w' →
  ∃ s', fut ∈ futures_done s' ∧ completes (k s') w'.
Proof. inversion 1; subst. eauto. Qed.

(** However [write_eof] reaches its end, its last statements are the
    three that finalize the writer. *)
Lemma write_eof_completes chunk w w' :
  _eof w = false →
  completes (write_eof chunk w) w' →
  ∃ s : @PayloadWriter zobj, w' = write_eof_finish s.
Proof.
  intros He Hrun. destruct (_transport w) as [t|] eqn:Ht.
  - destruct (write_eof_attached chunk w t He Ht) as (s & Heq & _).
    rewrite Heq in Hrun. apply completes_Return_inv in Hrun. eauto.
  - destruct (write_eof_unattached chunk w He Ht) as (fut & s & Heq & _).
    rewrite Heq in Hrun.
    apply completes_Await_inv in Hrun as (s' & _ & Hrun).
    apply completes_Return_inv in Hrun. eauto.
Qed.

(** C6: [write_eof] on a finalized writer returns at once, putting
    nothing out and changing nothing; a call on a writer that is not
    finalized completes (at once with a transport attached, and when one
    is attached otherwise), and when it has completed the writer is
    marked finalized, holds no transport, the stream has been released
    last, and every later call is such a no-op. *)
Theorem write_eof_idempotent chunk w :
  (_eof w = true → write_eof chunk w = Return () w) ∧
  (_eof w = false →
   (∀ t, _transport w = Some t →
         ∃ w', write_eof chunk w = Return () w') ∧
   (_transport w = None →
    ∃ fut s k, write_eof chunk w = Await fut s k ∧
      ∀ t, ∃ w', wake (Await fut s k) (set_transport t s)
                 = Return () w') ∧
   ∀ w', completes (write_eof chunk w) w' →
         _eof w' = true ∧ _transport w' = None ∧
         last (trace w') = Some StreamRelease ∧
         ∀ chunk', write_eof chunk' w' = Return () w').
Proof.
  split; [apply write_eof_again|]. intros He. repeat split.
  - intros t Ht.
    destruct (write_eof_attached chunk w t He Ht) as (s & -> & _). eauto.
  - intros Ht.
    destruct (write_eof_unattached chunk w He Ht) as (fut & s & -> & Hw & _).
    eexists _, _, _. split; [done|]. intros t.
    rewrite (wake_after_set_transport chunk w) by done. eauto.
  - destruct (write_eof_completes chunk w w') as [s ->]; done.
  - destruct (write_eof_completes chunk w w') as [s ->]; done.
  - destruct (write_eof_completes chunk w w') as [s ->]; [done..|].
    destruct (write_eof_finish_fields s) as (_ & _ & ->). apply last_snoc.
  - intros chunk'.
    destruct (write_eof_completes chunk w w') as [s ->]; [done..|].
    by apply write_eof_again.
Qed.

End PayloadWriterFacts.

(** The claim about chunking at the writer of an available stream, chunking
    enabled, and the chunk [b"hi"]. *)
Lemma chunked_write_then_finalize_witness :
  let w := http_message.enable_chunking (http_message.__init__ true 1 true) in
  let w1 := (http_message.write http_message.stored_compress
               [x68; x69] true http_message.LIMIT_default w).1 in
  http_message.emitted w1
  = http_message.emitted w
    ++ http_message.encode_ascii (http_message.hex (http_message.len [x68; x69]))
    ++ http_message.CRLF ++ [x68; x69] ++ http_message.CRLF ∧
  (∀ t, http_message._transport w = Some t →
        ∃ w2, http_message.write_eof http_message.stored_compress
                http_message.stored_flush [] w1
              = http_message.Return () w2 ∧
              http_message.wire (http_message.trace w2)
              = http_message.emitted w1 ++ http_message.LAST_CHUNK) ∧
  (http_message._transport w = None →
   ∃ fut s k,
     http_message.write_eof http_message.stored_compress
       http_message.stored_flush [] w1
     = http_message.Await fut s k ∧
     ∀ t, ∃ w2,
       http_message.wake (http_message.Await fut s k)
         (http_message.set_transport t s)
       = http_message.Return () w2 ∧
       http_message.wire (http_message.trace w2)
       = http_message.emitted w1 ++ http_message.LAST_CHUNK).
Proof.
  intros w.
  apply (proj1 (chunked_write_then_finalize http_message.stored_compress
                  http_message.stored_flush)
           [x68; x69] true http_message.LIMIT_default w);
    [reflexivity | reflexivity | reflexivity | discriminate | exact I].
Defined.

(** C2 as it is worded fails under a length budget: a chunked writer
    without compression and with a budget of one byte, asked to write
    [b"hi"], frames the one byte the budget leaves, [1 CRLF h CRLF], and
    not [2 CRLF hi CRLF]. *)
Lemma chunked_write_over_budget :
  let w := http_message.set_length (Some 1%Z)
             (http_message.enable_chunking
                (http_message.__init__ (zobj := ()) true 1 true)) in
  let w1 := (http_message.write http_message.stored_compress
               [x68; x69] true http_message.LIMIT_default w).1 in
  http_message.chunked w = true ∧
  http_message._compress w = None ∧
  http_message.emitted w1
  = http_message.emitted w ++ [x31; x0d; x0a; x68; x0d; x0a] ∧
  http_message.emitted w1
  ≠ http_message.emitted w
    ++ http_message.encode_ascii (http_message.hex (http_message.len [x68; x69]))
    ++ http_message.CRLF ++ [x68; x69] ++ http_message.CRLF.
Proof. vm_compute. by repeat split. Qed.

(** The claim about the budget at a budget of 3 and the chunk [b"hello"]. *)
Lemma budget_truncates_then_stops_witness :
  let w := http_message.set_length (Some 3%Z)
             (http_message.__init__ true 1 true) in
  let w1 := (http_message.write http_message.stored_compress
               [x68; x65; x6c; x6c; x6f] true
               http_message.LIMIT_default w).1 in
  http_message.emitted w1
  = http_message.emitted w
    ++ (if http_message.chunked w
        then match take (Z.to_nat 3) [x68; x65; x6c; x6c; x6f] with
             | [] => []
             | payload => http_message.chunk_frame payload
             end
        else take (Z.to_nat 3) [x68; x65; x6c; x6c; x6f]) ∧
  http_message.length w1 = Some 0%Z ∧
  ∀ b' drain' LIMIT',
    http_message.write http_message.stored_compress b' drain' LIMIT' w1
    = (w1, http_message.noop).
Proof.
  intros w.
  apply (proj1 (budget_truncates_then_stops http_message.stored_compress)
           3%Z [x68; x65; x6c; x6c; x6f] true http_message.LIMIT_default w);
    [reflexivity | reflexivity | vm_compute; split; [discriminate | reflexivity]].
Defined.

(** The claim about finalization at a writer that has been finalized once. *)
Lemma write_eof_idempotent_witness :
  let w := http_message.write_eof_finish
             (http_message.enable_chunking
                (http_message.__init__ (zobj := ()) true 1 true)) in
  http_message.write_eof http_message.stored_compress
    http_message.stored_flush [x68; x69] w
  = http_message.Return () w.
Proof.
  intros w.
  apply (proj1 (write_eof_idempotent http_message.stored_compress
                  http_message.stored_flush [x68; x69] w)).
  reflexivity.
Defined.

Example write_eof_twice_run :
  let w := http_message.enable_chunking
             (http_message.__init__ (zobj := ()) true 1 true) in
  ∃ w1, http_message.write_eof http_message.stored_compress
          http_message.stored_flush [] w
        = http_message.Return () w1 ∧
        http_message.trace w1
        = [http_message.TransportWrite 1 http_message.LAST_CHUNK;
           http_message.StreamDrain; http_message.StreamRelease] ∧
        http_message.write_eof http_message.stored_compress
          http_message.stored_flush [] w1
        = http_message.Return () w1.
Proof.
  intros w. exists (http_message.write_eof_finish
                      (http_message.emit http_message.StreamDrain
                         (http_message.emit
                            (http_message.TransportWrite 1
                               http_message.LAST_CHUNK)
                            (http_message.buffer_data
                               http_message.LAST_CHUNK w)))).
  split; [vm_compute; reflexivity|].
  split; vm_compute; reflexivity.
Qed.

(** ** http_message: what [write], [set_transport] and [write_eof] do in
    general *)

Section PayloadWriterLaws.
Import http_message.
Context {zobj : Type}.
Variable compress : zobj → bytes → zobj * bytes.
Variable flush : zobj → zobj * bytes.
Implicit Types (w : @PayloadWriter zobj) (b chunk : bytes).

Abbreviation write' := (http_message.write compress).
Abbreviation write_eof' := (http_message.write_eof compress flush).

Lemma _write_sizes chunk w :
  buffer_size (_write chunk w) = (buffer_size w + len chunk)%Z ∧
  output_size (_write chunk w) = (output_size w + len chunk)%Z.
Proof.
  unfold _write. simpl.
  destruct (_transport w); [destruct (_buffer w)|]; done.
Qed.

Lemma write_chunk_block_full chunk drain LIMIT w :
  chunk ≠ [] →
  let out := if chunked w then chunk_frame chunk else chunk in
  let r := write_chunk_block chunk drain LIMIT w in
  emitted r.1 = emitted w ++ out ∧
  output_size r.1 = (output_size w + len out)%Z ∧
  (r.2 = drain_coroutine
   ↔ drain = true ∧ (buffer_size w + len out > LIMIT)%Z) ∧
  buffer_size r.1
  = match r.2 with
    | drain_coroutine => 0%Z
    | noop => (buffer_size w + len out)%Z
    end.
Proof.
  intros Hne. cbv zeta.
  destruct (write_chunk_block_spec chunk drain LIMIT w Hne)
    as (Hem & _).
  split; [exact Hem|]. unfold write_chunk_block.
  destruct chunk as [|c0 chunk]; [done|].
  set (out := if chunked w then _ else _). cbv zeta.
  destruct (_write_sizes out w) as [Hbs Hos].
  rewrite Hbs.
  destruct (Z.gtb_spec (buffer_size w + len out) LIMIT) as [Hgt|Hle];
    destruct drain; simpl; rewrite ?Hos, ?Hbs;
    repeat split; try done; try lia; intros [? ?]; try done; lia.
Qed.

Lemma write_tail_law c drain LIMIT w :
  let r := match write_length_block c w with
           | (w1, None) => (w1, noop)
           | (w1, Some chunk) => write_chunk_block chunk drain LIMIT w1
           end in
  let out := framed_if (chunked w) (clamp_to (length w) c) in
  emitted r.1 = emitted w ++ out ∧
  output_size r.1 = (output_size w + len out)%Z ∧
  (r.2 = drain_coroutine
   ↔ out ≠ [] ∧ drain = true ∧ (buffer_size w + len out > LIMIT)%Z) ∧
  buffer_size r.1
  = match r.2 with
    | drain_coroutine => 0%Z
    | noop => (buffer_size w + len out)%Z
    end ∧
  _compress r.1 = _compress w.
Proof.
  assert (∀ (w1 : @PayloadWriter zobj),
            emitted w1 = emitted w → output_size w1 = output_size w →
            buffer_size w1 = buffer_size w →
            emitted w1 = emitted w ++ [] ∧
            output_size w1 = (output_size w + len [])%Z ∧
            (noop = drain_coroutine
             ↔ @nil byte ≠ [] ∧ drain = true
               ∧ (buffer_size w + len [] > LIMIT)%Z) ∧
            buffer_size w1 = (buffer_size w + len [])%Z) as Hnothing.
  { intros w1 -> -> ->. rewrite app_nil_r. unfold len. simpl.
    repeat split; try lia; try done. by intros [? _]. }
  assert (∀ (w1 : @PayloadWriter zobj) c1,
            c1 ≠ [] → emitted w1 = emitted w →
            output_size w1 = output_size w →
            buffer_size w1 = buffer_size w → chunked w1 = chunked w →
            let r := write_chunk_block c1 drain LIMIT w1 in
            let out := framed_if (chunked w) c1 in
            emitted r.1 = emitted w ++ out ∧
            output_size r.1 = (output_size w + len out)%Z ∧
            (r.2 = drain_coroutine
             ↔ out ≠ [] ∧ drain = true
               ∧ (buffer_size w + len out > LIMIT)%Z) ∧
            buffer_size r.1
            = match r.2 with
              | drain_coroutine => 0%Z
              | noop => (buffer_size w + len out)%Z
              end ∧
            _compress r.1 = _compress w1) as Hsome.
  { intros w1 c1 Hne Hem Hos Hbs Hch.
    destruct (write_chunk_block_full c1 drain LIMIT w1 Hne)
      as (H1 & H2 & H3 & H4).
    destruct (write_chunk_block_spec c1 drain LIMIT w1 Hne)
      as (_ & _ & _ & _ & Hz & _).
    cbv zeta in *. rewrite Hem, Hos, Hbs, Hch in *.
    destruct c1 as [|c0 c1]; [done|]. unfold framed_if.
    assert ((if chunked w then chunk_frame (c0 :: c1) else c0 :: c1) ≠ [])
      as Hout.
    { destruct (chunked w); [apply chunk_frame_nonempty | done]. }
    split; [done|]. split; [done|]. split; [|by split].
    split.
    - intros Hr. split; [done|]. by apply H3.
    - intros (_ & ? & ?). by apply H3. }
  cbv zeta. unfold write_length_block, clamp_to.
  destruct (length w) as [L|] eqn:HL.
  - destruct (L >=? len c)%Z.
    + destruct c as [|c0 c].
      * destruct (Hnothing (set_length (Some (L - len [])%Z) w))
          as (? & ? & ? & ?); [done..|].
        cbn [write_chunk_block framed_if fst snd].
        repeat split; try done. by intros [? _].
      * by apply (Hsome (set_length (Some (L - len (c0 :: c))%Z) w)).
    + destruct (slice_to L c) as [|s0 sl] eqn:Hs.
      * destruct (Hnothing (set_length (Some 0%Z) w))
          as (? & ? & ? & ?); [done..|].
        cbn [write_chunk_block framed_if fst snd].
        repeat split; try done. by intros [? _].
      * by apply (Hsome (set_length (Some 0%Z) w)).
  - destruct c as [|c0 c].
    + destruct (Hnothing w) as (? & ? & ? & ?); [done..|].
        cbn [write_chunk_block framed_if fst snd].
        repeat split; try done. by intros [? _].
    + by apply (Hsome w).
Qed.

(** The law of [write]: the chunk goes through the compressor when there
    is one, is cut to the length budget when there is one, is framed when
    chunking is on, and is then put out behind everything put out before;
    an empty result puts nothing out. [output_size] grows by the bytes put
    out, frame included; the call hands back the drain coroutine exactly
    when it put something out, was asked to drain, and [buffer_size]
    passed [LIMIT], and then [buffer_size] is back at zero. *)
Theorem write_puts_out chunk drain LIMIT w :
  let compressed :=
    match _compress w with
    | Some z => (compress z chunk).2
    | None => chunk
    end in
  let out :=
    framed_if (chunked w)
      (match compressed with
       | [] => []
       | _ => clamp_to (length w) compressed
       end) in
  let r := write' chunk drain LIMIT w in
  emitted r.1 = emitted w ++ out ∧
  output_size r.1 = (output_size w + len out)%Z ∧
  (r.2 = drain_coroutine
   ↔ out ≠ [] ∧ drain = true ∧ (buffer_size w + len out > LIMIT)%Z) ∧
  buffer_size r.1
  = match r.2 with
    | drain_coroutine => 0%Z
    | noop => (buffer_size w + len out)%Z
    end.
Proof.
  cbv zeta. unfold http_message.write, write_compress_block.
  destruct (_compress w) as [z|] eqn:Hz.
  - destruct (compress z chunk) as [z' c]. cbn [snd].
    destruct c as [|c0 c].
    + cbn [fst snd framed_if]. unfold emitted, len. simpl.
      rewrite app_nil_r.
      repeat split; try lia; try done. by intros [? _].
    + destruct (write_tail_law (c0 :: c) drain LIMIT
                  (set__compress (Some z') w)) as (H1 & H2 & H3 & H4 & _).
      cbv zeta in *.
      change (emitted (set__compress (Some z') w)) with (emitted w) in *.
      cbn [chunked length buffer_size output_size set__compress] in *.
      exact (conj H1 (conj H2 (conj H3 H4))).
  - destruct (write_tail_law chunk drain LIMIT w) as (H1 & H2 & H3 & H4 & _).
    cbv zeta in *.
    destruct chunk as [|c0 c]; [|exact (conj H1 (conj H2 (conj H3 H4)))].
    assert (clamp_to (length w) (@nil byte) = []) as Hnil.
    { unfold clamp_to. destruct (length w) as [L|]; [|done].
      destruct (L >=? len [])%Z; [done|]. unfold slice_to.
      destruct (0 <=? L)%Z; apply take_nil. }
    rewrite Hnil in *. exact (conj H1 (conj H2 (conj H3 H4))).
Qed.

(** Attaching a transport hands over, in order, everything queued so
    far: what is then on the wire is exactly what had been put out, nothing
    is lost or sent twice, the queue is emptied, and the future a drain
    was waiting on, if any, is done and forgotten. *)
Theorem set_transport_hands_over t w :
  let w' := set_transport t w in
  wire (trace w') = emitted w ∧
  emitted w' = emitted w ∧
  _transport w' = Some t ∧
  _drain_waiter w' = None ∧
  (∀ fut, _drain_waiter w = Some fut → fut ∈ futures_done w') ∧
  (join (_buffer w) ≠ [] → _buffer w' = []).
Proof.
  cbv zeta. unfold set_transport, emitted. simpl.
  destruct (join (_buffer w)) as [|c0 c] eqn:Hj; simpl;
    destruct (_drain_waiter w) as [fut|] eqn:Hw; simpl;
    try destruct (decide (fut ∈ futures_done w)); simpl;
    rewrite ?wire_app, ?Hj; simpl; rewrite ?app_nil_r;
    repeat split; try done;
    intros fut' [= <-]; first [done | by left].
Qed.

(** [write_eof(chunk)] without compression, on a writer with a transport:
    the trailing chunk goes out behind everything put out before, framed
    and followed by the last-chunk marker when chunking is on, as it is
    otherwise; the length budget is not applied to it. *)
Theorem write_eof_trailing_chunk chunk w t :
  _eof w = false → _compress w = None → _transport w = Some t →
  ∃ w2, write_eof' chunk w = Return () w2 ∧
        wire (trace w2)
        = emitted w
          ++ (if chunked w
              then match chunk with
                   | [] => LAST_CHUNK
                   | _ => chunk_frame chunk ++ LAST_CHUNK
                   end
              else chunk).
Proof.
  intros He Hz Ht.
  destruct (write_eof_attached compress flush chunk w t He Ht)
    as (s & Heq & Hs).
  destruct (before_drain_fields compress flush chunk w) as (_ & _ & Hbuf).
  eexists. split; [exact Heq|].
  destruct (write_eof_finish_fields s) as (_ & _ & ->).
  rewrite Hs, Hbuf.
  assert ((write_eof_chunk compress flush chunk w).2
          = if chunked w
            then match chunk with
                 | [] => LAST_CHUNK
                 | _ => chunk_frame chunk ++ LAST_CHUNK
                 end
            else chunk) as ->.
  { unfold write_eof_chunk. rewrite Hz.
    destruct (chunked w); [by destruct chunk | done]. }
  set (c := if chunked w then _ else _). clearbody c.
  assert (∀ q : list bytes,
            wire (match q with
                  | [] => []
                  | q0 :: q' => [TransportWrite t (join (q0 :: q'))]
                  end) = join q) as Hq.
  { intros [|q0 q]; simpl; by rewrite ?app_nil_r. }
  rewrite !wire_app. unfold emitted. rewrite <- !app_assoc. f_equal.
  destruct c as [|c0 c'].
  - rewrite !app_nil_r. rewrite (Hq (_buffer w)). simpl.
    by rewrite ?app_nil_r.
  - rewrite (Hq (_buffer w ++ [c0 :: c'])), join_snoc. simpl.
    by rewrite ?app_nil_r, <- ?app_assoc.
Qed.

Lemma write_chunk_block_unattached c drain LIMIT w :
  _transport w = None →
  trace (write_chunk_block c drain LIMIT w).1 = trace w ∧
  _transport (write_chunk_block c drain LIMIT w).1 = None.
Proof.
  intros Ht. unfold write_chunk_block. destruct c as [|c0 c]; [done|].
  cbv zeta. unfold _write. simpl. rewrite Ht.
  by destruct (_ && _)%bool.
Qed.

Lemma write_unattached b drain LIMIT w :
  _transport w = None →
  trace (write' b drain LIMIT w).1 = trace w ∧
  _transport (write' b drain LIMIT w).1 = None.
Proof.
  intros Ht. unfold http_message.write, write_compress_block.
  assert (∀ c (w1 : @PayloadWriter zobj),
            _transport w1 = None → trace w1 = trace w →
            let r := match write_length_block c w1 with
                     | (w2, None) => (w2, noop)
                     | (w2, Some chunk) =>
                         write_chunk_block chunk drain LIMIT w2
                     end in
            trace r.1 = trace w ∧ _transport r.1 = None) as Htail.
  { intros c w1 Ht1 Htr. cbv zeta. unfold write_length_block.
    destruct (length w1) as [L|].
    - destruct (L >=? len c)%Z.
      + destruct (write_chunk_block_unattached c drain LIMIT
                    (set_length (Some (L - len c)%Z) w1) Ht1) as [-> ->].
        by rewrite <- Htr.
      + destruct (slice_to L c) as [|s0 sl]; [by rewrite <- Htr|].
        destruct (write_chunk_block_unattached (s0 :: sl) drain LIMIT
                    (set_length (Some 0%Z) w1) Ht1) as [-> ->].
        by rewrite <- Htr.
    - destruct (write_chunk_block_unattached c drain LIMIT w1 Ht1)
        as [-> ->]. by rewrite <- Htr. }
  destruct (_compress w) as [z|].
  - destruct (compress z b) as [z' c]. destruct c as [|c0 c]; [done|].
    by apply (Htail (c0 :: c) (set__compress (Some z') w)).
  - by apply Htail.
Qed.

Lemma write_chunk_block_eof c drain LIMIT w :
  _eof (write_chunk_block c drain LIMIT w).1 = _eof w.
Proof.
  destruct c as [|c0 c]; [done|].
  by destruct (write_chunk_block_spec (c0 :: c) drain LIMIT w)
    as (_ & _ & _ & He & _).
Qed.

Lemma write_keeps_eof b drain LIMIT w :
  _eof (write' b drain LIMIT w).1 = _eof w.
Proof.
  unfold http_message.write, write_compress_block, write_length_block.
  destruct (_compress w) as [z|];
    [destruct (compress z b) as [z' [|c0 c]]; [done|] |];
    (destruct (length _) as [L|];
     [destruct (_ >=? _)%Z; [|destruct (slice_to _ _); [done|]] |]);
    by rewrite write_chunk_block_eof.
Qed.

(** A write after the end: once [write_eof] has completed, [write] still
    accepts a chunk, but nothing it is given reaches a transport; the
    writer stays finalized and detached. *)
Theorem write_after_eof_reaches_no_transport chunk w w' b drain LIMIT :
  _eof w = false →
  completes (write_eof' chunk w) w' →
  trace (write' b drain LIMIT w').1 = trace w' ∧
  _transport (write' b drain LIMIT w').1 = None ∧
  write_eof' b (write' b drain LIMIT w').1
  = Return () (write' b drain LIMIT w').1.
Proof.
  intros He Hrun.
  destruct (write_eof_completes compress flush chunk w w' He Hrun)
    as [s ->].
  destruct (write_eof_finish_fields s) as (Heof & Ht & _).
  destruct (write_unattached b drain LIMIT (write_eof_finish s) Ht)
    as [Htr Ht'].
  split; [done|]. split; [done|].
  apply write_eof_again. by rewrite write_keeps_eof.
Qed.

(** Before a transport is attached there is one waiter at most: a second
    drain waits on the future the first one made, without making another,
    and attaching a transport makes that future done, so both wake up. *)
Theorem drains_share_one_waiter last last' w :
  _transport w = None →
  ∃ fut (s : @PayloadWriter zobj),
    drain last w = Await fut s (λ w', Return () w') ∧
    drain last' s = Await fut s (λ w', Return () w') ∧
    _drain_waiter s = Some fut ∧
    ∀ t, fut ∈ futures_done (set_transport t s) ∧
         wake (drain last' s) (set_transport t s)
         = Return () (set_transport t s).
Proof.
  intros Ht. unfold drain. rewrite Ht.
  destruct (_drain_waiter w) as [fut|] eqn:Hw; simpl.
  - rewrite Hw. exists fut, w. rewrite Ht. simpl. rewrite !Hw.
    split; [done|]. split; [done|]. split; [done|]. intros t.
    destruct (set_transport_flushes t w fut Hw) as [Hdone _].
    split; [done|]. unfold wake. by rewrite decide_True.
  - eexists _, _. split; [reflexivity|]. simpl. rewrite Ht.
    split; [done|]. split; [done|]. intros t.
    match goal with
    | |- _ ∈ futures_done (set_transport t ?s) ∧ _ =>
        destruct (set_transport_flushes t s (next_future w) eq_refl)
          as [Hdone _]
    end.
    split; [done|]. unfold wake. by rewrite decide_True.
Qed.

(** A chunk frame is its size line, CRLF, the payload, CRLF, and the size
    line reads back, as a hexadecimal number, as the length of the
    payload. *)
Theorem chunk_frame_size_line chunk :
  ∃ size_line,
    chunk_frame chunk
    = encode_ascii size_line ++ CRLF ++ chunk ++ CRLF ∧
    hex_value size_line = Some (len chunk).
Proof.
  exists (hex (len chunk)). split; [apply chunk_frame_spelled|].
  apply hex_value_hex. unfold len. lia.
Qed.

End PayloadWriterLaws.

(** The trailing chunk of [write_eof] at a chunked writer with a
    transport. *)
Lemma write_eof_trailing_chunk_witness :
  ∃ w2, http_message.write_eof http_message.stored_compress
          http_message.stored_flush [x68; x69]
          (http_message.enable_chunking (http_message.__init__ true 1 true))
        = http_message.Return () w2 ∧
        http_message.wire (http_message.trace w2)
        = http_message.emitted
            (http_message.enable_chunking
               (http_message.__init__ (zobj := ()) true 1 true))
          ++ (if http_message.chunked
                   (http_message.enable_chunking
                      (http_message.__init__ (zobj := ()) true 1 true))
              then http_message.chunk_frame [x68; x69]
                   ++ http_message.LAST_CHUNK
              else [x68; x69]).
Proof.
  apply (write_eof_trailing_chunk http_message.stored_compress
           http_message.stored_flush [x68; x69]
           (http_message.enable_chunking (http_message.__init__ true 1 true))
           1); reflexivity.
Defined.

(** A write after the end at a writer finalized with its transport
    attached. *)
Lemma write_after_eof_reaches_no_transport_witness :
  http_message.trace
    (http_message.write http_message.stored_compress [x68; x69] true
       http_message.LIMIT_default
       (http_message.write_eof_finish
          (http_message.emit http_message.StreamDrain
             (http_message.__init__ true 1 true)))).1
  = [http_message.StreamDrain; http_message.StreamRelease].
Proof.
  destruct (write_after_eof_reaches_no_transport
              http_message.stored_compress http_message.stored_flush
              [] (http_message.__init__ true 1 true)
              (http_message.write_eof_finish
                 (http_message.emit http_message.StreamDrain
                    (http_message.__init__ true 1 true)))
              [x68; x69] true http_message.LIMIT_default)
    as (Htrace & _ & _).
  - reflexivity.
  - apply http_message.completes_Return.
  - exact Htrace.
Defined.

Lemma drains_share_one_waiter_witness :
  ∃ fut (s : http_message.PayloadWriter (zobj := ())),
    http_message.drain false (http_message.__init__ false 1 true)
    = http_message.Await fut s (λ w', http_message.Return () w') ∧
    http_message.drain true s
    = http_message.Await fut s (λ w', http_message.Return () w') ∧
    http_message._drain_waiter s = Some fut ∧
    ∀ t, fut ∈ http_message.futures_done (http_message.set_transport t s) ∧
         http_message.wake (http_message.drain true s)
           (http_message.set_transport t s)
         = http_message.Return () (http_message.set_transport t s).
Proof.
  apply (drains_share_one_waiter false true
           (http_message.__init__ false 1 true)).
  reflexivity.
Defined.

(** ** web_urldispatcher *)

Section DispatcherFacts.
Import web_urldispatcher.
Context {Handler Pattern : Type}.
Variable re_compile : string → result string Pattern.
Variable Pattern_match : Pattern → string → option (list (string * string)).
Variable re_escape : string → string.
Variable ROUTE_RE_search : string → bool.
Variable ROUTE_RE_split : string → list string.
Variable DYN_match : string → option string.
Variable DYN_WITH_RE_match : string → option (string * string).
Variable unquote : string → string.

Abbreviation Res := (@Resource Pattern).
Abbreviation Disp := (@UrlDispatcher Pattern).
Abbreviation matches := (Resource_match Pattern_match unquote).
Abbreviation resolve' := (resolve (Handler := Handler) Pattern_match unquote).
Abbreviation add_resource' :=
  (add_resource re_compile re_escape ROUTE_RE_search ROUTE_RE_split
     DYN_match DYN_WITH_RE_match).
Abbreviation add_route' :=
  (add_route (Handler := Handler) re_compile re_escape ROUTE_RE_search
     ROUTE_RE_split DYN_match DYN_WITH_RE_match).

Lemma resolve_loop_unbound (resources : list Res) path method allowed :
  resolve_loop (Handler := Handler) Pattern_match unquote module_scope
    resources path method allowed
  = if existsb (λ r, bool_decide (is_Some (matches r path))) resources
    then Raise (NameError "route")
    else match allowed with
         | [] => Ok _NotFoundMatchInfo
         | _ => Ok (_MethodNotAllowedMatchInfo method allowed)
         end.
Proof.
  induction resources as [|r resources IH]; [done|].
  cbn [resolve_loop existsb].
  destruct (matches r path) as [match_dict|] eqn:Hm.
  - by rewrite bool_decide_true by eauto.
  - rewrite bool_decide_false by (by intros [? ?]). by rewrite IH.
Qed.

(** [resolve] answers not-found when no registered resource matches the
    path, and raises [NameError] as soon as one does, [route] being bound
    nowhere; so it never answers with a match, nor with
    method-not-allowed, whatever the method. *)
Theorem resolve_not_found_or_NameError raw_path method (d : Disp) :
  resolve (Handler := Handler) Pattern_match unquote raw_path method d
  = if existsb (λ r, bool_decide
                       (is_Some (Resource_match Pattern_match unquote r
                                   raw_path)))
         (_resources d)
    then Raise (NameError "route")
    else Ok _NotFoundMatchInfo.
Proof. unfold resolve. by rewrite resolve_loop_unbound. Qed.

(** Registration is all or nothing. It succeeds for an unnamed resource,
    and for a named one whose name passes the test on its parts and is not
    in the table; the resource is then the last of the list and, when
    named, filed under its name, the other names keeping their resource.
    Otherwise it raises [ValueError], for the name or for the duplicate,
    and the dispatcher is what it was. *)
Theorem reg_resource_all_or_nothing (r : Res) (d : Disp) :
  match _reg_resource (a_resource r) d with
  | (d', Ok _) =>
      _resources d' = _resources d ++ [r] ∧
      match Resource_name r with
      | Some name =>
          name_parts_ok name = true ∧
          _named_resources d !! name = None ∧
          _named_resources d' = <[name := r]> (_named_resources d)
      | None => _named_resources d' = _named_resources d
      end
  | (d', Raise e) =>
      d' = d ∧
      ∃ name, Resource_name r = Some name ∧
        ((e = ValueError (Incorrect_route_name name) ∧
          name_parts_ok name = false) ∨
         (e = ValueError (Duplicate_name name) ∧
          name_parts_ok name = true ∧
          is_Some (_named_resources d !! name)))
  end.
Proof.
  unfold _reg_resource. destruct (Resource_name r) as [name|] eqn:Hname.
  - destruct (name_parts_ok name) eqn:Hok; simpl.
    + destruct (decide (is_Some (_named_resources d !! name))) as [Hin|Hout].
      * split; [done|]. exists name. split; [done|]. right. done.
      * simpl. repeat split; try done.
        by apply eq_None_not_Some.
    + split; [done|]. exists name. split; [done|]. by left.
  - done.
Qed.

Lemma reg_resource_consistent (o : @Object Pattern) (d : Disp) :
  consistent d → consistent (_reg_resource o d).1.
Proof.
  intros Hd. destruct o as [r|name]; [|done].
  unfold _reg_resource. destruct (Resource_name r) as [name|] eqn:Hname.
  - destruct (name_parts_ok name); simpl; [|done].
    destruct (decide _) as [?|Hout]; simpl; [done|].
    intros name' r' Hlook. simpl in *.
    apply lookup_insert_Some in Hlook as [[<- <-]|[Hne Hlook]].
    + split; [|done]. apply elem_of_app. right. by left.
    + destruct (Hd name' r' Hlook). split; [|done].
      apply elem_of_app. by left.
  - simpl. intros name' r' Hlook. simpl in *.
    destruct (Hd name' r' Hlook). split; [|done].
    apply elem_of_app. by left.
Qed.

Lemma add_resource_consistent path name (d : Disp) :
  consistent d → consistent (add_resource' path name d).1.
Proof.
  intros Hd. unfold add_resource.
  destruct (negb (startswith "/" path)); [done|].
  destruct (negb _).
  - simpl. unfold bind.
    pose proof (reg_resource_consistent
                  (a_resource (PlainResource name path)) d Hd) as Hreg.
    by destruct (_reg_resource _ d) as [d' [[]|e]].
  - destruct (add_resource_parts _ _ _ _ _ _ _) as [[pattern formatter]|e];
      [|done].
    by destruct (re_compile _).
Qed.

(** The name table stays consistent with the list: a fresh dispatcher is
    consistent, and registering a resource or a route, adding a resource
    and adding a route keep it so, whether they succeed or raise. So
    [router[name]] is always a registered resource of that name. *)
Theorem named_resources_consistent :
  consistent (UrlDispatcher_init : Disp) ∧
  ∀ d : Disp,
    consistent d →
    (∀ o, consistent (_reg_resource o d).1) ∧
    (∀ route : @Route Handler Pattern, consistent (register_route route d).1) ∧
    (∀ path name, consistent (add_resource' path name d).1) ∧
    (∀ method path handler name,
       consistent (add_route' method path handler name d).1) ∧
    (∀ name r, __getitem__ name d = Ok r →
               r ∈ _resources d ∧ Resource_name r = Some name).
Proof.
  split; [by intros name r Hlook|].
  intros d Hd. split; [|split; [|split; [|split]]].
  - intros o. by apply reg_resource_consistent.
  - intros route. by apply reg_resource_consistent.
  - intros path name. by apply add_resource_consistent.
  - intros method path handler name. unfold add_route.
    destruct (negb _); [done|]. unfold bind.
    pose proof (add_resource_consistent path name d Hd) as Hadd.
    by destruct (add_resource' path name d) as [d' [r|e]].
  - intros name r Hget. unfold __getitem__ in Hget.
    destruct (_named_resources d !! name) as [r'|] eqn:Hlook; [|done].
    injection Hget as <-. by apply (Hd name r').
Qed.

Lemma add_resource_parts_raises path parts pattern formatter e :
  add_resource_parts re_escape DYN_match DYN_WITH_RE_match path parts
    pattern formatter = Raise e →
  ∃ part, e = ValueError (Invalid_path path part).
Proof.
  revert pattern formatter.
  induction parts as [|part parts IH]; intros pattern formatter; [done|].
  simpl. destruct (DYN_match part) as [var|]; [apply IH|].
  destruct (DYN_WITH_RE_match part) as [[var re]|]; [apply IH|].
  destruct (_ || _); [|apply IH]. intros [= <-]. eauto.
Qed.

Lemma add_resource_unnamed_plain path (d : Disp) :
  startswith "/" path = true →
  contains_char "{" path = false → contains_char "}" path = false →
  ROUTE_RE_search path = false →
  add_resource' path None d
  = (mkUrlDispatcher (_resources d ++ [PlainResource None path])
       (_named_resources d),
     Ok (PlainResource None path)).
Proof.
  intros Hslash Ho Hc Hs. unfold add_resource.
  by rewrite Hslash, Ho, Hc, Hs.
Qed.

(** [add_resource] on a path without braces: it must start with a slash,
    else [ValueError] and no change; unnamed, it always succeeds, the
    plain resource it returns is the last of the list and matches its own
    path and no other. *)
Theorem add_resource_plain path (d : Disp) :
  contains_char "{" path = false → contains_char "}" path = false →
  ROUTE_RE_search path = false →
  if startswith "/" path
  then
    ∃ d', add_resource' path None d = (d', Ok (PlainResource None path)) ∧
          _resources d' = _resources d ++ [PlainResource None path] ∧
          _named_resources d' = _named_resources d ∧
          ∀ p, matches (PlainResource None path) p
               = if decide (path = p) then Some [] else None
  else
    add_resource' path None d
    = (d, Raise (ValueError Path_should_be_started_with_slash)).
Proof.
  intros Ho Hc Hs. destruct (startswith "/" path) eqn:Hslash.
  - rewrite add_resource_unnamed_plain by done. eexists. by repeat split.
  - unfold add_resource. by rewrite Hslash.
Qed.

(** [add_resource] on a path with a brace never registers anything: for
    every behaviour of the [re] module it raises, [AttributeError] for
    the missing [register_resource] when the pattern has been built and
    compiled, [ValueError] before that, and the dispatcher is what it
    was. *)
Theorem add_resource_template_raises path name (d : Disp) :
  contains_char "{" path || contains_char "}" path = true →
  ∃ e, add_resource' path name d = (d, Raise e) ∧
       (e = AttributeError "register_resource" ∨ ∃ message, e = ValueError message).
Proof.
  intros Hbrace. unfold add_resource.
  destruct (startswith "/" path); simpl; [|by eauto 6].
  rewrite Hbrace. simpl.
  destruct (add_resource_parts _ _ _ _ _ _ _) as [[pattern formatter]|e]
    eqn:Hparts.
  - destruct (re_compile _) as [compiled|exc]; by eauto 6.
  - apply add_resource_parts_raises in Hparts as [part ->]. by eauto 6.
Qed.

(** [add_route]: a method outside [METHODS], once upper-cased, is refused
    with [ValueError] before anything is registered; with a method of
    [METHODS] and an unnamed path without braces the resource is
    registered and a route comes back, but the dispatcher keeps no route,
    and resolving that very path then raises [NameError], whatever the
    method. *)
Theorem add_route_then_resolve method path handler (d : Disp) :
  startswith "/" path = true →
  contains_char "{" path = false → contains_char "}" path = false →
  ROUTE_RE_search path = false →
  if bool_decide (upstr method ∈ METHODS)
  then
    ∃ d' route,
      add_route' method path handler None d = (d', Ok route) ∧
      Route_method route = upstr method ∧
      Route_resource route = a_resource (PlainResource None path) ∧
      _resources d' = _resources d ++ [PlainResource None path] ∧
      ∀ m, resolve' path m d' = Raise (NameError "route")
  else
    add_route' method path handler None d
    = (d, Raise (ValueError (Not_allowed_HTTP_method (upstr method)))).
Proof.
  intros Hslash Ho Hc Hs. unfold add_route.
  destruct (bool_decide (upstr method ∈ METHODS)); [|done]. simpl.
  unfold bind. rewrite add_resource_unnamed_plain by done.
  eexists _, _. split; [done|]. repeat split. intros m.
  unfold resolve. rewrite resolve_loop_unbound. cbn [_resources].
  rewrite existsb_app. cbn [existsb Resource_match].
  rewrite decide_True by done.
  rewrite bool_decide_true by eauto. by rewrite orb_true_r.
Qed.

End DispatcherFacts.

Section NameFacts.
Import web_urldispatcher.

Lemma contains_char_app c s1 s2 :
  contains_char c (s1 +:+ s2) = contains_char c s1 || contains_char c s2.
Proof.
  induction s1 as [|a s1 IH]; simpl; [done|].
  by destruct (decide (a = c)).
Qed.

Lemma isidentifier_chars c part :
  contains_char c part = true → is_id_continue c = false →
  isidentifier part = false.
Proof.
  intros Hin Hbad.
  assert (is_id_start c = false) as Hstart.
  { unfold is_id_continue in Hbad. by apply orb_false_elim in Hbad as [? _]. }
  assert (∀ s, contains_char c s = true → all_id_continue s = false) as Hall.
  { induction s as [|a s IH]; simpl; [done|].
    destruct (decide (a = c)) as [->|_]; [by rewrite Hbad|].
    intros Hs. rewrite (IH Hs). apply andb_false_r. }
  destruct part as [|a part]; [done|]. simpl in *.
  destruct (decide (a = c)) as [->|_]; [by rewrite Hstart|].
  rewrite (Hall _ Hin). apply andb_false_r.
Qed.

Lemma split_from_bad_char c acc s :
  is_id_continue c = false → is_name_separator c = false →
  contains_char c acc || contains_char c s = true →
  forallb (λ part, isidentifier part && negb (iskeyword part))
    (NAME_SPLIT_RE_split_from acc s) = false.
Proof.
  intros Hbad Hsep. revert acc.
  induction s as [|a s IH]; intros acc Hin; simpl in *.
  - rewrite orb_false_r in Hin.
    by rewrite (isidentifier_chars c acc Hin Hbad).
  - destruct (is_name_separator a) eqn:Ha; simpl.
    + destruct (contains_char c acc) eqn:Hacc.
      * by rewrite (isidentifier_chars c acc Hacc Hbad).
      * simpl in Hin. destruct (decide (a = c)) as [->|_]; [congruence|].
        rewrite (IH EmptyString) by done. apply andb_false_r.
    + apply IH. rewrite contains_char_app. simpl.
      destruct (decide (a = c)); simpl.
      * by rewrite orb_true_r.
      * by rewrite orb_false_r.
Qed.

Lemma append_empty_r s : s +:+ EmptyString = s.
Proof.
  induction s as [|a s IH]; [done|].
  change (String a (s +:+ EmptyString) = String a s). by f_equal.
Qed.

Lemma append_snoc acc a s :
  (acc +:+ String a EmptyString) +:+ s = acc +:+ String a s.
Proof.
  induction acc as [|b acc IH]; [done|].
  change (String b ((acc +:+ String a EmptyString) +:+ s)
          = String b (acc +:+ String a s)).
  by f_equal.
Qed.

Lemma split_from_identifier acc s :
  all_id_continue s = true →
  NAME_SPLIT_RE_split_from acc s = [acc +:+ s].
Proof.
  revert acc. induction s as [|a s IH]; intros acc Hs; simpl in *.
  - by rewrite append_empty_r.
  - apply andb_true_iff in Hs as [Ha Hs].
    assert (is_name_separator a = false) as ->.
    { destruct a as [[] [] [] [] [] [] [] []]; try done;
        vm_compute in Ha; discriminate. }
    rewrite IH by done. by rewrite append_snoc.
Qed.

(** Which names [_reg_resource] lets through: the empty name is refused;
    so is a name with any ASCII character that is not a letter, a digit,
    an underscore, a dot, a colon or a dash; so is a keyword; an identifier
    that is no keyword is accepted, and so are two such identifiers joined
    by a separator. *)
Theorem name_parts_ok_cases :
  name_parts_ok EmptyString = false ∧
  (∀ c name, (nat_of_ascii c < 128)%nat →
             is_id_continue c = false → is_name_separator c = false →
             contains_char c name = true → name_parts_ok name = false) ∧
  (∀ name, iskeyword name = true → name_parts_ok name = false) ∧
  (∀ name, isidentifier name = true → iskeyword name = false →
           name_parts_ok name = true) ∧
  (∀ a b sep, isidentifier a = true → iskeyword a = false →
              isidentifier b = true → iskeyword b = false →
              is_name_separator sep = true →
              name_parts_ok (a +:+ String sep b) = true).
Proof.
  split; [done|]. split; [|split; [|split]].
  - intros c name _ Hbad Hsep Hin. unfold name_parts_ok, NAME_SPLIT_RE_split.
    by apply (split_from_bad_char c).
  - intros name Hkw. apply bool_decide_eq_true in Hkw.
    unfold kwlist in Hkw.
    repeat (apply elem_of_cons in Hkw as [->|Hkw]; [done|]).
    by apply elem_of_nil in Hkw.
  - intros name Hid Hkw. unfold name_parts_ok, NAME_SPLIT_RE_split.
    destruct name as [|a name]; [done|]. simpl in Hid.
    apply andb_true_iff in Hid as [Ha Hname].
    rewrite split_from_identifier.
    + change (EmptyString +:+ String a name) with (String a name).
      cbn [forallb]. rewrite Hkw. simpl. by rewrite Ha, Hname.
    + simpl. rewrite Hname. unfold is_id_continue. by rewrite Ha.
  - intros a b sep Ha Hka Hb Hkb Hsep.
    unfold name_parts_ok, NAME_SPLIT_RE_split.
    assert (∀ acc s, all_id_continue s = true →
              NAME_SPLIT_RE_split_from acc (s +:+ String sep b)
              = (acc +:+ s) :: NAME_SPLIT_RE_split_from EmptyString b)
      as Hsplit.
    { intros acc s. revert acc.
      induction s as [|x s IH]; intros acc Hs; simpl in *.
      - by rewrite Hsep, append_empty_r.
      - apply andb_true_iff in Hs as [Hx Hs].
        assert (is_name_separator x = false) as ->.
        { destruct x as [[] [] [] [] [] [] [] []]; try done;
            vm_compute in Hx; discriminate. }
        rewrite IH by done. by rewrite append_snoc. }
    assert (∀ s, isidentifier s = true → all_id_continue s = true) as Hall.
    { intros [|x s]; [done|]. simpl. intros [Hx Hs]%andb_true_iff.
      rewrite Hs. unfold is_id_continue. by rewrite Hx. }
    rewrite Hsplit by by apply Hall.
    change (EmptyString +:+ a) with a. cbn [forallb].
    rewrite Ha, Hka. simpl.
    rewrite split_from_identifier by by apply Hall.
    change (EmptyString +:+ b) with b. cbn [forallb].
    by rewrite Hb, Hkb.
Qed.

End NameFacts.

Example name_parts_ok_run :
  web_urldispatcher.name_parts_ok "bad name" = false ∧
  web_urldispatcher.name_parts_ok "app:static-files.v2" = true ∧
  web_urldispatcher.name_parts_ok "a..b" = false ∧
  web_urldispatcher.name_parts_ok "class" = false.
Proof. repeat split. Qed.

(** The consistency of the name table at a dispatcher with one named
    resource. *)
Lemma named_resources_consistent_witness :
  web_urldispatcher.consistent
    (web_urldispatcher._reg_resource
       (web_urldispatcher.a_resource
          (web_urldispatcher.PlainResource (Pattern := ()) (Some "home") "/"))
       web_urldispatcher.UrlDispatcher_init).1.
Proof.
  apply (proj2 (named_resources_consistent (Handler := nat)
                  web_urldispatcher.no_compile web_urldispatcher.as_is
                  web_urldispatcher.no_search web_urldispatcher.one_part
                  web_urldispatcher.no_var web_urldispatcher.no_var_re)
           web_urldispatcher.UrlDispatcher_init).
  intros name r Hlook. vm_compute in Hlook. discriminate.
Defined.

Lemma add_resource_plain_witness :
  ∃ d', web_urldispatcher.add_resource web_urldispatcher.no_compile
          web_urldispatcher.as_is web_urldispatcher.no_search
          web_urldispatcher.one_part web_urldispatcher.no_var
          web_urldispatcher.no_var_re "/foo/bar" None
          web_urldispatcher.UrlDispatcher_init
        = (d', Ok (web_urldispatcher.PlainResource None "/foo/bar")) ∧
        web_urldispatcher._resources d'
        = [web_urldispatcher.PlainResource None "/foo/bar"] ∧
        web_urldispatcher._named_resources d' = ∅ ∧
        ∀ p, web_urldispatcher.Resource_match web_urldispatcher.no_match
               web_urldispatcher.as_is
               (web_urldispatcher.PlainResource None "/foo/bar") p
             = if decide ("/foo/bar" = p) then Some [] else None.
Proof.
  apply (add_resource_plain web_urldispatcher.no_compile
           web_urldispatcher.no_match web_urldispatcher.as_is
           web_urldispatcher.no_search web_urldispatcher.one_part
           web_urldispatcher.no_var web_urldispatcher.no_var_re
           web_urldispatcher.as_is "/foo/bar"
           web_urldispatcher.UrlDispatcher_init); reflexivity.
Defined.

Lemma add_resource_template_raises_witness :
  ∃ e, web_urldispatcher.add_resource web_urldispatcher.users_compile
         web_urldispatcher.as_is web_urldispatcher.users_search
         web_urldispatcher.users_split web_urldispatcher.users_var
         web_urldispatcher.no_var_re "/users/{id}" None
         web_urldispatcher.UrlDispatcher_init
       = (web_urldispatcher.UrlDispatcher_init, Raise e) ∧
       (e = web_urldispatcher.AttributeError "register_resource" ∨
        ∃ message, e = web_urldispatcher.ValueError message).
Proof.
  apply (add_resource_template_raises web_urldispatcher.users_compile
           web_urldispatcher.as_is web_urldispatcher.users_search
           web_urldispatcher.users_split web_urldispatcher.users_var
           web_urldispatcher.no_var_re "/users/{id}" None
           web_urldispatcher.UrlDispatcher_init).
  reflexivity.
Defined.

(** C3 at its template [/users/{id}]: the pattern is assembled with the
    class [GOOD] for the variable, and compiled between [^] and [$]; the
    resource is then handed to [register_resource], which the dispatcher
    does not have, so [AttributeError] is raised and nothing is
    registered. *)
Example add_resource_users_id_run :
  web_urldispatcher.add_resource_parts web_urldispatcher.as_is
    web_urldispatcher.users_var web_urldispatcher.no_var_re "/users/{id}"
    (web_urldispatcher.users_split "/users/{id}") EmptyString EmptyString
  = Ok ("/users/(?P<id>[^{}/]+)", "/users/{id}") ∧
  web_urldispatcher.add_resource web_urldispatcher.users_compile
    web_urldispatcher.as_is web_urldispatcher.users_search
    web_urldispatcher.users_split web_urldispatcher.users_var
    web_urldispatcher.no_var_re "/users/{id}" None
    web_urldispatcher.UrlDispatcher_init
  = (web_urldispatcher.UrlDispatcher_init,
     Raise (web_urldispatcher.AttributeError "register_resource")).
Proof. split; by vm_compute. Qed.

Lemma add_route_then_resolve_witness :
  ∃ d' route,
    web_urldispatcher.add_route (Handler := nat)
      web_urldispatcher.no_compile web_urldispatcher.as_is
      web_urldispatcher.no_search web_urldispatcher.one_part
      web_urldispatcher.no_var web_urldispatcher.no_var_re
      "get" "/foo" 7 None web_urldispatcher.UrlDispatcher_init
    = (d', Ok route) ∧
    web_urldispatcher.Route_method route = "GET" ∧
    web_urldispatcher.Route_resource route
    = web_urldispatcher.a_resource
        (web_urldispatcher.PlainResource None "/foo") ∧
    web_urldispatcher._resources d'
    = [web_urldispatcher.PlainResource None "/foo"] ∧
    ∀ m, web_urldispatcher.resolve (Handler := nat)
           web_urldispatcher.no_match web_urldispatcher.as_is "/foo" m d'
         = Raise (web_urldispatcher.NameError "route").
Proof.
  apply (add_route_then_resolve (Handler := nat)
           web_urldispatcher.no_compile web_urldispatcher.no_match
           web_urldispatcher.as_is web_urldispatcher.no_search
           web_urldispatcher.one_part web_urldispatcher.no_var
           web_urldispatcher.no_var_re web_urldispatcher.as_is
           "get" "/foo" 7 web_urldispatcher.UrlDispatcher_init);
    reflexivity.
Defined.

Lemma name_parts_ok_cases_witness :
  web_urldispatcher.name_parts_ok "bad name" = false.
Proof.
  apply (proj1 (proj2 name_parts_ok_cases) " "%char "bad name");
    [vm_compute; lia|reflexivity..].
Defined.

(** C1 at a dispatcher with one route, [add_route('GET', '/', handler)]:
    the resource matches the path [/], [resolve] reads [route], which
    nothing binds, and raises [NameError], for the method of the route
    and for another method alike; it returns neither a match nor
    method-not-allowed. A path that no resource matches is answered
    not-found. *)
Example resolve_registered_path_raises :
  let d := (web_urldispatcher.add_route (Handler := nat)
              web_urldispatcher.no_compile web_urldispatcher.as_is
              web_urldispatcher.no_search web_urldispatcher.one_part
              web_urldispatcher.no_var web_urldispatcher.no_var_re
              "GET" "/" 7 None web_urldispatcher.UrlDispatcher_init).1 in
  web_urldispatcher._resources d
  = [web_urldispatcher.PlainResource None "/"] ∧
  web_urldispatcher.resolve (Handler := nat) web_urldispatcher.no_match
    web_urldispatcher.as_is "/" "GET" d
  = Raise (web_urldispatcher.NameError "route") ∧
  web_urldispatcher.resolve (Handler := nat) web_urldispatcher.no_match
    web_urldispatcher.as_is "/" "DELETE" d
  = Raise (web_urldispatcher.NameError "route") ∧
  web_urldispatcher.resolve (Handler := nat) web_urldispatcher.no_match
    web_urldispatcher.as_is "/missing" "GET" d
  = Ok web_urldispatcher._NotFoundMatchInfo.
Proof. vm_compute. by repeat split. Qed.

Section RegistrationFacts.
Import web_urldispatcher.
Context {Pattern : Type}.

(** C8: registration is all or nothing. Registering a resource whose
    name does not pass the test on its parts, [bad name] being such a
    name, raises the [ValueError] of an incorrect name; registering a
    resource under a name the table holds raises the [ValueError] of a
    duplicate, which is what the second of two registrations under one
    name gets; in both cases the list of resources and the table of names
    are what they were before the call. *)
Theorem registration_failures_change_nothing :
  (∀ (r : @Resource Pattern) (d : @UrlDispatcher Pattern) name,
     Resource_name r = Some name →
     (name_parts_ok name = false →
      _reg_resource (a_resource r) d
      = (d, Raise (ValueError (Incorrect_route_name name)))) ∧
     (name_parts_ok name = true →
      is_Some (_named_resources d !! name) →
      _reg_resource (a_resource r) d
      = (d, Raise (ValueError (Duplicate_name name)))) ∧
     (name_parts_ok name = true →
      _named_resources d !! name = None →
      ∃ d', _reg_resource (a_resource r) d = (d', Ok ()) ∧
            ∀ r' : @Resource Pattern,
              Resource_name r' = Some name →
              _reg_resource (a_resource r') d'
              = (d', Raise (ValueError (Duplicate_name name))))) ∧
  name_parts_ok "bad name" = false.
Proof.
  split; [|done]. intros r d name Hname. unfold _reg_resource.
  rewrite Hname. split; [|split].
  - by intros ->.
  - intros -> Hin. simpl. by rewrite decide_True.
  - intros Hok Hout. rewrite Hok. simpl.
    rewrite decide_False by (rewrite Hout; by intros [? ?]).
    eexists. split; [done|]. intros r' Hname'. rewrite Hname', Hok. simpl.
    rewrite decide_True; [done|]. simpl. rewrite lookup_insert_eq. eauto.
Qed.

End RegistrationFacts.

Lemma registration_failures_change_nothing_witness :
  web_urldispatcher._reg_resource
    (web_urldispatcher.a_resource
       (web_urldispatcher.PlainResource (Pattern := ()) (Some "bad name") "/"))
    web_urldispatcher.UrlDispatcher_init
  = (web_urldispatcher.UrlDispatcher_init,
     Raise (web_urldispatcher.ValueError
              (web_urldispatcher.Incorrect_route_name "bad name"))).
Proof.
  apply (proj1 (proj1 registration_failures_change_nothing
                  (web_urldispatcher.PlainResource (Pattern := ())
                     (Some "bad name") "/")
                  web_urldispatcher.UrlDispatcher_init "bad name" eq_refl)).
  reflexivity.
Defined.

(** ** web_urldispatcher: static files *)

Section StringFacts.
Import web_urldispatcher.

Lemma append_cons a (p s : string) :
  String a p +:+ s = String a (p +:+ s).
Proof. done. Qed.

Lemma startswith_app p s : startswith p (p +:+ s) = true.
Proof.
  induction p as [|a p IH]; [done|].
  rewrite append_cons. simpl. by rewrite decide_True.
Qed.

Lemma drop_prefix_app p s : drop_prefix (String.length p) (p +:+ s) = s.
Proof. induction p as [|a p IH]; [done|]. by rewrite append_cons. Qed.

Lemma startswith_split p path :
  startswith p path = true →
  path = p +:+ drop_prefix (String.length p) path.
Proof.
  revert path. induction p as [|a p IH]; intros path Hp; [done|].
  destruct path as [|b path]; [done|]. simpl in Hp.
  destruct (decide (a = b)) as [->|]; [|done].
  rewrite append_cons. simpl. f_equal. by apply IH.
Qed.

Lemma strip_leading_slashes_done filename :
  startswith "/" (strip_leading_slashes filename) = false.
Proof.
  induction filename as [|c filename IH]; [done|]. simpl.
  destruct (decide (c = "/"%char)) as [->|Hc]; [done|].
  simpl. destruct (decide ("/"%char = c)); [congruence|done].
Qed.

Lemma endswith_char_snoc c s :
  endswith_char c (s +:+ String c EmptyString) = true.
Proof.
  induction s as [|a s IH]; [by apply bool_decide_eq_true|].
  rewrite append_cons. simpl.
  destruct (s +:+ String c EmptyString) eqn:Hs; [|done].
  by destruct s.
Qed.

End StringFacts.

Section StaticFacts.
Import web_urldispatcher.
Context {Handler Pattern : Type}.
Variable abspath : string → string.
Variable path_join : string → string → string.
Variable isdir : string → bool.
Variable exists_ : string → bool.
Variable isfile : string → bool.
Variable stat : string → stat_result.
Variable environ_get : string → option string.
Variable hasattr_os_sendfile : bool.
Variable guess_type : string → option string * option string.
Variable open_ : string → result Exn bytes.
Variable urlencode : list (string * string) → string.
Variable bound_handle : StaticRoute → Handler.

(** A static route and its URLs: the URL built for a file name is the
    prefix followed by the name without its leading slashes, and the
    route matches it back to that name; in general the route matches
    exactly the paths that start with the prefix, and the file name is
    what follows it. *)
Theorem static_url_then_match name prefix directory chunk_size self :
  StaticRoute_init abspath isdir environ_get name prefix directory chunk_size
  = Ok self →
  (∀ filename,
     StaticRoute_url urlencode self filename None
     = prefix +:+ strip_leading_slashes filename ∧
     StaticRoute_match self (StaticRoute_url urlencode self filename None)
     = Some [("filename", strip_leading_slashes filename)] ∧
     startswith "/" (strip_leading_slashes filename) = false) ∧
  (∀ path filename,
     StaticRoute_match self path = Some [("filename", filename)]
     ↔ path = prefix +:+ filename).
Proof.
  unfold StaticRoute_init. intros Hinit.
  destruct (negb (startswith "/" prefix)); [done|].
  destruct (negb (endswith_char "/" prefix)); [done|].
  destruct (negb (isdir _)); [done|]. injection Hinit as <-.
  unfold StaticRoute_match, StaticRoute_url. simpl. split.
  - intros filename. split; [done|]. split.
    + by rewrite startswith_app, drop_prefix_app.
    + apply strip_leading_slashes_done.
  - intros path filename. split.
    + destruct (startswith prefix path) eqn:Hp; [|done]. simpl.
      intros [= <-]. by apply startswith_split.
    + intros ->. by rewrite startswith_app, drop_prefix_app.
Qed.

(** [add_static] registers nothing: for every prefix, directory and name
    it raises, [AssertionError] for a prefix that does not start with a
    slash, [ValueError] for a directory that does not exist, and
    otherwise [AssertionError] again, from [_reg_resource], which is
    handed the name of the route where a resource is expected; the
    dispatcher is what it was. *)
Theorem add_static_registers_nothing prefix path name chunk_size
    (d : @UrlDispatcher Pattern) :
  add_static abspath isdir environ_get bound_handle prefix path name
    chunk_size d
  = (d, Raise (if startswith "/" prefix
                  && negb (isdir (abspath path +:+ os_sep))
               then ValueError
                      (No_directory_exists_at (abspath path +:+ os_sep))
               else AssertionError)).
Proof.
  unfold add_static. destruct (startswith "/" prefix) eqn:Hslash; [|done].
  simpl. unfold StaticRoute_init.
  assert (startswith "/"
            (if negb (endswith_char "/" prefix) then prefix +:+ "/"
             else prefix) = true) as ->.
  { destruct (negb _); [|done]. by destruct prefix. }
  assert (endswith_char "/"
            (if negb (endswith_char "/" prefix) then prefix +:+ "/"
             else prefix) = true) as ->.
  { destruct (endswith_char "/" prefix) eqn:He; [done|].
    apply endswith_char_snoc. }
  simpl. by destruct (isdir _).
Qed.

End StaticFacts.

Section SendfileFacts.
Import web_urldispatcher.
#[local] Open Scope nat_scope.

(** The turns given to the loop of [_sendfile_fallback] never run out: with
    [count] turns or more the result is the same, so the loop stops by
    its own test only. *)
Lemma _sendfile_fallback_loop_turns turns turns' chunk_size drained n
    fobj chunk count :
  count ≤ turns → count ≤ turns' →
  _sendfile_fallback_loop turns chunk_size drained n fobj chunk count
  = _sendfile_fallback_loop turns' chunk_size drained n fobj chunk count.
Proof.
  revert turns' n fobj chunk count.
  induction turns as [|turns IH]; intros turns' n fobj chunk count Ht Ht'.
  - assert (count = 0) as -> by lia.
    destruct turns'; [done|]. simpl. by destruct chunk.
  - destruct turns' as [|turns'].
    + assert (count = 0) as -> by lia. simpl. by destruct chunk.
    + simpl. destruct chunk as [|b chunk]; [done|].
      destruct (Nat.ltb chunk_size count) eqn:Hlt; [|done].
      apply Nat.ltb_lt in Hlt. f_equal.
      destruct chunk_size as [|chunk_size].
      * rewrite take_0. by destruct turns, turns'.
      * apply IH; lia.
Qed.

(** The equation of the [while] loop. *)
Lemma _sendfile_fallback_loop_unfold chunk_size drained n fobj chunk count :
  _sendfile_fallback_loop count chunk_size drained n fobj chunk count
  = match chunk with
    | [] => ([], finished (Ok ()))
    | _ =>
        if Nat.ltb chunk_size count
        then write_and_drain chunk (drained n)
               (_sendfile_fallback_loop (count - chunk_size) chunk_size
                  drained (S n) (drop chunk_size fobj) (take chunk_size fobj)
                  (count - chunk_size))
        else write_and_drain (take count chunk) (drained n)
               ([], finished (Ok ()))
    end.
Proof.
  destruct count as [|count].
  - simpl. by destruct chunk.
  - simpl. destruct chunk as [|b chunk]; [done|].
    destruct (Nat.ltb chunk_size (S count)) eqn:Hlt; [|done].
    f_equal. destruct chunk_size as [|chunk_size].
    + rewrite take_0. by destruct count.
    + apply _sendfile_fallback_loop_turns; lia.
Qed.

Lemma written_write_and_drain (chunks : list bytes) :
  written (chunks ≫= (λ chunk, [resp_write chunk; resp_drain]))
  = concat chunks.
Proof.
  induction chunks as [|chunk chunks IH]; [done|].
  rewrite bind_cons. cbn [app written concat]. by rewrite IH.
Qed.

(** The last piece: what is left of [count] out of the chunk in hand. *)
Lemma _sendfile_fallback_last chunk_size (drained : nat → Awaited) n
    (file chunk : bytes) count events run :
  chunk = take chunk_size file → chunk ≠ [] → count ≤ chunk_size →
  write_and_drain (take count chunk) (drained n) ([], finished (Ok ()))
  = (events, run) →
  ∃ chunks,
    events = chunks ≫= (λ chunk, [resp_write chunk; resp_drain]) ∧
    concat chunks `prefix_of` take count file ∧
    Forall (λ chunk, length chunk ≤ chunk_size) chunks ∧
    (0 < count → Forall (λ chunk, chunk ≠ []) chunks) ∧
    (run = finished (Ok ()) → concat chunks = take count file) ∧
    ((∀ i, drained i = await_returns) → run = finished (Ok ())) ∧
    (run = suspended → ∃ i, drained i = await_pending) ∧
    (∀ e, run = finished (Raise e) → ∃ i, drained i = await_raises e).
Proof.
  intros Hchunk Hne Hcount Hrun.
  assert (events = [resp_write (take count chunk); resp_drain]) as ->.
  { unfold write_and_drain in Hrun.
    by destruct (drained n); injection Hrun as <- _. }
  assert (take count chunk = take count file) as Htake.
  { rewrite Hchunk, take_take. f_equal. lia. }
  exists [take count chunk].
  split; [done|]. split; [|split; [|split; [|split; [|split; [|split]]]]].
  - change (concat [take count chunk]) with (take count chunk ++ []).
    by rewrite app_nil_r, Htake.
  - repeat constructor. rewrite length_take. lia.
  - intros Hpos. repeat constructor.
    destruct chunk; [done|]. by destruct count; [lia|].
  - intros _. change (concat [take count chunk]) with (take count chunk ++ []).
    by rewrite app_nil_r.
  - intros Hall. unfold write_and_drain in Hrun. rewrite Hall in Hrun.
    by injection Hrun as <-.
  - intros ->. exists n. unfold write_and_drain in Hrun.
    by destruct (drained n).
  - intros e ->. exists n. unfold write_and_drain in Hrun.
    destruct (drained n); try done. by injection Hrun as ->.
Qed.

(** The loop, whatever the drains give: the pieces written are the first
    pieces of the first [count] bytes of the file, and all of them when
    the loop returns. *)
Lemma _sendfile_fallback_loop_chunks turns chunk_size drained n file count
    events run :
  0 < chunk_size → count ≤ turns →
  _sendfile_fallback_loop turns chunk_size drained n
    (drop chunk_size file) (take chunk_size file) count
  = (events, run) →
  ∃ chunks,
    events = chunks ≫= (λ chunk, [resp_write chunk; resp_drain]) ∧
    concat chunks `prefix_of` take count file ∧
    Forall (λ chunk, length chunk ≤ chunk_size) chunks ∧
    (0 < count → Forall (λ chunk, chunk ≠ []) chunks) ∧
    (run = finished (Ok ()) → concat chunks = take count file) ∧
    ((∀ i, drained i = await_returns) → run = finished (Ok ())) ∧
    (run = suspended → ∃ i, drained i = await_pending) ∧
    (∀ e, run = finished (Raise e) → ∃ i, drained i = await_raises e).
Proof.
  intros Hsize. revert n file count events run.
  assert (∀ file count events run,
            take chunk_size file = [] →
            ([], finished (Ok ())) = (events, run) →
            ∃ chunks : list bytes,
              events = chunks ≫= (λ chunk, [resp_write chunk; resp_drain]) ∧
              concat chunks `prefix_of` take count file ∧
              Forall (λ chunk, length chunk ≤ chunk_size) chunks ∧
              (0 < count → Forall (λ chunk, chunk ≠ []) chunks) ∧
              (run = finished (Ok ()) → concat chunks = take count file) ∧
              ((∀ i, drained i = await_returns) → run = finished (Ok ())) ∧
              (run = suspended → ∃ i, drained i = await_pending) ∧
              (∀ e, run = finished (Raise e) →
                    ∃ i, drained i = await_raises e)) as Hempty.
  { intros file count events run Hchunk [= <- <-].
    assert (file = []) as ->.
    { destruct file; [done|]. by destruct chunk_size; [lia|]. }
    exists []. rewrite take_nil. by repeat split. }
  induction turns as [|turns IH]; intros n file count events run Hturns Hrun.
  - assert (count = 0) as -> by lia. simpl in Hrun.
    destruct (take chunk_size file) as [|b chunk] eqn:Hchunk.
    + by apply Hempty.
    + apply (_sendfile_fallback_last chunk_size drained n file (b :: chunk));
        [done|done|lia|done].
  - simpl in Hrun.
    destruct (take chunk_size file) as [|b chunk] eqn:Hchunk.
    + by apply Hempty.
    + destruct (Nat.ltb chunk_size count) eqn:Hlt.
      2:{ apply Nat.ltb_ge in Hlt.
          by apply (_sendfile_fallback_last chunk_size drained n file
                      (b :: chunk)). }
      apply Nat.ltb_lt in Hlt.
      assert (take count file
              = (b :: chunk) ++ take (count - chunk_size)
                                  (drop chunk_size file)) as Hsplit.
      { rewrite <-Hchunk, take_take_drop. f_equal. lia. }
      assert (length (b :: chunk) ≤ chunk_size) as Hlen.
      { rewrite <-Hchunk, length_take. lia. }
      unfold write_and_drain in Hrun.
      destruct (drained n) as [|e|] eqn:Hdrain.
      * destruct (_sendfile_fallback_loop turns chunk_size drained (S n)
                    (drop chunk_size (drop chunk_size file))
                    (take chunk_size (drop chunk_size file))
                    (count - chunk_size)) as [events' run'] eqn:Hrec.
        simpl in Hrun. injection Hrun as <- <-.
        destruct (IH (S n) (drop chunk_size file) (count - chunk_size)
                    events' run') as
          (chunks & -> & Hpre & Hall & Hne & Hok & Hret & Hsus & Hexc);
          [lia|done|].
        exists ((b :: chunk) :: chunks). split; [done|].
        split; [|split; [|split; [|split; [|split; [|split]]]]].
        -- change (concat ((b :: chunk) :: chunks))
             with ((b :: chunk) ++ concat chunks).
           rewrite Hsplit. by apply prefix_app.
        -- by constructor.
        -- intros _. constructor; [done|]. apply Hne. lia.
        -- intros Hrun. change (concat ((b :: chunk) :: chunks))
             with ((b :: chunk) ++ concat chunks).
           by rewrite Hsplit, Hok.
        -- done.
        -- done.
        -- done.
      * injection Hrun as <- <-. exists [b :: chunk]. split; [done|].
        split; [|split; [|split; [|split; [|split; [|split]]]]].
        -- change (concat [b :: chunk]) with ((b :: chunk) ++ []).
           rewrite app_nil_r, Hsplit. by apply prefix_app_r.
        -- by repeat constructor.
        -- intros _. by repeat constructor.
        -- done.
        -- intros Hret. by rewrite Hret in Hdrain.
        -- done.
        -- intros e' [= ->]. by exists n.
      * injection Hrun as <- <-. exists [b :: chunk]. split; [done|].
        split; [|split; [|split; [|split; [|split; [|split]]]]].
        -- change (concat [b :: chunk]) with ((b :: chunk) ++ []).
           rewrite app_nil_r, Hsplit. by apply prefix_app_r.
        -- by repeat constructor.
        -- intros _. by repeat constructor.
        -- done.
        -- intros Hret. by rewrite Hret in Hdrain.
        -- intros _. by exists n.
        -- done.
Qed.

(** [_sendfile_fallback] sends the first [count] bytes of the file, and
    the whole file when it is shorter: it writes them in pieces of at most
    [chunk_size] bytes, none of them empty when [count] is positive, and
    awaits the drain of the response after each piece. Whatever the drains
    give, what has been written is the beginning of those bytes; it is all
    of them when [_sendfile_fallback] returns, which it does when every
    drain returns. With a [chunk_size] of zero it sends nothing. *)
Theorem sendfile_fallback_sends_count chunk_size drained n fobj count :
  (0 < chunk_size →
   let '(events, run) :=
     _sendfile_fallback chunk_size drained n fobj count in
   ∃ chunks,
     events = chunks ≫= (λ chunk, [resp_write chunk; resp_drain]) ∧
     written events = concat chunks ∧
     concat chunks `prefix_of` take count fobj ∧
     Forall (λ chunk, length chunk ≤ chunk_size) chunks ∧
     (0 < count → Forall (λ chunk, chunk ≠ []) chunks) ∧
     (run = finished (Ok ()) →
      concat chunks = take count fobj ∧ written events = take count fobj) ∧
     ((∀ i, drained i = await_returns) →
      run = finished (Ok ()) ∧
      concat chunks = take count fobj ∧ written events = take count fobj)) ∧
  (chunk_size = 0 →
   _sendfile_fallback chunk_size drained n fobj count
   = ([], finished (Ok ()))).
Proof.
  split.
  - intros Hsize. unfold _sendfile_fallback.
    destruct (_sendfile_fallback_loop count chunk_size drained n
                (drop chunk_size fobj) (take chunk_size fobj) count)
      as [events run] eqn:Hrun.
    destruct (_sendfile_fallback_loop_chunks count chunk_size drained n fobj
                count events run)
      as (chunks & -> & Hpre & Hlen & Hne & Hok & Hret & _); [done..|].
    exists chunks. rewrite written_write_and_drain.
    split; [done|]. split; [done|]. split; [done|]. split; [done|].
    split; [done|]. split.
    + intros Hrun'. by rewrite Hok.
    + intros Hall. by rewrite (Hok (Hret Hall)), (Hret Hall).
  - intros ->. unfold _sendfile_fallback. rewrite take_0.
    by destruct count.
Qed.

(** What one call of the callback does: the calls it makes keep
    [offset + count] what it was; when it registers itself again, fewer
    bytes are left to send than after any call that sent some, the writer
    is registered and the future pending; when it does not, no writer is
    registered and the future is resolved. *)
Lemma _sendfile_cb_step outcome offset count registered before :
  writer_registered before = registered →
  future_after before = fut_pending →
  let '(events, writer) := _sendfile_cb outcome offset count registered in
  Forall (λ e, match e with
               | os_sendfile offset' count' _ =>
                   offset' + count' = offset + count
               | loop_add_writer offset' count' =>
                   offset' + count' = offset + count ∧ 0 < count'
               | _ => True
               end) events ∧
  match writer with
  | Some (offset', count') =>
      offset' + count' = offset + count ∧ 0 < count' ∧ count' ≤ count ∧
      (outcome ≠ sendfile_blocked → count' < count) ∧
      writer_registered (before ++ events) = true ∧
      future_after (before ++ events) = fut_pending
  | None =>
      writer_registered (before ++ events) = false ∧
      future_after (before ++ events)
      = match outcome with
        | sendfile_raised exc => fut_failed exc
        | _ => fut_done
        end
  end.
Proof.
  intros Hw Hf. unfold _sendfile_cb, writer_registered, future_after in *.
  assert (∀ n,
    let '(events, writer) :=
      if Nat.ltb n count
      then ((if registered then [loop_remove_writer] else [])
              ++ [os_sendfile offset count outcome]
              ++ [loop_add_writer (offset + n) (count - n)],
            Some (offset + n, count - n))
      else ((if registered then [loop_remove_writer] else [])
              ++ [os_sendfile offset count outcome] ++ [fut_set_result],
            None) in
    Forall (λ e, match e with
                 | os_sendfile offset' count' _ =>
                     offset' + count' = offset + count
                 | loop_add_writer offset' count' =>
                     offset' + count' = offset + count ∧ 0 < count'
                 | _ => True
                 end) events ∧
    match writer with
    | Some (offset', count') =>
        offset' + count' = offset + count ∧ 0 < count' ∧ count' ≤ count ∧
        (0 < n → count' < count) ∧
        foldl (λ registered e,
                 match e with
                 | loop_add_writer _ _ => true
                 | loop_remove_writer => false
                 | _ => registered
                 end) false (before ++ events) = true ∧
        foldl (λ state e,
                 match e with
                 | fut_set_result => fut_done
                 | fut_set_exception exc => fut_failed exc
                 | _ => state
                 end) fut_pending (before ++ events) = fut_pending
    | None =>
        foldl (λ registered e,
                 match e with
                 | loop_add_writer _ _ => true
                 | loop_remove_writer => false
                 | _ => registered
                 end) false (before ++ events) = false ∧
        foldl (λ state e,
                 match e with
                 | fut_set_result => fut_done
                 | fut_set_exception exc => fut_failed exc
                 | _ => state
                 end) fut_pending (before ++ events) = fut_done
    end) as Hcontinue.
  { intros n. destruct (Nat.ltb n count) eqn:Hn.
    - apply Nat.ltb_lt in Hn. rewrite !foldl_app, Hw, Hf.
      split; [destruct registered; repeat constructor; lia|].
      repeat split; try lia; by destruct registered.
    - rewrite !foldl_app, Hw, Hf.
      split; [destruct registered; by repeat constructor|].
      by destruct registered. }
  destruct outcome as [n| |exc].
  - specialize (Hcontinue (if Nat.eqb n 0 then count else n)).
    destruct (Nat.ltb _ count) eqn:Hlt; rewrite <-!(assoc_L (++)); [|done].
    destruct Hcontinue as (? & ? & ? & ? & Hless & ? & ?).
    split; [done|]. split; [done|]. split; [done|]. split; [done|].
    split; [|done]. intros _. apply Hless.
    apply Nat.ltb_lt in Hlt. destruct (Nat.eqb_spec n 0); lia.
  - specialize (Hcontinue 0).
    destruct (Nat.ltb 0 count); rewrite <-!(assoc_L (++)); [|done].
    destruct Hcontinue as (? & ? & ? & ? & Hless & ? & ?).
    split; [done|]. split; [done|]. split; [done|]. split; [done|].
    by split.
  - rewrite <-!(assoc_L (++)), !foldl_app, Hw, Hf.
    split; [destruct registered; by repeat constructor|].
    by destruct registered.
Qed.

Lemma sendfile_calls_invariant socket later offset count registered before :
  writer_registered before = registered →
  future_after before = fut_pending →
  let events := sendfile_calls socket later offset count registered in
  Forall (λ e, match e with
               | os_sendfile offset' count' _ =>
                   offset' + count' = offset + count
               | loop_add_writer offset' count' =>
                   offset' + count' = offset + count ∧ 0 < count'
               | _ => True
               end) events ∧
  (writer_registered (before ++ events) = true
   ↔ future_after (before ++ events) = fut_pending) ∧
  (Forall (λ outcome, outcome ≠ sendfile_blocked) (socket :: later) →
   count ≤ S (length later) →
   future_after (before ++ events) ≠ fut_pending).
Proof.
  revert socket offset count registered before.
  induction later as [|socket' later IH];
    intros socket offset count registered before Hw Hf; simpl.
  - pose proof (_sendfile_cb_step socket offset count registered before
                  Hw Hf) as Hstep.
    destruct (_sendfile_cb socket offset count registered)
      as [events [[offset' count']|]].
    + destruct Hstep as (Hall & Hsum & Hpos & Hle & Hless & Hreg & Hfut).
      split; [done|]. split; [by rewrite Hreg, Hfut|].
      intros Hsent Hcount. apply Forall_cons in Hsent as [Hsent _].
      specialize (Hless Hsent). lia.
    + destruct Hstep as (Hall & Hreg & Hfut).
      split; [done|]. rewrite Hreg, Hfut.
      split; [by destruct socket|]. intros _ _. by destruct socket.
  - pose proof (_sendfile_cb_step socket offset count registered before
                  Hw Hf) as Hstep.
    destruct (_sendfile_cb socket offset count registered)
      as [events [[offset' count']|]].
    + destruct Hstep as (Hall & Hsum & Hpos & Hle & Hless & Hreg & Hfut).
      destruct (IH socket' offset' count' true (before ++ events) Hreg Hfut)
        as (Hall' & Hiff & Hdone).
      rewrite (assoc_L (++)). split; [|split; [done|]].
      * apply Forall_app. split; [done|].
        eapply Forall_impl; [exact Hall'|].
        intros [] ?; try done; simpl in *; lia.
      * intros Hsent Hcount. apply Forall_cons in Hsent as [Hsent Hlater].
        apply Hdone; [done|]. specialize (Hless Hsent). simpl in Hcount. lia.
    + destruct Hstep as (Hall & Hreg & Hfut).
      split; [done|]. rewrite Hreg, Hfut.
      split; [by destruct socket|]. intros _ _. by destruct socket.
Qed.

(** The callback of [_sendfile_system], from its first call on and
    whatever [os.sendfile] does: every call of [os.sendfile] and every
    registration is for the bytes that are left, the offset and the count
    adding up to the size asked for, with a positive count at each
    registration; a writer is registered exactly as long as the future is
    pending, so none is left behind when the future gets its result or its
    exception; and when the socket never blocks, [count] calls are enough
    to resolve the future. *)
Theorem sendfile_cb_sends_what_is_left socket later count :
  let events := sendfile_calls socket later 0 count false in
  Forall (λ e, match e with
               | os_sendfile offset' count' _ => offset' + count' = count
               | loop_add_writer offset' count' =>
                   offset' + count' = count ∧ 0 < count'
               | _ => True
               end) events ∧
  (writer_registered events = true ↔ future_after events = fut_pending) ∧
  (Forall (λ outcome, outcome ≠ sendfile_blocked) (socket :: later) →
   count ≤ S (length later) →
   future_after events ≠ fut_pending).
Proof.
  exact (sendfile_calls_invariant socket later 0 count false [] eq_refl
           eq_refl).
Qed.


(** What [handle] needs of [_sendfile_fallback]. *)
Lemma _sendfile_fallback_written chunk_size drained n fobj count events run :
  0 < chunk_size →
  _sendfile_fallback chunk_size drained n fobj count = (events, run) →
  written events `prefix_of` take count fobj ∧
  (run = finished (Ok ()) → written events = take count fobj) ∧
  ((∀ i, drained i = await_returns) → run = finished (Ok ())).
Proof.
  intros Hsize Hrun.
  destruct (_sendfile_fallback_loop_chunks count chunk_size drained n fobj
              count events run)
    as (chunks & -> & Hpre & _ & _ & Hok & Hret & _); [done..|].
  by rewrite written_write_and_drain.
Qed.

Lemma _sendfile_fallback_suspended chunk_size drained n fobj count events :
  _sendfile_fallback chunk_size drained n fobj count = (events, suspended) →
  ∃ i, drained i = await_pending.
Proof.
  intros Hrun. destruct chunk_size as [|chunk_size].
  - unfold _sendfile_fallback in Hrun. rewrite take_0 in Hrun.
    by destruct count.
  - destruct (_sendfile_fallback_loop_chunks count (S chunk_size) drained n
                fobj count events suspended)
      as (chunks & _ & _ & _ & _ & _ & _ & Hsus & _); [lia|done|done|].
    by apply Hsus.
Qed.

End SendfileFacts.

Section HandleFacts.
Import web_urldispatcher.
#[local] Open Scope nat_scope.
Variable abspath : string → string.
Variable path_join : string → string → string.
Variable exists_ : string → bool.
Variable isfile : string → bool.
Variable stat : string → stat_result.
Variable hasattr_os_sendfile : bool.
Variable guess_type : string → option string * option string.
Variable open_ : string → result Exn bytes.

Abbreviation handle' :=
  (handle abspath path_join exists_ isfile stat hasattr_os_sendfile
     guess_type open_).

Lemma body_events_app (events events' : list ResponseEvent) :
  body_events (events ++ events') = body_events events ++ body_events events'.
Proof. apply omap_app. Qed.

Lemma body_events_body (events : list BodyEvent) :
  body_events (body <$> events) = events.
Proof.
  induction events as [|e events IH]; [done|].
  unfold body_events in *. rewrite fmap_cons. simpl. f_equal. exact IH.
Qed.

Lemma body_events_attributes (attributes : list ResponseEvent) :
  forallb is_attribute_event attributes = true →
  body_events attributes = [].
Proof.
  induction attributes as [|e attributes IH]; [done|]. simpl.
  intros [He Hattr]%andb_true_iff.
  destruct e; try done; by apply IH.
Qed.

Lemma is_file_event_body (events : list BodyEvent) :
  forallb is_file_event (body <$> events) = true.
Proof. by induction events. Qed.

(** What [handle] does once the tests on the file have passed. *)
Lemma handle_passed self request filename prepared drained thrown
    socket later :
  dict_getitem "filename" (match_info request) = Ok filename →
  let filepath := abspath (path_join (_directory self) filename) in
  startswith (_directory self) filepath = true →
  exists_ filepath = true → isfile filepath = true →
  match if_modified_since request with
  | Some timestamp => Qle_bool (st_mtime (stat filepath)) timestamp
  | None => false
  end = false →
  ∃ attributes sending run,
    handle' self request prepared drained thrown socket later
    = (attributes ++ set_tcp_cork true :: resp_prepare :: sending
         ++ match run with
            | finished _ => [set_tcp_nodelay true]
            | suspended => []
            end,
       run) ∧
    head attributes = Some response_factory ∧
    set_content_length (st_size (stat filepath)) ∈ attributes ∧
    forallb is_attribute_event attributes = true ∧
    (sending, run)
    = match prepared with
      | await_raises e => ([], finished (Raise e))
      | await_pending => ([], suspended)
      | await_returns =>
          handle_send hasattr_os_sendfile open_ self request filepath
            (st_size (stat filepath)) drained thrown socket later
      end.
Proof.
  intros Hfile filepath Hin Hex Hisfile Hfresh. unfold handle.
  rewrite Hfile. fold filepath. rewrite Hin, Hex, Hisfile. simpl.
  rewrite Hfresh. destruct (guess_type filepath) as [ct encoding].
  set (send := handle_send _ _ _ _ _ _ _ _ _ _).
  exists ([response_factory;
           set_content_type (if truthy ct then default EmptyString ct
                             else "application/octet-stream")]
          ++ (if truthy encoding
              then [set_header CONTENT_ENCODING (default EmptyString encoding)]
              else [])
          ++ [set_last_modified (st_mtime (stat filepath));
              set_content_length (st_size (stat filepath))]).
  assert (set_content_length (st_size (stat filepath))
          ∈ [response_factory;
             set_content_type (if truthy ct then default EmptyString ct
                               else "application/octet-stream")]
            ++ (if truthy encoding
                then [set_header CONTENT_ENCODING
                        (default EmptyString encoding)]
                else [])
            ++ [set_last_modified (st_mtime (stat filepath));
                set_content_length (st_size (stat filepath))]) as Hlen.
  { rewrite !elem_of_app. right. right. apply list_elem_of_further.
    apply list_elem_of_here. }
  destruct prepared as [|e|].
  - destruct send as [sending run] eqn:Hsend. exists sending, run.
    rewrite <-!(assoc_L (++)). split; [by destruct (truthy encoding)|].
    split; [done|]. split; [done|]. split; [|done].
    by destruct (truthy encoding).
  - exists [], (finished (Raise e)).
    rewrite <-!(assoc_L (++)). split; [by destruct (truthy encoding)|].
    split; [done|]. split; [done|]. split; [|done].
    by destruct (truthy encoding).
  - exists [], suspended.
    rewrite <-!(assoc_L (++)). split; [by destruct (truthy encoding)|].
    split; [done|]. split; [done|]. split; [|done].
    by destruct (truthy encoding).
Qed.

(** The refusals of [handle]: a file name that leads out of the
    directory, a path that does not exist and a path that is no regular
    file all raise the same [HTTPNotFound]; a file not modified after the
    time of [If-Modified-Since] raises [HTTPNotModified]; in each case no
    response is made, so nothing is written. Every other request gets a
    response, which carries the size of the file as its content length. *)
Theorem handle_refusals self request filename prepared drained thrown
    socket later :
  dict_getitem "filename" (match_info request) = Ok filename →
  let filepath := abspath (path_join (_directory self) filename) in
  let outcome :=
    handle' self request prepared drained thrown socket later in
  if startswith (_directory self) filepath && exists_ filepath
     && isfile filepath
  then
    (∀ timestamp,
       if_modified_since request = Some timestamp →
       (st_mtime (stat filepath) <= timestamp)%Q →
       outcome = ([], finished (Raise HTTPNotModified))) ∧
    ((∀ timestamp,
        if_modified_since request = Some timestamp →
        ¬ (st_mtime (stat filepath) <= timestamp)%Q) →
     ∃ events,
       outcome.1 = response_factory :: events ∧
       set_content_length (st_size (stat filepath)) ∈ events ∧
       set_tcp_cork true ∈ events)
  else outcome = ([], finished (Raise HTTPNotFound)).
Proof.
  intros Hfile filepath outcome.
  destruct (startswith (_directory self) filepath) eqn:Hin; simpl;
    [|subst outcome; unfold handle; rewrite Hfile; fold filepath;
      by rewrite Hin].
  destruct (exists_ filepath) eqn:Hex; simpl;
    [|subst outcome; unfold handle; rewrite Hfile; fold filepath;
      by rewrite Hin, Hex].
  destruct (isfile filepath) eqn:Hisfile;
    [|subst outcome; unfold handle; rewrite Hfile; fold filepath;
      by rewrite Hin, Hex, Hisfile].
  split.
  - intros timestamp Hsince Hle. subst outcome. unfold handle.
    rewrite Hfile. fold filepath. rewrite Hin, Hex, Hisfile, Hsince. simpl.
    apply Qle_bool_iff in Hle. by rewrite Hle.
  - intros Hmodified.
    destruct (handle_passed self request filename prepared drained thrown
                socket later Hfile Hin Hex Hisfile)
      as (attributes & sending & run & Hhandle & Hhead & Hlen & _).
    { destruct (if_modified_since request) as [timestamp|]; [|done].
      destruct (Qle_bool _ timestamp) eqn:Hle; [|done].
      apply Qle_bool_iff in Hle. by destruct (Hmodified timestamp). }
    subst outcome. fold filepath in Hhandle. rewrite Hhandle. simpl.
    destruct attributes as [|e attributes]; [done|].
    injection Hhead as ->. eexists. split; [done|].
    apply elem_of_cons in Hlen as [?|Hlen]; [done|].
    split; apply elem_of_app; [by left|].
    right. apply list_elem_of_here.
Qed.

(** Every response of [handle] is sent between [set_tcp_cork(True)] and
    [set_tcp_nodelay(True)]: when [handle] makes any call at all, it sets
    the attributes of the response, corks, awaits [prepare], and only
    then opens the file and sends the body; however the coroutine
    finishes, by returning or by an exception of [prepare], of [open], of
    a drain or of the sending, its last call is
    [set_tcp_nodelay(True)]. A coroutine that has not finished has not
    made that call, and it is waiting for [prepare], for a drain, or for
    the future of the [sendfile] of the system on a connection without
    SSL. *)
Theorem handle_cork_then_nodelay self request prepared drained thrown
    socket later :
  let '(events, run) :=
    handle' self request prepared drained thrown socket later in
  (events = [] ∧
   ∃ e, run = finished (Raise e) ∧
        (e = KeyError "filename" ∨ e = HTTPNotFound ∨ e = HTTPNotModified)) ∨
  (∃ attributes sending,
     events = attributes ++ set_tcp_cork true :: resp_prepare :: sending
              ++ match run with
                 | finished _ => [set_tcp_nodelay true]
                 | suspended => []
                 end ∧
     forallb is_attribute_event attributes = true ∧
     forallb is_file_event sending = true ∧
     (∀ e, prepared = await_raises e →
           sending = [] ∧ run = finished (Raise e)) ∧
     (prepared = await_pending → sending = [] ∧ run = suspended) ∧
     (run = suspended →
      prepared = await_pending ∨
      (∃ i, drained i = await_pending) ∨
      (StaticRoute__sendfile hasattr_os_sendfile self = sendfile_system ∧
       sslcontext request = false ∧ thrown = None))).
Proof.
  destruct (dict_getitem "filename" (match_info request)) as [filename|e]
    eqn:Hfile.
  2:{ unfold handle. rewrite Hfile. left. split; [done|].
      exists e. split; [done|]. left.
      clear -Hfile. induction (match_info request) as [|[k v] d IH];
        simpl in Hfile; [by injection Hfile as <-|].
      destruct (decide (k = "filename")); [done|by apply IH]. }
  set (filepath := abspath (path_join (_directory self) filename)).
  destruct (startswith (_directory self) filepath) eqn:Hin;
    [|unfold handle; rewrite Hfile; fold filepath; rewrite Hin; simpl;
      left; eauto 6].
  destruct (exists_ filepath) eqn:Hex;
    [|unfold handle; rewrite Hfile; fold filepath; rewrite Hin, Hex; simpl;
      left; eauto 6].
  destruct (isfile filepath) eqn:Hisfile;
    [|unfold handle; rewrite Hfile; fold filepath;
      rewrite Hin, Hex, Hisfile; simpl; left; eauto 6].
  destruct (match if_modified_since request with
            | Some timestamp => Qle_bool (st_mtime (stat filepath)) timestamp
            | None => false
            end) eqn:Hfresh.
  { unfold handle. rewrite Hfile. fold filepath.
    rewrite Hin, Hex, Hisfile. simpl. rewrite Hfresh. left. eauto 6. }
  destruct (handle_passed self request filename prepared drained thrown
              socket later Hfile Hin Hex Hisfile Hfresh)
    as (attributes & sending & run & -> & _ & _ & Hattr & Hsend).
  right. exists attributes, sending. split; [done|]. split; [done|].
  destruct prepared as [|e|].
  2:{ injection Hsend as -> ->. split; [done|]. split; [|done].
      by intros e' [= ->]. }
  2:{ injection Hsend as -> ->. split; [done|]. split; [done|].
      split; [done|]. intros _. by left. }
  unfold handle_send in Hsend. fold filepath in Hsend.
  destruct (open_ filepath) as [f|e]; [|by injection Hsend as -> ->].
  destruct (match StaticRoute__sendfile hasattr_os_sendfile self with
            | sendfile_system =>
                _sendfile_system (_chunk_size self) drained thrown request f
                  (st_size (stat filepath)) socket later
            | sendfile_fallback =>
                _sendfile_fallback (_chunk_size self) drained 0 f
                  (st_size (stat filepath))
            end) as [events run'] eqn:Hbody.
  injection Hsend as -> ->.
  split; [|split; [done|split; [done|]]].
  { simpl. rewrite forallb_app, is_file_event_body. by destruct run'. }
  intros ->. right.
  destruct (StaticRoute__sendfile hasattr_os_sendfile self) eqn:Hwhich.
  - unfold _sendfile_system in Hbody.
    destruct (sslcontext request) eqn:Hssl.
    + left. by apply _sendfile_fallback_suspended in Hbody.
    + destruct (drained 0) eqn:Hdrain; [|done|left; by exists 0].
      destruct thrown; [by destruct (future_after _)|by right].
  - left. by apply _sendfile_fallback_suspended in Hbody.
Qed.

(** Served through [_sendfile_fallback], which is the [_sendfile] of a
    route made with [AIOHTTP_NOSENDFILE] set or on a system without
    [sendfile], and the one used on every connection with SSL: once the
    tests on the file have passed, the response is prepared and the file
    is open, the bytes written are, whatever the drains give, the
    beginning of the first [st_size] bytes of the file as opened; they
    are all of them when [handle] returns, and [handle] returns when
    every drain does. However [handle] finishes, the file has been closed
    and the last call is [set_tcp_nodelay(True)]; if it has not finished,
    it is waiting for a drain. *)
Theorem handle_fallback_sends_file self request filename drained thrown
    socket later f :
  dict_getitem "filename" (match_info request) = Ok filename →
  let filepath := abspath (path_join (_directory self) filename) in
  startswith (_directory self) filepath = true →
  exists_ filepath = true → isfile filepath = true →
  match if_modified_since request with
  | Some timestamp => Qle_bool (st_mtime (stat filepath)) timestamp
  | None => false
  end = false →
  open_ filepath = Ok f →
  StaticRoute__sendfile hasattr_os_sendfile self = sendfile_fallback
  ∨ sslcontext request = true →
  0 < _chunk_size self →
  let '(events, run) :=
    handle' self request await_returns drained thrown socket later in
  written (body_events events)
    `prefix_of` take (st_size (stat filepath)) f ∧
  (run = finished (Ok ()) →
   written (body_events events) = take (st_size (stat filepath)) f) ∧
  ((∀ i, drained i = await_returns) →
   run = finished (Ok ()) ∧
   written (body_events events) = take (st_size (stat filepath)) f) ∧
  (∀ r, run = finished r →
        close_file filepath ∈ events ∧
        last events = Some (set_tcp_nodelay true)) ∧
  (run = suspended → ∃ i, drained i = await_pending).
Proof.
  intros Hfile filepath Hin Hex Hisfile Hfresh Hopen Hwhich Hsize.
  destruct (handle_passed self request filename await_returns drained thrown
              socket later Hfile Hin Hex Hisfile Hfresh)
    as (attributes & sending & run & -> & _ & _ & Hattr & Hsend).
  fold filepath in Hsend. unfold handle_send in Hsend.
  rewrite Hopen in Hsend.
  assert (match StaticRoute__sendfile hasattr_os_sendfile self with
          | sendfile_system =>
              _sendfile_system (_chunk_size self) drained thrown request f
                (st_size (stat filepath)) socket later
          | sendfile_fallback =>
              _sendfile_fallback (_chunk_size self) drained 0 f
                (st_size (stat filepath))
          end
          = _sendfile_fallback (_chunk_size self) drained 0 f
              (st_size (stat filepath))) as Hfallback.
  { destruct (StaticRoute__sendfile hasattr_os_sendfile self); [|done].
    destruct Hwhich as [?|Hssl]; [done|].
    unfold _sendfile_system. by rewrite Hssl. }
  rewrite Hfallback in Hsend. clear Hfallback.
  destruct (_sendfile_fallback (_chunk_size self) drained 0 f
              (st_size (stat filepath))) as [body_calls run'] eqn:Hbody.
  injection Hsend as -> ->.
  destruct (_sendfile_fallback_written _ _ _ _ _ _ _ Hsize Hbody)
    as (Hpre & Hok & Hret).
  assert (body_events
            (attributes ++ set_tcp_cork true :: resp_prepare ::
               (open_rb filepath :: (body <$> body_calls)
                  ++ match run' with
                     | finished _ => [close_file filepath]
                     | suspended => []
                     end)
               ++ match run' with
                  | finished _ => [set_tcp_nodelay true]
                  | suspended => []
                  end)
          = body_calls) as ->.
  { rewrite body_events_app, (body_events_attributes _ Hattr).
    change (body_events
              (((body <$> body_calls)
                  ++ match run' with
                     | finished _ => [close_file filepath]
                     | suspended => []
                     end)
                 ++ match run' with
                    | finished _ => [set_tcp_nodelay true]
                    | suspended => []
                    end) = body_calls).
    rewrite !body_events_app, body_events_body.
    destruct run'; simpl; by rewrite !app_nil_r. }
  split; [done|]. split; [done|]. split; [|split].
  - intros Hall. split; [by apply Hret|]. by apply Hok, Hret.
  - intros r ->. split.
    + apply elem_of_app. right. do 2 apply list_elem_of_further.
      apply elem_of_app. left. apply list_elem_of_further.
      apply elem_of_app. right. apply list_elem_of_here.
    + rewrite !app_comm_cons, !(assoc_L (++)). apply last_snoc.
  - intros ->. by apply _sendfile_fallback_suspended in Hbody.
Qed.

(** C5: for the file name a static route reads off the path it matched,
    when the path made of the directory and that name lies outside the
    directory, when it does not exist, and when it is no regular file,
    [handle] raises [HTTPNotFound] and makes no call on any response: the
    outcome is the same value in the three cases, whatever the name. *)
Theorem static_not_found_indistinguishable self path request prepared
    drained thrown socket later :
  StaticRoute_match self path = Some (match_info request) →
  let filename := drop_prefix (_prefix_len self) path in
  let filepath := abspath (path_join (_directory self) filename) in
  startswith (_directory self) filepath = false
  ∨ exists_ filepath = false ∨ isfile filepath = false →
  handle' self request prepared drained thrown socket later
  = ([], finished (Raise HTTPNotFound)).
Proof.
  intros Hmatch filename filepath Hrefused. unfold StaticRoute_match in Hmatch.
  destruct (negb (startswith (_prefix self) path)); [done|].
  injection Hmatch as Hinfo. unfold handle. rewrite <-Hinfo.
  cbn [dict_getitem]. rewrite decide_True by done.
  fold filename. fold filepath.
  destruct (startswith (_directory self) filepath); [|done]. simpl.
  destruct Hrefused as [?|[->| ->]]; [done|done|].
  by rewrite orb_true_r.
Qed.


End HandleFacts.

Lemma static_url_then_match_witness :
  web_urldispatcher.StaticRoute_match web_urldispatcher.www_route
    (web_urldispatcher.StaticRoute_url web_urldispatcher.www_urlencode
       web_urldispatcher.www_route "//index.html" None)
  = Some [("filename", "index.html")].
Proof.
  apply (proj1 (static_url_then_match web_urldispatcher.as_is
                  web_urldispatcher.www_isdir web_urldispatcher.www_environ
                  web_urldispatcher.www_urlencode
                  None "/static/" "/srv/www" 4 web_urldispatcher.www_route
                  eq_refl) "//index.html").
Defined.

Lemma sendfile_fallback_sends_count_witness :
  (web_urldispatcher._sendfile_fallback 4 web_urldispatcher.www_drained 0
     web_urldispatcher.www_index 7).2
  = web_urldispatcher.finished (Ok ()) ∧
  web_urldispatcher.written
    (web_urldispatcher._sendfile_fallback 4 web_urldispatcher.www_drained 0
       web_urldispatcher.www_index 7).1
  = take 7 web_urldispatcher.www_index.
Proof.
  pose proof (proj1 (sendfile_fallback_sends_count 4
                       web_urldispatcher.www_drained 0
                       web_urldispatcher.www_index 7)) as Hsends.
  destruct (web_urldispatcher._sendfile_fallback 4
              web_urldispatcher.www_drained 0 web_urldispatcher.www_index 7)
    as [events run].
  destruct Hsends as (chunks & _ & _ & _ & _ & _ & _ & Hall); [lia|].
  destruct (Hall (λ i, eq_refl)) as (Hrun & _ & Hwritten).
  exact (conj Hrun Hwritten).
Defined.

Lemma sendfile_cb_sends_what_is_left_witness :
  web_urldispatcher.future_after
    (web_urldispatcher.sendfile_calls
       (web_urldispatcher.sendfile_sent 3)
       [web_urldispatcher.sendfile_sent 2; web_urldispatcher.sendfile_sent 2;
        web_urldispatcher.sendfile_raised 32]
       0 4 false)
  ≠ web_urldispatcher.fut_pending.
Proof.
  apply (proj2 (proj2 (sendfile_cb_sends_what_is_left
                         (web_urldispatcher.sendfile_sent 3)
                         [web_urldispatcher.sendfile_sent 2;
                          web_urldispatcher.sendfile_sent 2;
                          web_urldispatcher.sendfile_raised 32] 4))).
  - repeat constructor; discriminate.
  - simpl. lia.
Defined.

Lemma handle_refusals_witness :
  web_urldispatcher.handle web_urldispatcher.as_is
    web_urldispatcher.www_join web_urldispatcher.www_isfile
    web_urldispatcher.www_isfile web_urldispatcher.www_stat false
    web_urldispatcher.www_guess_type web_urldispatcher.www_open
    web_urldispatcher.www_route
    (web_urldispatcher.www_request "missing.html" None)
    web_urldispatcher.await_returns web_urldispatcher.www_drained None
    web_urldispatcher.sendfile_blocked []
  = ([], web_urldispatcher.finished (Raise web_urldispatcher.HTTPNotFound)).
Proof.
  apply (handle_refusals web_urldispatcher.as_is
           web_urldispatcher.www_join web_urldispatcher.www_isfile
           web_urldispatcher.www_isfile web_urldispatcher.www_stat false
           web_urldispatcher.www_guess_type web_urldispatcher.www_open
           web_urldispatcher.www_route
           (web_urldispatcher.www_request "missing.html" None)
           "missing.html" web_urldispatcher.await_returns
           web_urldispatcher.www_drained None
           web_urldispatcher.sendfile_blocked [] eq_refl).
Defined.

Lemma handle_cork_then_nodelay_witness :
  web_urldispatcher.StaticRoute__sendfile true web_urldispatcher.www_route
  = web_urldispatcher.sendfile_system ∧
  web_urldispatcher.sslcontext
    (web_urldispatcher.www_request "index.html" (Some 99%Q)) = false ∧
  @None web_urldispatcher.Exn = None.
Proof.
  pose proof (handle_cork_then_nodelay web_urldispatcher.as_is
                web_urldispatcher.www_join web_urldispatcher.www_isfile
                web_urldispatcher.www_isfile web_urldispatcher.www_stat true
                web_urldispatcher.www_guess_type web_urldispatcher.www_open
                web_urldispatcher.www_route
                (web_urldispatcher.www_request "index.html" (Some 99%Q))
                web_urldispatcher.await_returns
                web_urldispatcher.www_drained None
                web_urldispatcher.sendfile_blocked []) as Hbracket.
  destruct (web_urldispatcher.handle web_urldispatcher.as_is
              web_urldispatcher.www_join web_urldispatcher.www_isfile
              web_urldispatcher.www_isfile web_urldispatcher.www_stat true
              web_urldispatcher.www_guess_type web_urldispatcher.www_open
              web_urldispatcher.www_route
              (web_urldispatcher.www_request "index.html" (Some 99%Q))
              web_urldispatcher.await_returns
              web_urldispatcher.www_drained None
              web_urldispatcher.sendfile_blocked []) as [events run] eqn:Hrun.
  vm_compute in Hrun. injection Hrun as <- <-.
  destruct Hbracket
    as [[Hnil _]|(attributes & sending & _ & _ & _ & _ & _ & Hsusp)];
    [discriminate|].
  destruct (Hsusp eq_refl) as [Hprep|[[i Hdrain]|Hcause]];
    [discriminate|discriminate|].
  exact Hcause.
Defined.

Lemma handle_fallback_sends_file_witness :
  (web_urldispatcher.handle web_urldispatcher.as_is
     web_urldispatcher.www_join web_urldispatcher.www_isfile
     web_urldispatcher.www_isfile web_urldispatcher.www_stat false
     web_urldispatcher.www_guess_type web_urldispatcher.www_open
     web_urldispatcher.www_route
     (web_urldispatcher.www_request "index.html" (Some 99%Q))
     web_urldispatcher.await_returns web_urldispatcher.www_drained None
     web_urldispatcher.sendfile_blocked []).2
  = web_urldispatcher.finished (Ok ()) ∧
  web_urldispatcher.written
    (web_urldispatcher.body_events
       (web_urldispatcher.handle web_urldispatcher.as_is
          web_urldispatcher.www_join web_urldispatcher.www_isfile
          web_urldispatcher.www_isfile web_urldispatcher.www_stat false
          web_urldispatcher.www_guess_type web_urldispatcher.www_open
          web_urldispatcher.www_route
          (web_urldispatcher.www_request "index.html" (Some 99%Q))
          web_urldispatcher.await_returns web_urldispatcher.www_drained None
          web_urldispatcher.sendfile_blocked []).1)
  = take 7 web_urldispatcher.www_index.
Proof.
  pose proof (handle_fallback_sends_file web_urldispatcher.as_is
                web_urldispatcher.www_join web_urldispatcher.www_isfile
                web_urldispatcher.www_isfile web_urldispatcher.www_stat false
                web_urldispatcher.www_guess_type web_urldispatcher.www_open
                web_urldispatcher.www_route
                (web_urldispatcher.www_request "index.html" (Some 99%Q))
                "index.html" web_urldispatcher.www_drained None
                web_urldispatcher.sendfile_blocked []
                web_urldispatcher.www_index
                eq_refl eq_refl eq_refl eq_refl eq_refl eq_refl
                (or_introl eq_refl)) as Hsends.
  destruct (web_urldispatcher.handle web_urldispatcher.as_is
              web_urldispatcher.www_join web_urldispatcher.www_isfile
              web_urldispatcher.www_isfile web_urldispatcher.www_stat false
              web_urldispatcher.www_guess_type web_urldispatcher.www_open
              web_urldispatcher.www_route
              (web_urldispatcher.www_request "index.html" (Some 99%Q))
              web_urldispatcher.await_returns
              web_urldispatcher.www_drained None
              web_urldispatcher.sendfile_blocked []) as [events run].
  destruct Hsends as (_ & _ & Hall & _); [simpl; lia|].
  exact (Hall (λ i, eq_refl)).
Defined.

(** The example file system at work: the file is sent in two pieces by
    the fallback; when the second drain finds the connection lost, the
    file is closed and the socket uncorked all the same; a request that
    climbs out of the directory, one for a file that does not exist and
    one for the directory itself get the same answer; a copy as recent as
    the file is not sent again. *)
Example handle_run :
  web_urldispatcher.handle web_urldispatcher.as_is
    web_urldispatcher.www_join web_urldispatcher.www_isfile
    web_urldispatcher.www_isfile web_urldispatcher.www_stat false
    web_urldispatcher.www_guess_type web_urldispatcher.www_open
    web_urldispatcher.www_route
    (web_urldispatcher.www_request "index.html" None)
    web_urldispatcher.await_returns web_urldispatcher.www_drained None
    web_urldispatcher.sendfile_blocked []
  = ([web_urldispatcher.response_factory;
      web_urldispatcher.set_content_type "text/html";
      web_urldispatcher.set_last_modified 100;
      web_urldispatcher.set_content_length 7;
      web_urldispatcher.set_tcp_cork true;
      web_urldispatcher.resp_prepare;
      web_urldispatcher.open_rb "/srv/www/index.html";
      web_urldispatcher.body
        (web_urldispatcher.resp_write [x3c; x70; x3e; x68]);
      web_urldispatcher.body web_urldispatcher.resp_drain;
      web_urldispatcher.body (web_urldispatcher.resp_write [x69; x21; x0a]);
      web_urldispatcher.body web_urldispatcher.resp_drain;
      web_urldispatcher.close_file "/srv/www/index.html";
      web_urldispatcher.set_tcp_nodelay true],
     web_urldispatcher.finished (Ok ())) ∧
  web_urldispatcher.handle web_urldispatcher.as_is
    web_urldispatcher.www_join web_urldispatcher.www_isfile
    web_urldispatcher.www_isfile web_urldispatcher.www_stat false
    web_urldispatcher.www_guess_type web_urldispatcher.www_open
    web_urldispatcher.www_route
    (web_urldispatcher.www_request "index.html" None)
    web_urldispatcher.await_returns web_urldispatcher.www_drained_once None
    web_urldispatcher.sendfile_blocked []
  = ([web_urldispatcher.response_factory;
      web_urldispatcher.set_content_type "text/html";
      web_urldispatcher.set_last_modified 100;
      web_urldispatcher.set_content_length 7;
      web_urldispatcher.set_tcp_cork true;
      web_urldispatcher.resp_prepare;
      web_urldispatcher.open_rb "/srv/www/index.html";
      web_urldispatcher.body
        (web_urldispatcher.resp_write [x3c; x70; x3e; x68]);
      web_urldispatcher.body web_urldispatcher.resp_drain;
      web_urldispatcher.body (web_urldispatcher.resp_write [x69; x21; x0a]);
      web_urldispatcher.body web_urldispatcher.resp_drain;
      web_urldispatcher.close_file "/srv/www/index.html";
      web_urldispatcher.set_tcp_nodelay true],
     web_urldispatcher.finished (Raise (web_urldispatcher.OSError 104))) ∧
  (∀ filename,
     filename ∈ ["../../etc/passwd"; "missing.html"; ""] →
     web_urldispatcher.handle web_urldispatcher.as_is
       web_urldispatcher.www_join web_urldispatcher.www_isfile
       web_urldispatcher.www_isfile web_urldispatcher.www_stat false
       web_urldispatcher.www_guess_type web_urldispatcher.www_open
       web_urldispatcher.www_route
       (web_urldispatcher.www_request filename None)
       web_urldispatcher.await_returns web_urldispatcher.www_drained None
       web_urldispatcher.sendfile_blocked []
     = ([], web_urldispatcher.finished
              (Raise web_urldispatcher.HTTPNotFound))) ∧
  web_urldispatcher.handle web_urldispatcher.as_is
    web_urldispatcher.www_join web_urldispatcher.www_isfile
    web_urldispatcher.www_isfile web_urldispatcher.www_stat false
    web_urldispatcher.www_guess_type web_urldispatcher.www_open
    web_urldispatcher.www_route
    (web_urldispatcher.www_request "index.html" (Some 100%Q))
    web_urldispatcher.await_returns web_urldispatcher.www_drained None
    web_urldispatcher.sendfile_blocked []
  = ([], web_urldispatcher.finished
           (Raise web_urldispatcher.HTTPNotModified)).
Proof.
  split; [by vm_compute|]. split; [by vm_compute|].
  split; [|by vm_compute].
  intros filename Hin.
  repeat (apply elem_of_cons in Hin as [->|Hin]; [by vm_compute|]).
  by apply elem_of_nil in Hin.
Qed.

(** C5 at a request that climbs out of the directory, on a file system
    where every path exists: the refusal is that of the test on the
    directory. *)
Lemma static_not_found_indistinguishable_witness :
  web_urldispatcher.handle web_urldispatcher.etc_abspath
    web_urldispatcher.www_join web_urldispatcher.etc_exists
    web_urldispatcher.etc_exists web_urldispatcher.www_stat false
    web_urldispatcher.www_guess_type web_urldispatcher.www_open
    web_urldispatcher.www_route
    (web_urldispatcher.www_request "../../etc/passwd" None)
    web_urldispatcher.await_returns web_urldispatcher.www_drained None
    web_urldispatcher.sendfile_blocked []
  = ([], web_urldispatcher.finished (Raise web_urldispatcher.HTTPNotFound)).
Proof.
  apply (static_not_found_indistinguishable web_urldispatcher.etc_abspath
           web_urldispatcher.www_join web_urldispatcher.etc_exists
           web_urldispatcher.etc_exists web_urldispatcher.www_stat false
           web_urldispatcher.www_guess_type web_urldispatcher.www_open
           web_urldispatcher.www_route "/static/../../etc/passwd"
           (web_urldispatcher.www_request "../../etc/passwd" None)
           web_urldispatcher.await_returns web_urldispatcher.www_drained None
           web_urldispatcher.sendfile_blocked [] eq_refl).
  left. reflexivity.
Defined.


